(** * Tetris with FRP: the game-state reducer of [src/main.ts]

    A shallow embedding of the reducer [stateUpdater] and of the functions it
    calls ([tetrominoRotation], [mergeBlockWithBlock], [collisionChecker],
    [rngStream], [getRandomTetromino], [lockBlockChecker], [lockBlock],
    [clearAndMoveRows]), followed by the properties of the specification.

    Conventions.
    - JavaScript numbers that hold integers (cells, colours, coordinates,
      score, level) are [Z].
    - Arrays are lists; [a[i]] is [get a i], where [None] stands for
      [undefined].
    - A run that throws is [Err TypeError].  Two places would store
      [undefined] in an array or grow an array with holes (a ragged shape
      under rotation, a write outside a row); the embedding does not follow
      such runs and answers [Err OutOfModel].
    - The module-level variable [seed] is threaded through the functions
      that draw from it.  It is a double: the module [Double] embeds the
      generator in double precision, [rngStream] and [getRandomTetromino]
      outside it are the generator on integer seeds, where nothing is
      rounded. *)

From stdpp Require Import strings pretty.
From stdpp Require Import base option list numbers.
From Stdlib Require Import ZArith NArith QArith Lia.

Local Open Scope Z_scope.

(** ** Outcomes *)

Inductive error := TypeError | OutOfModel.

Inductive result (A : Type) :=
  | Ok (a : A)
  | Err (e : error).
Arguments Ok {A} a.
Arguments Err {A} e.

#[global] Instance result_ret : MRet result := @Ok.
#[global] Instance result_bind : MBind result := λ A B f r,
  match r with Ok a => f a | Err e => Err e end.
#[global] Instance result_fmap : FMap result := λ A B f r,
  match r with Ok a => Ok (f a) | Err e => Err e end.

(** ** Constants *)

Module Constants.
Definition GRID_WIDTH : Z := 10.
Definition GRID_HEIGHT : Z := 20.
End Constants.
Import Constants.

(** ** JavaScript array operations *)

(** [a[i]] for an integer [i]. *)
Definition get {A} (a : list A) (i : Z) : option A :=
  if bool_decide (0 ≤ i) then a !! Z.to_nat i else None.

(** [a.some((v, i) => p v i)], the index counted from [i]. *)
Fixpoint some_from {A} (p : A → Z → bool) (i : Z) (a : list A) : bool :=
  match a with
  | [] => false
  | v :: a' => p v i || some_from p (i + 1) a'
  end.

Definition some {A} (p : A → Z → bool) (a : list A) : bool := some_from p 0 a.

(** [a.reduce((acc, v, i) => f acc v i, acc)] for a callback that may throw. *)
Fixpoint reduce_from {A B} (f : B → A → Z → result B) (i : Z) (a : list A)
    (acc : B) : result B :=
  match a with
  | [] => Ok acc
  | v :: a' => acc' ← f acc v i; reduce_from f (i + 1) a' acc'
  end.

Definition reduce {A B} (f : B → A → Z → result B) (a : list A) (acc : B)
  : result B := reduce_from f 0 a acc.

(** [a.map(f)] for a callback that may fail. *)
Fixpoint map_result {A B} (f : A → result B) (a : list A) : result (list B) :=
  match a with
  | [] => Ok []
  | v :: a' => w ← f v; ws ← map_result f a'; Ok (w :: ws)
  end.

(** [x | 0] on a real number [x]: truncation towards zero, then wrap-around
    to a signed 32-bit integer. *)
Definition toInt32 (z : Z) : Z := (z + 2 ^ 31) mod 2 ^ 32 - 2 ^ 31.

Definition bitor0 (q : Q) : Z := toInt32 (Z.quot (Qnum q) (Z.pos (Qden q))).

(** ** Data model *)

Record Tetromino := {
  shape : list (list Z);
  color : Z;
  x : Z;
  y : Z;
}.

Definition tetrominoes : list Tetromino := [
  {| shape := [[1; 1]; [1; 1]];       color := 1; x := 4; y := -1 |};
  {| shape := [[1; 1; 1; 1]];         color := 2; x := 4; y := -1 |};
  {| shape := [[0; 1; 0]; [1; 1; 1]]; color := 3; x := 4; y := -1 |};
  {| shape := [[1; 1; 1]; [1; 0; 0]]; color := 4; x := 4; y := -1 |};
  {| shape := [[1; 1; 1]; [0; 0; 1]]; color := 5; x := 4; y := -1 |};
  {| shape := [[1; 1; 0]; [0; 1; 1]]; color := 6; x := 4; y := -1 |};
  {| shape := [[0; 1; 1]; [1; 1; 0]]; color := 7; x := 4; y := -1 |}
].

Record State := {
  gameEnd : bool;
  grid : list (list Z);
  fallingBlock : Tetromino;
  nextBlock : Tetromino;
  score : Z;
  level : Z;
}.

(** [initialState]: the two pieces are picked with [Math.random], which the
    embedding takes as arguments. *)
Definition initialState (fallingBlock nextBlock : Tetromino) : State := {|
  gameEnd := false;
  grid := replicate (Z.to_nat GRID_HEIGHT) (replicate (Z.to_nat GRID_WIDTH) 0);
  fallingBlock := fallingBlock;
  nextBlock := nextBlock;
  score := 0;
  level := 1;
|}.

Inductive Event :=
  | Move (dx dy : Z)
  | Rotate.

(** ** Game state changes *)

(** [shape[0]] of an empty shape is [undefined], whose [map] throws; a row
    shorter than the first one would put [undefined] into the rotated
    shape: [OutOfModel]. *)
Definition tetrominoRotation (shape : list (list Z)) : result (list (list Z)) :=
  match shape with
  | [] => Err TypeError
  | row0 :: _ =>
      map_result (λ columnIndex : nat,
        reverse <$> map_result (λ row : list Z,
          match row !! columnIndex with
          | Some cell => Ok cell
          | None => Err OutOfModel
          end) shape)
        (seq 0 (length row0))
  end.

(** The callback of the inner [reduce] of [mergeBlockWithBlock].  The row
    test admits [gridY = GRID_HEIGHT], where [innerAcc[gridY]] is
    [undefined] and the read of its cell throws; a cell that is
    [undefined] is not [<= 0] and is left alone. *)
Definition mergeCell (block : Tetromino) (sy : Z) (innerAcc : list (list Z))
    (cell sx : Z) : result (list (list Z)) :=
  if bool_decide (cell ≠ 0) then
    let gridX := x block + sx in
    let gridY := y block + sy in
    if bool_decide (gridY >= 0) && bool_decide (gridY ≤ GRID_HEIGHT)
       && bool_decide (gridX >= 0) && bool_decide (gridX < GRID_WIDTH) then
      match get innerAcc gridY with
      | None => Err TypeError
      | Some row =>
          match get row gridX with
          | Some v =>
              if bool_decide (v ≤ 0) then
                Ok (<[Z.to_nat gridY := <[Z.to_nat gridX := color block]> row]> innerAcc)
              else Ok innerAcc
          | None => Ok innerAcc
          end
      end
    else Ok innerAcc
  else Ok innerAcc.

Definition mergeBlockWithBlock (grid : list (list Z)) (block : Tetromino)
  : result (list (list Z)) :=
  let gridResult := grid in
  reduce (λ outerAcc row sy, reduce (mergeCell block sy) row outerAcc)
    (shape block) gridResult.

(** [grid[targetY]] is [undefined], hence falsy, for a row above or below
    the board; a cell that is [undefined] is [!== 0]. *)
Definition collisionChecker (grid : list (list Z)) (block : Tetromino)
    (offsetX offsetY : Z) : bool :=
  some (λ shapeRow shapeY,
    some (λ shapeCell shapeX,
      if bool_decide (shapeCell ≠ 0) then
        let blockX := x block + shapeX in
        let blockY := y block + shapeY in
        let targetX := blockX + offsetX in
        let targetY := blockY + offsetY in
        bool_decide (targetX < 0)
        || bool_decide (targetX >= GRID_WIDTH)
        || bool_decide (targetY >= GRID_HEIGHT)
        || match get grid targetY with
           | None => false
           | Some row =>
               match get row targetX with
               | Some v => bool_decide (v ≠ 0)
               | None => true
               end && bool_decide (shapeCell ≠ 0)
           end
      else false) shapeRow) (shape block).

(** [rngStream]: the value [seed / m] and the new seed.  The source keeps
    the seed in a double that starts at [Math.random()]; here the seed is a
    natural number and the arithmetic is exact.  For an integer seed below
    [2^32] that is what the source computes, every intermediate value being
    an integer below [2^53] or such an integer over a power of two.  For
    the fractional seeds of a real run the rounding of doubles is not
    followed here: [Double.rngStream] below follows it.  The properties of
    the game hold for every seed and rest on two facts only, which hold of
    the source on doubles as well: a draw advances the seed once, and the
    index drawn is one of 0..6. *)
Definition rngStream (seed : N) : Q * N :=
  let a := 1664525%N in
  let c := 1013904223%N in
  let m := 4294967296%N in
  let seed' := ((a * seed + c) mod m)%N in
  (Z.of_N seed' # 4294967296, seed').

(** [tetrominoes[randomIndex]] is always defined ([randomIndex_range]
    below), so the default of [nth] is never used. *)
Definition getRandomTetromino (seed : N) : Tetromino * N :=
  let validIndexRange := 7%Q in
  let '(value, seed') := rngStream seed in
  let randomIndex := bitor0 (value * validIndexRange) in
  let t := nth (Z.to_nat randomIndex) tetrominoes
             {| shape := []; color := 0; x := 0; y := 0 |} in
  ({| shape := shape t; color := color t; x := 4; y := 0 |}, seed').

Definition lockBlockChecker (block : Tetromino) (grid : list (list Z)) : bool :=
  if bool_decide (y block + Z.of_nat (length (shape block)) > GRID_HEIGHT - 1) then true
  else if collisionChecker grid block 0 1 then true
  else if bool_decide (y block < -1) then true
  else false.

(** The callback of the inner [reduce] of [lockedGrid] in [lockBlock].
    [rowAcc[occupiedGridY]] is not checked: an absent row throws.  A column
    outside the row does not throw in the source, it adds a property to the
    row or grows it; the embedding does not follow such a run and answers
    [OutOfModel], which is no outcome of the source. *)
Definition lockCell (block : Tetromino) (sy : Z) (rowAcc : list (list Z))
    (cell sx : Z) : result (list (list Z)) :=
  if bool_decide (cell ≠ 0) then
    let occupiedGridX := x block + sx in
    let occupiedGridY := y block + sy in
    match get rowAcc occupiedGridY with
    | None => Err TypeError
    | Some row =>
        if bool_decide (0 ≤ occupiedGridX < Z.of_nat (length row)) then
          Ok (<[Z.to_nat occupiedGridY := <[Z.to_nat occupiedGridX := color block]> row]> rowAcc)
        else Err OutOfModel
    end
  else Ok rowAcc.

(** [{ ...state, gameEnd: true }] *)
Definition endGame (state : State) : State :=
  {| gameEnd := true; grid := grid state;
     fallingBlock := fallingBlock state; nextBlock := nextBlock state;
     score := score state; level := level state |}.

Definition lockBlock (state : State) (block : Tetromino) (seed : N)
  : result (State * N) :=
  newGrid ← mergeBlockWithBlock (grid state) block;
  let '(nextBlock, seed') := getRandomTetromino seed in
  match get newGrid 0 with
  | None => Err TypeError
  | Some row0 =>
      let topRowFull := some (λ cell _, bool_decide (cell ≠ 0)) row0 in
      if topRowFull then Ok (endGame state, seed')
      else
        lockedGrid ← reduce (λ gridAcc row sy, reduce (lockCell block sy) row gridAcc)
                       (shape block) newGrid;
        Ok ({| gameEnd := gameEnd state; grid := lockedGrid;
               fallingBlock := nextBlock; nextBlock := nextBlock;
               score := score state; level := level state |}, seed')
  end.

Definition clearAndMoveRows (grid : list (list Z)) (score level : Z)
  : list (list Z) * Z * Z :=
  let clearedRows := List.filter (some (λ cell _, bool_decide (cell = 0))) grid in
  let clearedRowCount := Z.of_nat (length grid) - Z.of_nat (length clearedRows) in
  let newRows := replicate (Z.to_nat clearedRowCount)
                   (replicate (Z.to_nat GRID_WIDTH) 0) in
  let Score := score + clearedRowCount * 100 in
  let newLevel := bitor0 (Score # 500) + 1 in
  (newRows ++ clearedRows, Score, newLevel).

Definition stateUpdater (state : State) (movement : Event) (seed : N)
  : result (State * N) :=
  let newFallingBlock := fallingBlock state in
  newFallingBlock ←
    match movement with
    | Move dx dy =>
        Ok {| shape := shape newFallingBlock; color := color newFallingBlock;
              x := x newFallingBlock + dx; y := y newFallingBlock + dy |}
    | Rotate =>
        rotatedBlock ← tetrominoRotation (shape newFallingBlock);
        let rotatedTetromino :=
          {| shape := rotatedBlock; color := color newFallingBlock;
             x := x newFallingBlock; y := y newFallingBlock |} in
        if negb (collisionChecker (grid state) rotatedTetromino 0 0) then
          Ok rotatedTetromino
        else Ok newFallingBlock
    end;
  let newFallingBlock :=
    if bool_decide (x newFallingBlock < 0) then
      {| shape := shape newFallingBlock; color := color newFallingBlock;
         x := 0; y := y newFallingBlock |}
    else newFallingBlock in
  match shape newFallingBlock with
  | [] => Err TypeError
  | row0 :: _ =>
      let newFallingBlock :=
        if bool_decide (x newFallingBlock + Z.of_nat (length row0) > GRID_WIDTH) then
          {| shape := shape newFallingBlock; color := color newFallingBlock;
             x := GRID_WIDTH - Z.of_nat (length row0); y := y newFallingBlock |}
        else newFallingBlock in
      if lockBlockChecker newFallingBlock (grid state) then
        lockBlock state newFallingBlock seed
      else if bool_decide (y newFallingBlock < -1) then Ok (endGame state, seed)
      else
        let '(newGrid, newScore, newLevel) :=
          clearAndMoveRows (grid state) (score state) (level state) in
        Ok ({| gameEnd := gameEnd state; grid := newGrid;
               fallingBlock := newFallingBlock; nextBlock := nextBlock state;
               score := newScore; level := newLevel |}, seed)
  end.

(** ** The reducer in three steps

    [stateUpdater] first moves or rotates a copy of the falling piece
    ([applyMovement]), then clamps it between the walls ([clampX]), and
    at last either locks it or lets it fall on ([settle]).  The three steps
    are named here so that properties can speak of the piece that is being
    worked on; [stateUpdater_steps] shows that they compose to the reducer. *)

Definition applyMovement (state : State) (movement : Event) : result Tetromino :=
  let newFallingBlock := fallingBlock state in
  match movement with
  | Move dx dy =>
      Ok {| shape := shape newFallingBlock; color := color newFallingBlock;
            x := x newFallingBlock + dx; y := y newFallingBlock + dy |}
  | Rotate =>
      rotatedBlock ← tetrominoRotation (shape newFallingBlock);
      let rotatedTetromino :=
        {| shape := rotatedBlock; color := color newFallingBlock;
           x := x newFallingBlock; y := y newFallingBlock |} in
      if negb (collisionChecker (grid state) rotatedTetromino 0 0) then
        Ok rotatedTetromino
      else Ok newFallingBlock
  end.

Definition clampX (block : Tetromino) : result Tetromino :=
  let x1 := if bool_decide (x block < 0) then 0 else x block in
  match shape block with
  | [] => Err TypeError
  | row0 :: _ =>
      let x2 := if bool_decide (x1 + Z.of_nat (length row0) > GRID_WIDTH)
                then GRID_WIDTH - Z.of_nat (length row0) else x1 in
      Ok {| shape := shape block; color := color block; x := x2; y := y block |}
  end.

Definition movedBlock (state : State) (movement : Event) : result Tetromino :=
  block ← applyMovement state movement; clampX block.

Definition settle (state : State) (block : Tetromino) (seed : N)
  : result (State * N) :=
  if lockBlockChecker block (grid state) then lockBlock state block seed
  else if bool_decide (y block < -1) then Ok (endGame state, seed)
  else
    let '(newGrid, newScore, newLevel) :=
      clearAndMoveRows (grid state) (score state) (level state) in
    Ok ({| gameEnd := gameEnd state; grid := newGrid;
           fallingBlock := block; nextBlock := nextBlock state;
           score := newScore; level := newLevel |}, seed).

(** ** Auxiliary definitions used in the statements *)

Definition setGameEnd (b : bool) (state : State) : State :=
  {| gameEnd := b; grid := grid state;
     fallingBlock := fallingBlock state; nextBlock := nextBlock state;
     score := score state; level := level state |}.

Definition setNextBlock (q : Tetromino) (state : State) : State :=
  {| gameEnd := gameEnd state; grid := grid state;
     fallingBlock := fallingBlock state; nextBlock := q;
     score := score state; level := level state |}.

(** The cell of a grid at row [r], column [c]. *)
Definition cellAt (g : list (list Z)) (r c : Z) : option Z :=
  row ← get g r; get row c.

(** A row is complete when none of its cells is [0]. *)
Definition complete (row : list Z) : bool :=
  negb (some (λ cell _, bool_decide (cell = 0)) row).

Definition completeRows (g : list (list Z)) : list (list Z) :=
  List.filter complete g.

(** The lock-in write of [lockBlock] on its own. *)
Definition lockWrite (newGrid : list (list Z)) (block : Tetromino)
  : result (list (list Z)) :=
  reduce (λ gridAcc row sy, reduce (lockCell block sy) row gridAcc)
    (shape block) newGrid.

(** The events the input streams of [main] produce: the three key moves,
    the gravity tick [Move 0 1], and the rotation. *)
Definition gameEvent (e : Event) : Prop :=
  match e with
  | Move dx dy => 0 ≤ dy ≤ 1
  | Rotate => True
  end.

(** [scan((state, movement) => stateUpdater(state, movement), initialState)]
    over a finite prefix of the event stream. *)
Fixpoint scan (state : State) (seed : N) (events : list Event)
  : result (State * N) :=
  match events with
  | [] => Ok (state, seed)
  | movement :: events' =>
      '(state', seed') ← stateUpdater state movement seed;
      scan state' seed' events'
  end.

(** The states the game can be in: those the scan reaches from an initial
    state on the events the input streams produce. *)
Definition reachable (st : State * N) : Prop :=
  ∃ fb nb seed0 events,
    fb ∈ tetrominoes ∧ nb ∈ tetrominoes ∧ Forall gameEvent events ∧
    scan (initialState fb nb) seed0 events = Ok st.

(** ** Example pieces, boards and states *)

Definition pieceO (px py : Z) : Tetromino :=
  {| shape := [[1; 1]; [1; 1]]; color := 1; x := px; y := py |}.
Definition pieceI (px py : Z) : Tetromino :=
  {| shape := [[1; 1; 1; 1]]; color := 2; x := px; y := py |}.
Definition pieceT (px py : Z) : Tetromino :=
  {| shape := [[0; 1; 0]; [1; 1; 1]]; color := 3; x := px; y := py |}.

Definition emptyRow : list Z := [0; 0; 0; 0; 0; 0; 0; 0; 0; 0].
Definition emptyGrid : list (list Z) := replicate 20 emptyRow.

(** An O piece one row above its resting place on the empty board, as the
    scan reaches it from [initialState O T] after eighteen gravity ticks. *)
Definition exAboveFloor : State :=
  {| gameEnd := false; grid := emptyGrid;
     fallingBlock := pieceO 4 17; nextBlock := pieceT 4 (-1);
     score := 0; level := 1 |}.

(** Nine O pieces stacked in columns 4 and 5: rows 2 to 19. *)
Definition towerGrid : list (list Z) :=
  replicate 2 emptyRow ++ replicate 18 [0; 0; 0; 0; 1; 1; 0; 0; 0; 0].

(** A game that has ended on that tower, with an O piece at the top. *)
Definition exEnded : State :=
  {| gameEnd := true; grid := towerGrid;
     fallingBlock := pieceO 4 0; nextBlock := pieceO 4 0;
     score := 0; level := 1 |}.

(** A vertical I piece standing in column 4 (rows 16 to 19), with an O piece
    falling beside it in columns 5 and 6. *)
Definition besideGrid : list (list Z) :=
  replicate 16 emptyRow ++ replicate 4 [0; 0; 0; 0; 2; 0; 0; 0; 0; 0].

Definition exBeside : State :=
  {| gameEnd := false; grid := besideGrid;
     fallingBlock := pieceO 5 15; nextBlock := pieceT 4 0;
     score := 0; level := 1 |}.

(** [shape[0].length], the width the wall clamp of the reducer uses. *)
Definition shapeWidth (sh : list (list Z)) : Z :=
  match sh with
  | [] => 0
  | row0 :: _ => Z.of_nat (length row0)
  end.

(** A board whose two bottom rows are complete. *)
Definition twoFullRows : list (list Z) :=
  replicate 18 emptyRow ++ replicate 2 [1; 1; 1; 1; 1; 1; 1; 1; 1; 1].

(** Nine O pieces stacked in columns 0 and 1, and an O piece whose anchor
    lies left of the board. *)
Definition leftTowerGrid : list (list Z) :=
  replicate 2 emptyRow ++ replicate 18 [1; 1; 0; 0; 0; 0; 0; 0; 0; 0].

Definition exOutside : State :=
  {| gameEnd := false; grid := leftTowerGrid;
     fallingBlock := pieceO (-5) 0; nextBlock := pieceT 4 0;
     score := 0; level := 1 |}.

(** ** Rotation as the specification words it

    "Transpose the matrix (swap rows and columns) and reverse each resulting
    row."  [transpose] is the usual transposition by rows; it is compared
    with [tetrominoRotation], which reads the columns by index. *)

Fixpoint transpose (cols : nat) (m : list (list Z)) : list (list Z) :=
  match m with
  | [] => replicate cols []
  | row :: m' => zip_with cons row (transpose cols m')
  end.

Definition rotateClockwise_spec (sh : list (list Z)) : list (list Z) :=
  reverse <$> transpose (Z.to_nat (shapeWidth sh)) sh.

(** A matrix of [R] rows and [C] columns. *)
Definition rectangular (R C : nat) (m : list (list Z)) : Prop :=
  length m = R ∧ Forall (λ row, length row = C) m.

(** A T piece in the air over the empty board. *)
Definition exInAir : State :=
  {| gameEnd := false; grid := emptyGrid;
     fallingBlock := pieceT 4 5; nextBlock := pieceO 4 0;
     score := 0; level := 1 |}.

(** The bottom row lacks its two leftmost cells, and an O piece falls
    towards them; [exGapLocked] and [exGapCleared] are the states after
    one and after two gravity ticks (the generator started at 0). *)
Definition exGap : State :=
  {| gameEnd := false;
     grid := replicate 19 emptyRow ++ [[0; 0; 1; 1; 1; 1; 1; 1; 1; 1]];
     fallingBlock := pieceO 0 17; nextBlock := pieceT 4 0;
     score := 0; level := 1 |}.

Definition exGapLocked : State :=
  {| gameEnd := false;
     grid := replicate 18 emptyRow ++
             [[1; 1; 0; 0; 0; 0; 0; 0; 0; 0]; [1; 1; 1; 1; 1; 1; 1; 1; 1; 1]];
     fallingBlock := pieceI 4 0; nextBlock := pieceI 4 0;
     score := 0; level := 1 |}.

Definition exGapCleared : State :=
  {| gameEnd := false;
     grid := replicate 19 emptyRow ++ [[1; 1; 0; 0; 0; 0; 0; 0; 0; 0]];
     fallingBlock := pieceI 4 1; nextBlock := pieceI 4 0;
     score := 100; level := 1 |}.

(** The same gap, with a tower in column 4 that reaches up to row 2. *)
Definition exGapTower : State :=
  {| gameEnd := false;
     grid := replicate 2 emptyRow ++ replicate 17 [0; 0; 0; 0; 1; 0; 0; 0; 0; 0] ++
             [[0; 0; 1; 1; 1; 1; 1; 1; 1; 1]];
     fallingBlock := pieceO 0 17; nextBlock := pieceT 4 0;
     score := 0; level := 1 |}.

(** ** Well-formed states

    The board has 20 rows of 10 cells.  A shape is a matrix of at most 4 by
    4 cells, as the catalogue shapes and their rotations are.  A piece lies
    [inBoard] when each of its occupied cells is a cell of the board. *)

Definition wfGrid (g : list (list Z)) : Prop :=
  length g = Z.to_nat GRID_HEIGHT ∧
  Forall (λ row, length row = Z.to_nat GRID_WIDTH) g.

Definition wfShape (sh : list (list Z)) : Prop :=
  ∃ R C : nat, rectangular R C sh ∧ (1 ≤ R ≤ 4)%nat ∧ (1 ≤ C ≤ 4)%nat.

Definition inBoard (block : Tetromino) : Prop :=
  ∀ (sy sx : nat) (row : list Z) (cell : Z),
    shape block !! sy = Some row → row !! sx = Some cell → cell ≠ 0 →
    0 ≤ y block + Z.of_nat sy < GRID_HEIGHT ∧
    0 ≤ x block + Z.of_nat sx < GRID_WIDTH.

(** What holds of every state of the game: the falling piece has not
    reached the floor, and it is above row 0 only on the empty board. *)
Definition invariant (state : State) : Prop :=
  wfGrid (grid state) ∧
  wfShape (shape (fallingBlock state)) ∧
  y (fallingBlock state) + Z.of_nat (length (shape (fallingBlock state)))
    ≤ GRID_HEIGHT - 1 ∧
  (0 ≤ y (fallingBlock state) ∨
   (y (fallingBlock state) = -1 ∧ grid state = emptyGrid)).

(** ** User input and the stream of game states *)

(** The fields of a DOM [KeyboardEvent] the input streams read, with the
    name of the event it was dispatched as. *)
Record KeyboardEvent := {
  type : string;
  code : string;
  repeat : bool;
}.

(** What happens outside the game: a keyboard event on the document, or a
    firing of [interval(Constants.TICK_RATE_MS)] with its count. *)
Inductive Occurrence :=
  | Keyboard (ev : KeyboardEvent)
  | Interval (elapsed : N).

(** [keyObservable(e, k, result)]: what the stream emits on one occurrence. *)
Definition keyObservable {T} (e k : string) (result : unit → T)
    (o : Occurrence) : option T :=
  match o with
  | Keyboard ev =>
      if bool_decide (type ev = e) then
        if bool_decide (code ev = k) then
          if negb (repeat ev) then Some (result ()) else None
        else None
      else None
  | Interval _ => None
  end.

Definition left_ : Occurrence → option Event :=
  keyObservable "keypress" "KeyA" (λ _, Move (-1) 0).
Definition right_ : Occurrence → option Event :=
  keyObservable "keypress" "KeyD" (λ _, Move 1 0).
Definition down_ : Occurrence → option Event :=
  keyObservable "keypress" "KeyS" (λ _, Move 0 1).
Definition rotate_ : Occurrence → option Event :=
  keyObservable "keydown" "KeyW" (λ _, Rotate).

(** [tick$.pipe(map(() => new Move(0,1)))] *)
Definition tick_ (o : Occurrence) : option Event :=
  match o with
  | Interval elapsed => Some (Move 0 1)
  | Keyboard _ => None
  end.

(** [merge(left$, right$, down$, rotate$, tick$...)]: the movements one
    occurrence makes the merged stream emit. *)
Definition merged (o : Occurrence) : list Event :=
  omap (λ source : Occurrence → option Event, source o)
    [left_; right_; down_; rotate_; tick_].

(** [gameState$]: the state after the occurrences [os], from the initial
    state with the two pieces [fb] and [nb] and the seed [seed0]. *)
Definition gameState (fb nb : Tetromino) (seed0 : N) (os : list Occurrence)
  : result (State * N) :=
  scan (initialState fb nb) seed0 (os ≫= merged).

(** ** What the states of the game have in common *)

(** The number of occupied cells of a shape. *)
Definition occupiedCells (sh : list (list Z)) : nat :=
  length (List.filter (λ cell, bool_decide (cell ≠ 0)) (concat sh)).

(** The shapes [tetrominoRotation] makes of a shape, applied any number of
    times. *)
Inductive orientation (sh0 : list (list Z)) : list (list Z) → Prop :=
  | orientation_start : orientation sh0 sh0
  | orientation_turn sh sh' :
      orientation sh0 sh → tetrominoRotation sh = Ok sh' → orientation sh0 sh'.

(** A piece of the catalogue, turned, with the colour it has there. *)
Definition isTetromino (block : Tetromino) : Prop :=
  ∃ t, t ∈ tetrominoes ∧ color block = color t ∧
       orientation (shape t) (shape block).

(** Every cell of the board is empty or holds one of the seven colours. *)
Definition validCells (g : list (list Z)) : Prop :=
  Forall (Forall (λ cell, 0 ≤ cell ≤ 7)) g.

Definition gameInvariant (state : State) : Prop :=
  isTetromino (fallingBlock state) ∧ isTetromino (nextBlock state) ∧
  0 ≤ x (fallingBlock state)
    ≤ GRID_WIDTH - shapeWidth (shape (fallingBlock state)) ∧
  validCells (grid state) ∧
  0 ≤ score state ∧ score state `mod` 100 = 0 ∧
  level state = bitor0 (score state # 500) + 1.

(** The board cell at row [r], column [c] lies under an occupied cell of
    the piece. *)
Definition covers (block : Tetromino) (r c : Z) : Prop :=
  ∃ (sy sx : nat) (row : list Z) (cell : Z),
    shape block !! sy = Some row ∧ row !! sx = Some cell ∧ cell ≠ 0 ∧
    r = y block + Z.of_nat sy ∧ c = x block + Z.of_nat sx.

(** ** Rendering

    The page as far as [render] touches it: the children of the canvas
    [svg] and the two text fields.  An element is what [createSvgElement]
    makes of its arguments; the numbers in its attributes are printed in
    decimal, as a template literal prints an integer. *)

Module Viewport.
Definition CANVAS_WIDTH : Z := 200.
Definition CANVAS_HEIGHT : Z := 400.
Definition PREVIEW_WIDTH : Z := 160.
Definition PREVIEW_HEIGHT : Z := 80.
End Viewport.

Module Block.
Definition WIDTH : Z := Viewport.CANVAS_WIDTH / Constants.GRID_WIDTH.
Definition HEIGHT : Z := Viewport.CANVAS_HEIGHT / Constants.GRID_HEIGHT.
End Block.

Definition tetrominoColours : list (Z * string) := [
  (1, "yellow"); (2, "cyan"); (3, "purple"); (4, "orange");
  (5, "blue"); (6, "red"); (7, "green")
].

(** [tetrominoColours[id] || "black"] *)
Definition blockColours (id : Z) : string :=
  match list_find (λ entry, entry.1 = id) tetrominoColours with
  | Some (_, (_, colour)) => colour
  | None => "black"
  end.

Record Element := {
  elementNamespace : option string;
  tagName : string;
  attributes : list (string * string);
}.

Record Svg := {
  namespaceURI : option string;
  children : list Element;
}.

Record Page := {
  svg : Svg;
  levelText : string;
  scoreText : string;
}.

Definition createSvgElement (namespace : option string) (name : string)
    (props : list (string * string)) : Element :=
  {| elementNamespace := namespace; tagName := name; attributes := props |}.

(** [child instanceof SVGRectElement]: an element named rect in the SVG
    namespace. *)
Definition isSVGRectElement (child : Element) : bool :=
  bool_decide (elementNamespace child = Some "http://www.w3.org/2000/svg")
  && bool_decide (tagName child = "rect").

Definition appendChild (parent : Svg) (child : Element) : Svg :=
  {| namespaceURI := namespaceURI parent;
     children := children parent ++ [child] |}.

(** [a.forEach((v, i) => ...)] for a callback that changes the canvas. *)
Fixpoint forEach_from {A S} (f : S → A → Z → S) (i : Z) (a : list A) (st : S) : S :=
  match a with
  | [] => st
  | v :: a' => forEach_from f (i + 1) a' (f st v i)
  end.

Definition forEach {A S} (f : S → A → Z → S) (a : list A) (st : S) : S :=
  forEach_from f 0 a st.

(** [clearCanvas]: every child that is an [SVGRectElement] is removed, the
    other children stay in their order. *)
Definition clearCanvas (svg : Svg) (s : State) : Svg :=
  if negb (gameEnd s) then
    {| namespaceURI := namespaceURI svg;
       children := List.filter (λ child, negb (isSVGRectElement child)) (children svg) |}
  else svg.

Definition renderBlock (svg : Svg) (block : Tetromino) (s : State) : Svg :=
  if negb (gameEnd s) then
    forEach (λ svg row sy,
      forEach (λ svg cell sx,
        if bool_decide (cell ≠ 0) then
          let cube := createSvgElement (namespaceURI svg) "rect" [
            ("height", pretty Block.HEIGHT);
            ("width", pretty Block.WIDTH);
            ("x", pretty (Block.WIDTH * (x block + sx)));
            ("y", pretty (Block.HEIGHT * (y block + sy)));
            ("style", "fill: " +:+ blockColours (color block))
          ] in
          appendChild svg cube
        else svg) row svg) (shape block) svg
  else svg.

Definition renderGrid (svg : Svg) (grid : list (list Z)) (s : State) : Svg :=
  if negb (gameEnd s) then
    forEach (λ svg row gy,
      forEach (λ svg cell gx,
        if bool_decide (cell ≠ 0) then
          let cube := createSvgElement (namespaceURI svg) "rect" [
            ("height", pretty Block.HEIGHT);
            ("width", pretty Block.WIDTH);
            ("x", pretty (Block.WIDTH * gx));
            ("y", pretty (Block.HEIGHT * gy));
            ("style", "fill: " +:+ blockColours cell)
          ] in
          appendChild svg cube
        else svg) row svg) grid svg
  else svg.

Definition render (s : State) (page : Page) : Page :=
  let svg1 := clearCanvas (svg page) s in
  let svg2 := renderGrid svg1 (grid s) s in
  let svg3 := renderBlock svg2 (fallingBlock s) s in
  {| svg := svg3; levelText := pretty (level s); scoreText := pretty (score s) |}.

(** The rectangles on the canvas. *)
Definition rects (svg : Svg) : list Element :=
  List.filter isSVGRectElement (children svg).

(** A page whose canvas holds a frame and a text, as an example. *)
Definition examplePage : Page :=
  {| svg := {| namespaceURI := Some "http://www.w3.org/2000/svg";
               children := [
                 createSvgElement (Some "http://www.w3.org/2000/svg") "g" [("id", "gameOver")];
                 createSvgElement (Some "http://www.w3.org/2000/svg") "rect" [("x", "0")]
               ] |};
     levelText := ""; scoreText := "" |}.

(** The callback of the inner [forEach] of [renderGrid] and [renderBlock],
    for the square [cube] each of them makes. *)
Definition cellStep (cube : Svg → Z → Z → Element) (svg : Svg) (cell sx : Z) : Svg :=
  if bool_decide (cell ≠ 0) then appendChild svg (cube svg cell sx) else svg.


(** ** The generator on doubles

    The module-level [seed] starts at [Math.random()], a double in
    [0, 1), and [rngStream] computes on it in double precision: the
    product and the sum of [a * seed + c] are rounded, [%] and the division
    by [m = 2^32] are not integer operations.  [rngStream] above follows
    the source on integer seeds; this module follows it on every seed a
    run can hold.

    A double that is finite and not negative is a whole number of units of
    [2^-1074], the smallest double above 0: it is kept here as that number
    of units.  A number of units is a double when it has at most 53
    significant bits ([isDouble]).  The operations are those of IEEE 754
    binary64 on such doubles, rounding to nearest with ties to even, as
    long as the result stays below [2^1024], where a double overflows; the
    values of [rngStream] stay below [2^53]. *)
Module Double.

Definition double := N.

(** The double [1]. *)
Definition one : double := (2 ^ 1074)%N.

(** The double that holds the integer [k]. *)
Definition ofInt (k : N) : double := (k * one)%N.

(** The quotient [num / den] of two whole numbers, counted in units, rounded
    to the nearest double.  Between [2^(k+52)] and [2^(k+53)] units the
    doubles are [2^k] units apart, and below [2^53] units one unit apart;
    half-way between two doubles the one with the even significand is
    taken. *)
Definition roundTo (num den : N) : double :=
  let k := (N.log2 (num / den) - 52)%N in
  let step := (den * 2 ^ k)%N in
  let q := (num / step)%N in
  let r := (num mod step)%N in
  if (2 * r <? step)%N then (q * 2 ^ k)%N
  else if (step <? 2 * r)%N then ((q + 1) * 2 ^ k)%N
  else if N.even q then (q * 2 ^ k)%N
  else ((q + 1) * 2 ^ k)%N.

Definition isDouble (n : N) : bool := (n mod 2 ^ (N.log2 n - 52) =? 0)%N.

(** [x * y], [x + y], [x / y] and [x % y]; the divisor of [/] and [%] is
    not 0 where they are used.  [%] is exact. *)
Definition fmul (x y : double) : double := roundTo (x * y) one.
Definition fadd (x y : double) : double := roundTo (x + y) 1.
Definition fdiv (x y : double) : double := roundTo (x * one) y.
Definition fmod (x y : double) : double := (x mod y)%N.

(** [x | 0]: the fraction is dropped, then the 32-bit wrap-around. *)
Definition bitor0 (x : double) : Z := toInt32 (Z.of_N (x / one)).

Definition rngStream (seed : double) : double * double :=
  let a := ofInt 1664525 in
  let c := ofInt 1013904223 in
  let m := ofInt 4294967296 in
  let seed' := fmod (fadd (fmul a seed) c) m in
  (fdiv seed' m, seed').

(** [tetrominoes[randomIndex]] is defined for every seed of a run, the
    index being one of 0..6 ([fmul_7_below] below), so the default of [nth]
    is not used. *)
Definition getRandomTetromino (seed : double) : Tetromino * double :=
  let validIndexRange := ofInt 7 in
  let '(value, seed') := rngStream seed in
  let randomIndex := bitor0 (fmul value validIndexRange) in
  let t := nth (Z.to_nat randomIndex) tetrominoes
             {| shape := []; color := 0; x := 0; y := 0 |} in
  ({| shape := shape t; color := color t; x := 4; y := 0 |}, seed').

End Double.
(** ** Basic facts *)

Lemma bind_Ok {A B} (r : result A) (f : A → result B) (b : B) :
  r ≫= f = Ok b ↔ ∃ a, r = Ok a ∧ f a = Ok b.
Proof.
  destruct r as [a|e]; simpl; split.
  - intros H. by exists a.
  - by intros (a' & [= ->] & H).
  - done.
  - by intros (a' & ? & _).
Qed.

Ltac step_cbn :=
  cbn -[clearAndMoveRows lockBlockChecker lockBlock GRID_WIDTH GRID_HEIGHT
        tetrominoRotation collisionChecker mergeBlockWithBlock
        getRandomTetromino].

Lemma stateUpdater_steps state movement seed :
  stateUpdater state movement seed =
  (block ← movedBlock state movement; settle state block seed).
Proof.
  destruct state as [ge g [sh col bx by_] nb sc lv].
  unfold stateUpdater, movedBlock, applyMovement, settle, clampX.
  destruct movement as [dx dy|]; step_cbn.
  - destruct sh as [|row0 sh']; repeat (case_bool_decide; step_cbn); done.
  - destruct (tetrominoRotation sh) as [rot|e]; step_cbn; [|done].
    destruct (negb _); step_cbn.
    + destruct rot as [|row0 rot']; repeat (case_bool_decide; step_cbn); done.
    + destruct sh as [|row0 sh']; repeat (case_bool_decide; step_cbn); done.
Qed.

Lemma toInt32_small z : - 2 ^ 31 ≤ z < 2 ^ 31 → toInt32 z = z.
Proof. intros H. unfold toInt32. rewrite Z.mod_small; lia. Qed.

(** The index drawn by [getRandomTetromino] is one of [0..6]. *)
Lemma randomIndex_range seed :
  0 ≤ bitor0 ((rngStream seed).1 * 7) < 7.
Proof.
  unfold rngStream, bitor0. cbn [fst Qmult Qnum Qden].
  set (s := ((1664525 * seed + 1013904223) mod 4294967296)%N).
  assert (Hs : 0 ≤ Z.of_N s < 4294967296).
  { assert (s < 4294967296)%N by (subst s; by apply N.mod_upper_bound). lia. }
  change (Z.pos (4294967296 * 1)) with 4294967296.
  rewrite Z.quot_div_nonneg by lia.
  assert (0 ≤ (Z.of_N s * 7) `div` 4294967296 < 7).
  { split; [apply Z.div_pos; lia | apply Z.div_lt_upper_bound; lia]. }
  rewrite toInt32_small; lia.
Qed.

Lemma getRandomTetromino_catalog seed :
  ∃ t, t ∈ tetrominoes ∧
    (getRandomTetromino seed).1 =
      {| shape := shape t; color := color t; x := 4; y := 0 |}.
Proof.
  pose proof (randomIndex_range seed) as Hi.
  unfold getRandomTetromino. destruct (rngStream seed) as [value seed'].
  cbn [fst] in *.
  eexists. split; [|reflexivity].
  apply list_elem_of_In, nth_In. cbn [length tetrominoes]. lia.
Qed.

Lemma getRandomTetromino_seed seed :
  (getRandomTetromino seed).2 = (rngStream seed).2.
Proof. unfold getRandomTetromino. by destruct (rngStream seed). Qed.

(** What a successful [lockBlock] has done. *)
Lemma lockBlock_Ok state block seed s' seed' :
  lockBlock state block seed = Ok (s', seed') →
  ∃ newGrid row0,
    mergeBlockWithBlock (grid state) block = Ok newGrid ∧
    get newGrid 0 = Some row0 ∧
    seed' = (getRandomTetromino seed).2 ∧
    ((some (λ cell _, bool_decide (cell ≠ 0)) row0 = true ∧ s' = endGame state) ∨
     (some (λ cell _, bool_decide (cell ≠ 0)) row0 = false ∧
      ∃ lockedGrid,
        lockWrite newGrid block = Ok lockedGrid ∧
        s' = {| gameEnd := gameEnd state; grid := lockedGrid;
                fallingBlock := (getRandomTetromino seed).1;
                nextBlock := (getRandomTetromino seed).1;
                score := score state; level := level state |})).
Proof.
  unfold lockBlock. intros H.
  apply bind_Ok in H as (newGrid & Hm & H).
  destruct (getRandomTetromino seed) as [nb sd] eqn:Hr.
  destruct (get newGrid 0) as [row0|] eqn:H0; [|done].
  exists newGrid, row0. cbn [fst snd].
  destruct (some _ row0) eqn:Htop.
  - simplify_eq. split_and!; [done..|]. by left.
  - apply bind_Ok in H as (lockedGrid & Hl & H). simplify_eq.
    split_and!; [done..|]. right. split; [done|]. by exists lockedGrid.
Qed.

(** What a successful [settle] has done when the piece does not lock. *)
Lemma settle_fall state block seed :
  lockBlockChecker block (grid state) = false →
  settle state block seed =
    Ok ({| gameEnd := gameEnd state;
           grid := (clearAndMoveRows (grid state) (score state) (level state)).1.1;
           fallingBlock := block; nextBlock := nextBlock state;
           score := (clearAndMoveRows (grid state) (score state) (level state)).1.2;
           level := (clearAndMoveRows (grid state) (score state) (level state)).2 |},
        seed).
Proof.
  intros Hl. unfold settle. rewrite Hl.
  assert (¬ y block < -1) as Hy.
  { intros Hy. unfold lockBlockChecker in Hl.
    repeat case_bool_decide; try done; destruct (collisionChecker _ _ _ _); done. }
  rewrite bool_decide_eq_false_2 by done.
  by destruct (clearAndMoveRows _ _ _) as [[? ?] ?].
Qed.

Lemma settle_lock state block seed :
  lockBlockChecker block (grid state) = true →
  settle state block seed = lockBlock state block seed.
Proof. intros Hl. unfold settle. by rewrite Hl. Qed.

(** ** The freshly drawn piece (C9, C1) *)

(** C9. After a lock that does not end the game (the state returned is not
    the game-over return [endGame state]; so whenever [gameEnd] is false
    in it) the falling piece and the queued piece of the returned state are
    one and the same piece, drawn once from the generator: a catalogue
    shape with its colour, anchored at column 4, row 0.  The piece that was
    queued before is discarded: the outcome is the same whatever it was. *)
Theorem lockBlock_fresh_piece state block seed s' seed' :
  lockBlock state block seed = Ok (s', seed') →
  s' ≠ endGame state →
  fallingBlock s' = nextBlock s' ∧
  (fallingBlock s', seed') = getRandomTetromino seed ∧
  x (fallingBlock s') = 4 ∧ y (fallingBlock s') = 0 ∧
  (∃ t, t ∈ tetrominoes ∧
        shape (fallingBlock s') = shape t ∧ color (fallingBlock s') = color t) ∧
  (∀ q, lockBlock (setNextBlock q state) block seed = Ok (s', seed')).
Proof.
  intros H Hrun.
  apply lockBlock_Ok in H as (newGrid & row0 & Hm & H0 & -> & [[_ ->]|[Htop (lg & Hl & ->)]]);
    [done|].
  cbn [fallingBlock nextBlock].
  destruct (getRandomTetromino_catalog seed) as (t & Ht & Heq).
  split_and!.
  - done.
  - by destruct (getRandomTetromino seed).
  - by rewrite Heq.
  - by rewrite Heq.
  - exists t. by rewrite Heq.
  - intros q. unfold lockBlock. cbn [setNextBlock grid].
    rewrite Hm. cbn [mbind result_bind].
    destruct (getRandomTetromino seed) as [nb sd]. rewrite H0, Htop.
    fold (lockWrite newGrid block). rewrite Hl. done.
Qed.

Lemma lockBlock_fresh_piece_witness :
  let s' := {| gameEnd := false;
               grid := replicate 18 emptyRow ++ replicate 2 [0; 0; 0; 0; 1; 1; 0; 0; 0; 0];
               fallingBlock := pieceI 4 0; nextBlock := pieceI 4 0;
               score := 0; level := 1 |} in
  lockBlock exAboveFloor (pieceO 4 18) 0 = Ok (s', 1013904223%N) ∧
  s' ≠ endGame exAboveFloor ∧
  fallingBlock s' = nextBlock s' ∧
  (fallingBlock s', 1013904223%N) = getRandomTetromino 0 ∧
  x (fallingBlock s') = 4 ∧ y (fallingBlock s') = 0 ∧
  (∃ t, t ∈ tetrominoes ∧
        shape (fallingBlock s') = shape t ∧ color (fallingBlock s') = color t) ∧
  (∀ q, lockBlock (setNextBlock q exAboveFloor) (pieceO 4 18) 0 = Ok (s', 1013904223%N)).
Proof.
  intros s'.
  split; [vm_compute; reflexivity|]. split; [discriminate|].
  apply (lockBlock_fresh_piece exAboveFloor (pieceO 4 18) 0 s' 1013904223%N);
    [vm_compute; reflexivity | discriminate].
Defined.

(** C1, as the code has it.  When a Move or Rotate event makes the falling
    piece lock without ending the game (the state returned is not the
    game-over return [endGame state]), the returned state's falling piece
    and queued piece are both the piece drawn from the generator at that
    lock; the piece queued in the previous state is not the one that
    falls. *)
Theorem lock_event_falling_is_fresh state movement seed block s' seed' :
  movedBlock state movement = Ok block →
  lockBlockChecker block (grid state) = true →
  stateUpdater state movement seed = Ok (s', seed') →
  s' ≠ endGame state →
  fallingBlock s' = (getRandomTetromino seed).1 ∧
  nextBlock s' = (getRandomTetromino seed).1 ∧
  seed' = (getRandomTetromino seed).2.
Proof.
  intros Hb Hl H Hrun.
  rewrite stateUpdater_steps, Hb in H. cbn [mbind result_bind] in H.
  rewrite settle_lock in H by done.
  apply lockBlock_Ok in H as (newGrid & row0 & Hm & H0 & -> & [[_ ->]|[Htop (lg & Hw & ->)]]);
    done.
Qed.

Lemma lock_event_falling_is_fresh_witness :
  let s' := {| gameEnd := false;
               grid := replicate 18 emptyRow ++ replicate 2 [0; 0; 0; 0; 1; 1; 0; 0; 0; 0];
               fallingBlock := pieceI 4 0; nextBlock := pieceI 4 0;
               score := 0; level := 1 |} in
  movedBlock exAboveFloor (Move 0 1) = Ok (pieceO 4 18) ∧
  lockBlockChecker (pieceO 4 18) (grid exAboveFloor) = true ∧
  stateUpdater exAboveFloor (Move 0 1) 0 = Ok (s', 1013904223%N) ∧
  s' ≠ endGame exAboveFloor ∧
  fallingBlock s' = (getRandomTetromino 0).1 ∧
  nextBlock s' = (getRandomTetromino 0).1 ∧
  1013904223%N = (getRandomTetromino 0).2.
Proof.
  intros s'.
  split; [vm_compute; reflexivity|]. split; [vm_compute; reflexivity|].
  split; [vm_compute; reflexivity|]. split; [discriminate|].
  apply (lock_event_falling_is_fresh exAboveFloor (Move 0 1) 0 (pieceO 4 18) s');
    [vm_compute; reflexivity .. | discriminate].
Defined.

(** C1, as the specification words it, fails: on the empty board an O piece
    locks on the floor while a T piece is queued, and the piece that falls
    next is the I piece drawn at the lock, not the queued T. *)
Lemma lock_does_not_promote_queued :
  scan (initialState (pieceO 4 (-1)) (pieceT 4 (-1))) 0 (replicate 18 (Move 0 1))
    = Ok (exAboveFloor, 0%N) ∧
  movedBlock exAboveFloor (Move 0 1) = Ok (pieceO 4 18) ∧
  lockBlockChecker (pieceO 4 18) (grid exAboveFloor) = true ∧
  ∃ s' seed',
    stateUpdater exAboveFloor (Move 0 1) 0 = Ok (s', seed') ∧
    gameEnd s' = false ∧
    nextBlock exAboveFloor = pieceT 4 (-1) ∧
    fallingBlock s' = pieceI 4 0 ∧
    fallingBlock s' ≠ nextBlock exAboveFloor.
Proof.
  split; [vm_compute; reflexivity|]. split; [vm_compute; reflexivity|].
  split; [vm_compute; reflexivity|].
  eexists _, _. split; [vm_compute; reflexivity|].
  cbn [gameEnd fallingBlock nextBlock exAboveFloor]. split_and!; done.
Qed.

(** ** The ended game (C10, C2) *)

(** C10. No transition resets [gameEnd]: if it is true in the input state,
    it is true in the state the reducer returns. *)
Theorem gameEnd_monotone state movement seed s' seed' :
  stateUpdater state movement seed = Ok (s', seed') →
  gameEnd state = true →
  gameEnd s' = true.
Proof.
  intros H Hend.
  rewrite stateUpdater_steps in H. apply bind_Ok in H as (block & _ & H).
  destruct (lockBlockChecker block (grid state)) eqn:Hl.
  - rewrite settle_lock in H by done.
    apply lockBlock_Ok in H as (? & ? & _ & _ & _ & [[_ ->]|[_ (? & _ & ->)]]); done.
  - rewrite settle_fall in H by done. by simplify_eq.
Qed.

Lemma gameEnd_monotone_witness :
  let s' := {| gameEnd := true;
               grid := replicate 1 emptyRow ++ replicate 19 [0; 0; 0; 0; 1; 1; 0; 0; 0; 0];
               fallingBlock := pieceI 4 0; nextBlock := pieceI 4 0;
               score := 0; level := 1 |} in
  stateUpdater exEnded (Move 0 1) 0 = Ok (s', 1013904223%N) ∧
  gameEnd exEnded = true ∧
  gameEnd s' = true.
Proof.
  intros s'.
  split; [vm_compute; reflexivity|]. split; [reflexivity|].
  apply (gameEnd_monotone exEnded (Move 0 1) 0 s' 1013904223%N);
    vm_compute; reflexivity.
Defined.

(** C2, as the code has it.  The reducer never reads [gameEnd]: on a state
    whose flag is true it makes the very transition it makes on the same
    state with the flag false, and the flag of the result is true.  So the
    flag stays, and board, pieces, score and level go on changing as in a
    running game. *)
Theorem stateUpdater_ignores_gameEnd state movement seed :
  stateUpdater (setGameEnd true state) movement seed =
  (λ '(s', seed'), (setGameEnd true s', seed')) <$>
    stateUpdater (setGameEnd false state) movement seed.
Proof.
  rewrite !stateUpdater_steps.
  change (movedBlock (setGameEnd true state) movement)
    with (movedBlock (setGameEnd false state) movement).
  destruct (movedBlock _ movement) as [block|e]; [|done].
  cbn [mbind result_bind]. unfold settle. cbn [setGameEnd grid score level].
  destruct (lockBlockChecker block (grid state)).
  - unfold lockBlock. cbn [setGameEnd grid].
    destruct (mergeBlockWithBlock (grid state) block) as [newGrid|e]; [|done].
    cbn [mbind result_bind].
    destruct (getRandomTetromino seed) as [nb sd].
    destruct (get newGrid 0) as [row0|]; [|done].
    destruct (some _ row0); [done|].
    destruct (reduce _ (shape block) newGrid); done.
  - case_bool_decide; [done|].
    destruct (clearAndMoveRows _ _ _) as [[? ?] ?]. done.
Qed.

(** C2, as the specification words it, fails.  The game ends on the tower
    when the O piece at its top is pushed right: the reducer returns
    [exEnded].  On the next gravity tick the reducer locks that piece into
    row 1 of the board and draws a new piece, the flag still true. *)
Lemma ended_state_still_changes :
  stateUpdater (setGameEnd false exEnded) (Move 1 0) 0 = Ok (exEnded, 1013904223%N) ∧
  gameEnd exEnded = true ∧
  ∃ s' seed',
    stateUpdater exEnded (Move 0 1) 1013904223 = Ok (s', seed') ∧
    gameEnd s' = true ∧
    cellAt (grid exEnded) 1 4 = Some 0 ∧ cellAt (grid s') 1 4 = Some 1 ∧
    fallingBlock exEnded = pieceO 4 0 ∧ fallingBlock s' = pieceI 4 0 ∧
    nextBlock exEnded = pieceO 4 0 ∧ nextBlock s' = pieceI 4 0 ∧
    grid s' ≠ grid exEnded ∧ fallingBlock s' ≠ fallingBlock exEnded ∧
    nextBlock s' ≠ nextBlock exEnded.
Proof.
  split; [vm_compute; reflexivity|]. split; [reflexivity|].
  eexists _, _. split; [vm_compute; reflexivity|].
  split_and!; try reflexivity; discriminate.
Qed.

(** ** Reading and writing cells *)

Lemma get_Some {A} (a : list A) (i : Z) (v : A) :
  get a i = Some v ↔ 0 ≤ i ∧ a !! Z.to_nat i = Some v.
Proof.
  unfold get. destruct (bool_decide (0 ≤ i)) eqn:Hi.
  - apply bool_decide_eq_true_1 in Hi. by split; [|intros [_ ?]].
  - apply bool_decide_eq_false_1 in Hi. by split; [|intros [? _]].
Qed.

Lemma get_lt {A} (a : list A) (i : Z) (v : A) :
  get a i = Some v → 0 ≤ i < Z.of_nat (length a).
Proof.
  intros [Hi Hl]%get_Some. apply lookup_lt_Some in Hl. lia.
Qed.

Lemma get_in_range {A} (a : list A) (i : Z) :
  0 ≤ i < Z.of_nat (length a) → ∃ v, get a i = Some v.
Proof.
  intros Hi. destruct (lookup_lt_is_Some_2 a (Z.to_nat i)) as [v Hv]; [lia|].
  exists v. apply get_Some. split; [lia|done].
Qed.

Lemma get_insert_ne {A} (a : list A) (i j : Z) (v : A) :
  0 ≤ i → i ≠ j → get (<[Z.to_nat i := v]> a) j = get a j.
Proof.
  intros Hi Hne. unfold get. destruct (bool_decide (0 ≤ j)) eqn:Hj; [|done].
  apply bool_decide_eq_true_1 in Hj. apply list_lookup_insert_ne. lia.
Qed.

Lemma get_insert_eq {A} (a : list A) (i : Z) (v : A) :
  0 ≤ i < Z.of_nat (length a) → get (<[Z.to_nat i := v]> a) i = Some v.
Proof.
  intros Hi. unfold get. rewrite bool_decide_eq_true_2 by lia.
  apply list_lookup_insert_eq. lia.
Qed.

(** A write [g[gy][gx] = v] leaves every other cell as it was. *)
Lemma cellAt_write_ne (g : list (list Z)) (row : list Z) gy gx v r c :
  get g gy = Some row → 0 ≤ gx →
  (r, c) ≠ (gy, gx) →
  cellAt (<[Z.to_nat gy := <[Z.to_nat gx := v]> row]> g) r c = cellAt g r c.
Proof.
  intros Hrow Hgx Hne. pose proof (get_lt _ _ _ Hrow) as Hgy. unfold cellAt.
  destruct (decide (gy = r)) as [<-|Hrne].
  - rewrite get_insert_eq, Hrow by done. cbn [mbind option_bind].
    apply get_insert_ne; [done|]. intros ->. by apply Hne.
  - rewrite get_insert_ne by (done || lia). done.
Qed.

Lemma cellAt_write_eq (g : list (list Z)) (row : list Z) gy gx v :
  get g gy = Some row → 0 ≤ gx < Z.of_nat (length row) →
  cellAt (<[Z.to_nat gy := <[Z.to_nat gx := v]> row]> g) gy gx = Some v.
Proof.
  intros Hrow Hgx. pose proof (get_lt _ _ _ Hrow) as Hgy. unfold cellAt.
  rewrite get_insert_eq by done. cbn [mbind option_bind].
  by apply get_insert_eq.
Qed.

(** An invariant of the accumulator holds after a [reduce] that returns. *)
Lemma reduce_from_inv {A B} (P : B → Prop) (f : B → A → Z → result B) a :
  (∀ acc v i acc', P acc → f acc v i = Ok acc' → P acc') →
  ∀ i acc r, P acc → reduce_from f i a acc = Ok r → P r.
Proof.
  intros Hf. induction a as [|v a IH]; intros i acc r Hacc H; cbn in H.
  - by simplify_eq.
  - apply bind_Ok in H as (acc' & Hv & H). eauto.
Qed.

(** ** The merge keeps occupied cells (C4) *)

Lemma mergeCell_keeps block sy innerAcc cell sx acc' r c v :
  mergeCell block sy innerAcc cell sx = Ok acc' →
  cellAt innerAcc r c = Some v → 0 < v →
  cellAt acc' r c = Some v.
Proof.
  unfold mergeCell. intros H Hc Hv.
  case_bool_decide; [|by simplify_eq].
  destruct (_ && _) eqn:Hin; [|by simplify_eq].
  repeat (apply andb_prop in Hin as [Hin ?]). repeat case_bool_decide; try done.
  destruct (get innerAcc _) as [row|] eqn:Hrow; [|done].
  destruct (get row _) as [w|] eqn:Hw; [|by simplify_eq].
  case_bool_decide as Hle; [|by simplify_eq].
  simplify_eq.
  rewrite cellAt_write_ne; [done..|lia|].
  intros [= -> ->]. unfold cellAt in Hc. rewrite Hrow in Hc. cbn in Hc.
  rewrite Hw in Hc. simplify_eq. lia.
Qed.

(** C4, as the code has it.  [mergeBlockWithBlock] never overwrites an
    occupied cell: a cell that holds a positive value (a colour 1..7)
    before the merge holds the same value in the merged board.  The lock-in
    write that [lockBlock] performs next has no such guard. *)
Theorem mergeBlockWithBlock_keeps_occupied grid block newGrid r c v :
  mergeBlockWithBlock grid block = Ok newGrid →
  cellAt grid r c = Some v → 0 < v →
  cellAt newGrid r c = Some v.
Proof.
  unfold mergeBlockWithBlock, reduce. intros H Hc Hv.
  revert H. apply (reduce_from_inv (λ g, cellAt g r c = Some v)); [|done].
  intros acc row sy acc' Hacc.
  apply (reduce_from_inv (λ g, cellAt g r c = Some v)); [|done].
  intros acc0 cell sx acc1 Hacc0 Hcell. by eapply mergeCell_keeps.
Qed.

Lemma mergeBlockWithBlock_keeps_occupied_witness :
  let newGrid := replicate 15 emptyRow ++
                 [[0; 0; 0; 0; 1; 1; 0; 0; 0; 0]; [0; 0; 0; 0; 2; 1; 0; 0; 0; 0]] ++
                 replicate 3 [0; 0; 0; 0; 2; 0; 0; 0; 0; 0] in
  mergeBlockWithBlock besideGrid (pieceO 4 15) = Ok newGrid ∧
  cellAt besideGrid 16 4 = Some 2 ∧ 0 < 2 ∧
  cellAt newGrid 16 4 = Some 2.
Proof.
  intros newGrid.
  split; [vm_compute; reflexivity|]. split; [reflexivity|]. split; [lia|].
  apply (mergeBlockWithBlock_keeps_occupied besideGrid (pieceO 4 15) newGrid 16 4 2);
    [vm_compute; reflexivity | reflexivity | lia].
Defined.

(** C4, as the specification words it for the lock as a whole, fails: an O
    piece pushed left into the top cell of a standing I piece locks there;
    the merge leaves that cell with the colour 2, and the lock-in write of
    [lockBlock] then sets it to the colour 1 of the O piece. *)
Lemma lock_overwrites_occupied_cell :
  movedBlock exBeside (Move (-1) 0) = Ok (pieceO 4 15) ∧
  lockBlockChecker (pieceO 4 15) (grid exBeside) = true ∧
  cellAt (grid exBeside) 16 4 = Some 2 ∧
  (∃ newGrid, mergeBlockWithBlock (grid exBeside) (pieceO 4 15) = Ok newGrid ∧
              cellAt newGrid 16 4 = Some 2) ∧
  ∃ s' seed',
    stateUpdater exBeside (Move (-1) 0) 0 = Ok (s', seed') ∧
    gameEnd s' = false ∧
    cellAt (grid s') 16 4 = Some 1.
Proof.
  split; [vm_compute; reflexivity|]. split; [vm_compute; reflexivity|].
  split; [reflexivity|]. split.
  - eexists. split; [vm_compute; reflexivity|reflexivity].
  - eexists _, _. split; [vm_compute; reflexivity|]. split; reflexivity.
Qed.

(** ** Row clearing (C6) *)

Lemma filter_split_length {A} (p : A → bool) (l : list A) :
  length l = (length (List.filter p l) + length (List.filter (λ a, negb (p a)) l))%nat.
Proof.
  induction l as [|a l IH]; [done|]. cbn. destruct (p a); cbn; lia.
Qed.

Lemma filter_all {A} (p : A → bool) (l : list A) :
  length (List.filter (λ a, negb (p a)) l) = 0%nat → List.filter p l = l.
Proof.
  induction l as [|a l IH]; [done|]. cbn. destruct (p a); cbn; [|done].
  intros H. by rewrite IH.
Qed.

Lemma bitor0_div score : 0 ≤ score < 500 * 2 ^ 31 → bitor0 (score # 500) = score `div` 500.
Proof.
  intros H. unfold bitor0. cbn [Qnum Qden]. rewrite Z.quot_div_nonneg by lia.
  apply toInt32_small. split.
  - pose proof (Z.div_pos score 500). lia.
  - apply Z.div_lt_upper_bound; lia.
Qed.

(** C6, as the code has it.  On a 20-row board with [k] complete rows one
    pass removes exactly those rows, keeps the other rows in their order,
    puts [k] empty rows on top (the height stays 20), and returns
    [score + 100 k] with the level [score' / 500 + 1] (for a score that is
    not negative and whose quotient fits 32 bits).  With [k = 0] board and
    score are unchanged; the level is computed afresh from the score, so it
    is unchanged when it already was [score / 500 + 1]. *)
Theorem clearAndMoveRows_spec grid score level (k : nat) :
  length grid = 20%nat →
  length (completeRows grid) = k →
  0 ≤ score → score + 100 * Z.of_nat k < 500 * 2 ^ 31 →
  let '(grid', score', level') := clearAndMoveRows grid score level in
  grid' = replicate k emptyRow ++ List.filter (λ row, negb (complete row)) grid ∧
  length grid' = 20%nat ∧
  score' = score + 100 * Z.of_nat k ∧
  level' = score' `div` 500 + 1 ∧
  (k = 0%nat →
   grid' = grid ∧ score' = score ∧ (level = score `div` 500 + 1 → level' = level)).
Proof.
  intros Hlen Hk Hs Hbound. unfold clearAndMoveRows.
  set (p := some (λ (cell : Z) (_ : Z), bool_decide (cell = 0))).
  assert (Hsplit := filter_split_length p grid).
  assert (Hk' : length (List.filter (λ row, negb (p row)) grid) = k) by done.
  assert (Hcount : Z.to_nat (Z.of_nat (length grid) - Z.of_nat (length (List.filter p grid))) = k)
    by lia.
  rewrite Hcount.
  replace (Z.of_nat (length grid) - Z.of_nat (length (List.filter p grid)))
    with (Z.of_nat k) by lia.
  assert (Hfilter : List.filter (λ row, negb (complete row)) grid = List.filter p grid).
  { apply List.filter_ext. intros row. unfold complete. apply negb_involutive. }
  split_and!.
  - by rewrite Hfilter.
  - rewrite length_app, length_replicate. lia.
  - lia.
  - rewrite bitor0_div by lia. done.
  - intros ->. cbn [replicate app]. split_and!.
    + by apply filter_all.
    + lia.
    + intros ->. rewrite bitor0_div by lia. do 2 f_equal. lia.
Qed.

Lemma clearAndMoveRows_spec_witness :
  length twoFullRows = 20%nat ∧
  length (completeRows twoFullRows) = 2%nat ∧
  0 ≤ 400 ∧ 400 + 100 * Z.of_nat 2 < 500 * 2 ^ 31 ∧
  let '(grid', score', level') := clearAndMoveRows twoFullRows 400 1 in
  grid' = replicate 2 emptyRow ++ List.filter (λ row, negb (complete row)) twoFullRows ∧
  length grid' = 20%nat ∧
  score' = 400 + 100 * Z.of_nat 2 ∧
  level' = score' `div` 500 + 1 ∧
  (2%nat = 0%nat →
   grid' = twoFullRows ∧ score' = 400 ∧ (1 = 400 `div` 500 + 1 → level' = 1)).
Proof.
  split; [reflexivity|]. split; [reflexivity|]. split; [lia|]. split; [lia|].
  apply (clearAndMoveRows_spec twoFullRows 400 1 2); [reflexivity | reflexivity | lia | lia].
Defined.

(** C6, as the specification words it, fails in its last part: with no
    complete row the level is not left as it was but computed from the
    score; for the score 0 a level 5 comes back as 1. *)
Lemma clearAndMoveRows_recomputes_level :
  completeRows emptyGrid = [] ∧
  clearAndMoveRows emptyGrid 0 5 = (emptyGrid, 0, 1).
Proof. split; vm_compute; reflexivity. Qed.

(** ** The wall clamp (C8) *)

Lemma catalog_width t :
  t ∈ tetrominoes → 1 ≤ shapeWidth (shape t) ≤ 4.
Proof.
  intros Ht. unfold tetrominoes in Ht.
  repeat (apply elem_of_cons in Ht as [->|Ht]); cbn; try lia.
  by apply elem_of_nil in Ht.
Qed.

Lemma clampX_Ok block block' :
  clampX block = Ok block' →
  shape block' = shape block ∧ color block' = color block ∧ y block' = y block ∧
  shape block ≠ [] ∧
  (shapeWidth (shape block) ≤ GRID_WIDTH →
   0 ≤ x block' ≤ GRID_WIDTH - shapeWidth (shape block)) ∧
  (0 ≤ x block ≤ GRID_WIDTH - shapeWidth (shape block) → x block' = x block).
Proof.
  unfold clampX. destruct (shape block) as [|row0 rest] eqn:Hsh; [done|].
  intros [= <-]. cbn [shape color x y shapeWidth]. unfold GRID_WIDTH.
  split_and!; try done; intros; repeat case_bool_decide; lia.
Qed.

(** C8, as the code has it.  For a falling piece at most [GRID_WIDTH] wide,
    whatever its anchor column was (so also outside the board), one Move
    event either ends the game, and then the state comes back with the
    falling piece as it was, its anchor not clamped; or the falling piece
    of the returned state has its anchor column within
    [0, GRID_WIDTH - shapeWidth]. *)
Theorem move_clamps_x state dx dy seed s' seed' :
  shapeWidth (shape (fallingBlock state)) ≤ GRID_WIDTH →
  stateUpdater state (Move dx dy) seed = Ok (s', seed') →
  s' = endGame state ∨
  0 ≤ x (fallingBlock s') ≤ GRID_WIDTH - shapeWidth (shape (fallingBlock s')).
Proof.
  intros Hw H. rewrite stateUpdater_steps in H.
  apply bind_Ok in H as (block & Hb & H).
  unfold movedBlock, applyMovement in Hb. cbn [mbind result_bind] in Hb.
  apply clampX_Ok in Hb as (Hsh & _ & _ & _ & Hx & _). cbn [shape] in *.
  destruct (lockBlockChecker block (grid state)) eqn:Hl.
  - rewrite settle_lock in H by done.
    apply lockBlock_Ok in H as (? & ? & _ & _ & _ & [[_ ->]|[_ (? & _ & ->)]]);
      [by left|right].
    cbn [fallingBlock].
    destruct (getRandomTetromino_catalog seed) as (t & Ht & ->). cbn [x shape].
    pose proof (catalog_width t Ht). unfold GRID_WIDTH. lia.
  - rewrite settle_fall in H by done. simplify_eq. right.
    cbn [fallingBlock]. rewrite Hsh. by apply Hx.
Qed.

Lemma move_clamps_x_witness :
  let s' := {| gameEnd := false; grid := emptyGrid;
               fallingBlock := pieceO 0 17; nextBlock := pieceT 4 (-1);
               score := 0; level := 1 |} in
  let s := {| gameEnd := false; grid := emptyGrid;
              fallingBlock := pieceO (-5) 16; nextBlock := pieceT 4 (-1);
              score := 0; level := 1 |} in
  shapeWidth (shape (fallingBlock s)) ≤ GRID_WIDTH ∧
  stateUpdater s (Move 0 1) 0 = Ok (s', 0%N) ∧
  (s' = endGame s ∨
   0 ≤ x (fallingBlock s') ≤ GRID_WIDTH - shapeWidth (shape (fallingBlock s'))).
Proof.
  intros s' s.
  split; [vm_compute; discriminate|]. split; [vm_compute; reflexivity|].
  apply (move_clamps_x s 0 1 0 s' 0%N); [vm_compute; discriminate | vm_compute; reflexivity].
Defined.

(** C8, as the specification words it, fails: an O piece anchored at column
    -5 is moved right and clamped to column 0, locks on the tower below
    with a cell in the top row, and the game ends; the state comes back
    with the falling piece still anchored at column -5. *)
Lemma game_over_keeps_unclamped_x :
  ¬ (0 ≤ x (fallingBlock exOutside)
       ≤ GRID_WIDTH - shapeWidth (shape (fallingBlock exOutside))) ∧
  movedBlock exOutside (Move 1 0) = Ok (pieceO 0 0) ∧
  ∃ s' seed',
    stateUpdater exOutside (Move 1 0) 0 = Ok (s', seed') ∧
    gameEnd s' = true ∧
    x (fallingBlock s') = -5 ∧
    ¬ (0 ≤ x (fallingBlock s') ≤ GRID_WIDTH - shapeWidth (shape (fallingBlock s'))).
Proof.
  split; [cbn; lia|]. split; [vm_compute; reflexivity|].
  eexists _, _. split; [vm_compute; reflexivity|].
  split; [reflexivity|]. split; [reflexivity|]. cbn. lia.
Qed.

(** ** Rotation (C7) *)

Lemma map_result_seq {B} (f : nat → result B) (l : list B) (start : nat) :
  (∀ c v, l !! c = Some v → f (start + c)%nat = Ok v) →
  map_result f (seq start (length l)) = Ok l.
Proof.
  revert start. induction l as [|v l IH]; intros start Hf; [done|].
  cbn [length seq map_result].
  rewrite <- (Nat.add_0_r start) at 1. rewrite (Hf 0%nat v) by done.
  cbn [mbind result_bind]. rewrite IH; [done|].
  intros c w Hc. replace (S start + c)%nat with (start + S c)%nat by lia.
  by apply Hf.
Qed.

Lemma zip_with_cons_lengths (n : nat) (row : list Z) (T : list (list Z)) :
  Forall (λ col, length col = n) T →
  Forall (λ col, length col = S n) (zip_with cons row T).
Proof.
  intros HT. revert row. induction HT as [|col T Hcol HT IH]; intros [|v row]; cbn; try done.
  constructor; [cbn; lia | apply IH].
Qed.

Lemma transpose_rectangular (R C : nat) (m : list (list Z)) :
  rectangular R C m → rectangular C R (transpose C m).
Proof.
  intros [<- Hrows]. induction Hrows as [|row m Hrow Hrows IH]; cbn [transpose length].
  - split; [apply length_replicate | by apply Forall_replicate].
  - destruct IH as [Hlen Hcols]. split.
    + rewrite length_zip_with. lia.
    + by apply zip_with_cons_lengths.
Qed.

(** Reading column [c] row by row gives row [c] of the transposed matrix. *)
Lemma column_transpose (C c : nat) (m : list (list Z)) :
  Forall (λ row, length row = C) m → (c < C)%nat →
  ∃ col, transpose C m !! c = Some col ∧
    map_result (λ row : list Z,
      match row !! c with Some cell => Ok cell | None => Err OutOfModel end) m
    = Ok col.
Proof.
  intros Hrows Hc. induction Hrows as [|row m Hrow Hrows (col & Ht & Hm)];
    cbn [transpose map_result].
  - exists []. split; [by apply lookup_replicate_2 | done].
  - destruct (lookup_lt_is_Some_2 row c) as [v Hv]; [lia|].
    exists (v :: col). split.
    + rewrite lookup_zip_with, Hv. cbn. by rewrite Ht.
    + rewrite Hv. cbn [mbind result_bind]. by rewrite Hm.
Qed.

(** [tetrominoRotation] is the transposition followed by the reversal of
    every row, and turns [R] rows by [C] columns into [C] rows by [R]
    columns. *)
Lemma tetrominoRotation_spec (R C : nat) (sh : list (list Z)) :
  rectangular R C sh → (0 < R)%nat →
  tetrominoRotation sh = Ok (rotateClockwise_spec sh) ∧
  rectangular C R (rotateClockwise_spec sh).
Proof.
  intros Hrect HR. pose proof (transpose_rectangular R C sh Hrect) as [Hlen Hcols].
  destruct Hrect as [HlenR Hrows].
  destruct sh as [|row0 rest]; [cbn in HlenR; lia|].
  assert (Hw : length row0 = C) by (by inversion Hrows).
  unfold rotateClockwise_spec, tetrominoRotation. cbn [shapeWidth].
  rewrite Nat2Z.id, Hw. split.
  - rewrite <- Hlen at 1.
    rewrite <- (length_fmap reverse (transpose C (row0 :: rest))).
    apply map_result_seq. intros c v Hv. cbn [Nat.add].
    rewrite list_lookup_fmap in Hv.
    destruct (transpose C (row0 :: rest) !! c) as [col|] eqn:Hcol; [|done].
    cbn in Hv. injection Hv as <-.
    destruct (column_transpose C c (row0 :: rest)) as (col' & Hcol' & ->);
      [done | apply lookup_lt_Some in Hcol; lia |].
    rewrite Hcol in Hcol'. by injection Hcol' as <-.
  - split; [by rewrite length_fmap|].
    apply Forall_fmap. revert Hcols. apply Forall_impl.
    intros col Hl. cbn. by rewrite length_reverse.
Qed.

(** C7. On a Rotate event the piece the reducer goes on with has the
    clockwise rotation of the falling piece's shape, the transposition with
    every row reversed, [C] rows by [R] columns, exactly when the rotated
    piece does not collide with the board at offset (0,0); otherwise it has
    the shape unchanged.  That piece is the falling piece of the returned
    state when it does not lock, and the piece locked into the board when
    it does. *)
Theorem rotate_event_shape state (R C : nat) :
  rectangular R C (shape (fallingBlock state)) →
  (0 < R)%nat → (0 < C)%nat →
  let fb := fallingBlock state in
  let rot := rotateClockwise_spec (shape fb) in
  let rotated := {| shape := rot; color := color fb; x := x fb; y := y fb |} in
  tetrominoRotation (shape fb) = Ok rot ∧
  rectangular C R rot ∧
  ∃ block,
    movedBlock state Rotate = Ok block ∧
    shape block = (if collisionChecker (grid state) rotated 0 0 then shape fb else rot) ∧
    (lockBlockChecker block (grid state) = false →
     ∀ seed, ∃ s', stateUpdater state Rotate seed = Ok (s', seed) ∧
                   fallingBlock s' = block) ∧
    (lockBlockChecker block (grid state) = true →
     ∀ seed, stateUpdater state Rotate seed = lockBlock state block seed).
Proof.
  intros Hrect HR HC fb rot rotated. fold fb in Hrect.
  destruct (tetrominoRotation_spec R C (shape fb) Hrect HR) as [Hrot Hrect'].
  fold rot in Hrot, Hrect'.
  split; [done|]. split; [done|].
  assert (Hne : shape fb ≠ []).
  { destruct Hrect as [Hlen _]. intros Heq. rewrite Heq in Hlen. cbn in Hlen. lia. }
  assert (Hne' : rot ≠ []).
  { destruct Hrect' as [Hlen _]. intros Heq. rewrite Heq in Hlen. cbn in Hlen. lia. }
  assert (∃ block, movedBlock state Rotate = Ok block ∧
    shape block = (if collisionChecker (grid state) rotated 0 0 then shape fb else rot))
    as (block & Hb & Hsh).
  { unfold movedBlock, applyMovement. fold fb. rewrite Hrot.
    cbn [mbind result_bind]. fold rotated.
    destruct (collisionChecker (grid state) rotated 0 0); cbn [negb mbind result_bind];
      unfold clampX.
    - destruct (shape fb) eqn:Hs; [done|]. eexists. split; [done|]. done.
    - cbn [shape rotated]. destruct rot eqn:Hs; [done|]. eexists. split; [done|]. done. }
  exists block. split; [done|]. split; [done|]. split.
  - intros Hl seed. rewrite stateUpdater_steps, Hb. cbn [mbind result_bind].
    rewrite settle_fall by done. eexists. split; [done|]. done.
  - intros Hl seed. rewrite stateUpdater_steps, Hb. cbn [mbind result_bind].
    by apply settle_lock.
Qed.

Lemma rotate_event_shape_witness :
  let fb := fallingBlock exInAir in
  let rot := rotateClockwise_spec (shape fb) in
  let rotated := {| shape := rot; color := color fb; x := x fb; y := y fb |} in
  rectangular 2 3 (shape fb) ∧ (0 < 2)%nat ∧ (0 < 3)%nat ∧
  rot = [[1; 0]; [1; 1]; [1; 0]] ∧
  tetrominoRotation (shape fb) = Ok rot ∧
  rectangular 3 2 rot ∧
  ∃ block,
    movedBlock exInAir Rotate = Ok block ∧
    shape block = (if collisionChecker (grid exInAir) rotated 0 0 then shape fb else rot) ∧
    (lockBlockChecker block (grid exInAir) = false →
     ∀ seed, ∃ s', stateUpdater exInAir Rotate seed = Ok (s', seed) ∧
                   fallingBlock s' = block) ∧
    (lockBlockChecker block (grid exInAir) = true →
     ∀ seed, stateUpdater exInAir Rotate seed = lockBlock exInAir block seed).
Proof.
  intros fb rot rotated.
  assert (Hrect : rectangular 2 3 (shape fb)) by (split; [done | by repeat constructor]).
  split; [done|]. split; [lia|]. split; [lia|]. split; [reflexivity|].
  apply (rotate_event_shape exInAir 2 3); [done | lia | lia].
Defined.

(** ** Row clearing comes one event late (C5) *)

Lemma filter_none {A} (p : A → bool) (l : list A) :
  Forall (λ a, p a = false) l → List.filter p l = [].
Proof.
  induction 1 as [|a l Ha Hl IH]; [done|]. cbn. by rewrite Ha.
Qed.

(** What [clearAndMoveRows] returns, in terms of the complete rows. *)
Lemma clearAndMoveRows_eq grid score level :
  let k := length (completeRows grid) in
  clearAndMoveRows grid score level =
    (replicate k emptyRow ++ List.filter (λ row, negb (complete row)) grid,
     score + 100 * Z.of_nat k,
     bitor0 ((score + 100 * Z.of_nat k) # 500) + 1).
Proof.
  intros k. unfold clearAndMoveRows.
  set (p := some (λ (cell : Z) (_ : Z), bool_decide (cell = 0))).
  assert (Hsplit := filter_split_length p grid).
  assert (Hk : length (List.filter (λ row, negb (p row)) grid) = k) by done.
  assert (Hfilter : List.filter (λ row, negb (complete row)) grid = List.filter p grid).
  { apply List.filter_ext. intros row. unfold complete. apply negb_involutive. }
  replace (Z.of_nat (length grid) - Z.of_nat (length (List.filter p grid)))
    with (Z.of_nat k) by lia.
  rewrite Nat2Z.id, Hfilter. do 2 f_equal; [f_equal; lia | do 2 f_equal; lia].
Qed.

Lemma clearAndMoveRows_no_complete grid score level :
  completeRows (clearAndMoveRows grid score level).1.1 = [].
Proof.
  rewrite clearAndMoveRows_eq. cbn [fst]. unfold completeRows.
  rewrite List.filter_app, !filter_none; [done|..].
  - apply List.Forall_forall. intros row [_ Hrow]%List.filter_In.
    by apply negb_true_iff in Hrow.
  - by apply Forall_replicate.
Qed.

Lemma mergeCell_length block sy innerAcc cell sx acc' :
  mergeCell block sy innerAcc cell sx = Ok acc' → length acc' = length innerAcc.
Proof.
  unfold mergeCell. intros H.
  repeat (case_match; simplify_eq); try done. by rewrite length_insert.
Qed.

Lemma lockCell_length block sy rowAcc cell sx acc' :
  lockCell block sy rowAcc cell sx = Ok acc' → length acc' = length rowAcc.
Proof.
  unfold lockCell. intros H.
  repeat (case_match; simplify_eq); try done. by rewrite length_insert.
Qed.

Lemma mergeBlockWithBlock_length grid block newGrid :
  mergeBlockWithBlock grid block = Ok newGrid → length newGrid = length grid.
Proof.
  unfold mergeBlockWithBlock, reduce.
  apply (reduce_from_inv (λ g, length g = length grid)); [|done].
  intros acc row sy acc' Hacc.
  apply (reduce_from_inv (λ g, length g = length grid)); [|done].
  intros acc0 cell sx acc1 Hacc0 Hcell.
  apply mergeCell_length in Hcell. congruence.
Qed.

Lemma lockWrite_length newGrid block lockedGrid :
  lockWrite newGrid block = Ok lockedGrid → length lockedGrid = length newGrid.
Proof.
  unfold lockWrite, reduce.
  apply (reduce_from_inv (λ g, length g = length newGrid)); [|done].
  intros acc row sy acc' Hacc.
  apply (reduce_from_inv (λ g, length g = length newGrid)); [|done].
  intros acc0 cell sx acc1 Hacc0 Hcell.
  apply lockCell_length in Hcell. congruence.
Qed.

(** What a locking event returns: score and level as they were, and either
    the state itself with the flag set (the game ends, the merged board is
    dropped), or the board with the piece written in and no row removed. *)
Lemma lock_event_result state block seed s' seed' :
  lockBlock state block seed = Ok (s', seed') →
  score s' = score state ∧ level s' = level state ∧
  (s' = endGame state ∨
   ∃ newGrid, mergeBlockWithBlock (grid state) block = Ok newGrid ∧
              lockWrite newGrid block = Ok (grid s') ∧
              length (grid s') = length (grid state)).
Proof.
  intros (newGrid & row0 & Hm & H0 & -> & [[_ ->]|[Htop (lg & Hw & ->)]])%lockBlock_Ok.
  - split_and!; [done..|]. by left.
  - split_and!; [done..|]. right. exists newGrid. cbn [grid]. split_and!; [done..|].
    apply lockWrite_length in Hw. apply mergeBlockWithBlock_length in Hm. congruence.
Qed.

(** C5, as the code has it.  Take a locking event and the event after it.
    The state produced by the locking event has score and level unchanged;
    if the game ends there it is the previous state with the flag set, so
    its board is the board before the lock; if not, its board is the board
    with the piece written in, complete rows included.  The following
    event removes the complete rows and adds 100 for each of them when it
    does not lock itself; when it locks, score and complete rows stay for
    yet another event. *)
Theorem clear_latency s0 e1 seed0 b1 s1 seed1 e2 b2 s2 seed2 :
  movedBlock s0 e1 = Ok b1 →
  lockBlockChecker b1 (grid s0) = true →
  stateUpdater s0 e1 seed0 = Ok (s1, seed1) →
  movedBlock s1 e2 = Ok b2 →
  stateUpdater s1 e2 seed1 = Ok (s2, seed2) →
  (score s1 = score s0 ∧ level s1 = level s0 ∧
   (s1 = endGame s0 ∨
    ∃ newGrid, mergeBlockWithBlock (grid s0) b1 = Ok newGrid ∧
               lockWrite newGrid b1 = Ok (grid s1) ∧
               length (grid s1) = length (grid s0))) ∧
  (lockBlockChecker b2 (grid s1) = false →
   completeRows (grid s2) = [] ∧
   score s2 = score s1 + 100 * Z.of_nat (length (completeRows (grid s1)))) ∧
  (lockBlockChecker b2 (grid s1) = true →
   score s2 = score s1 ∧
   (s2 = endGame s1 ∨
    ∃ newGrid, mergeBlockWithBlock (grid s1) b2 = Ok newGrid ∧
               lockWrite newGrid b2 = Ok (grid s2) ∧
               length (grid s2) = length (grid s1))).
Proof.
  intros Hb1 Hl1 H1 Hb2 H2.
  rewrite stateUpdater_steps, Hb1 in H1. cbn [mbind result_bind] in H1.
  rewrite settle_lock in H1 by done.
  rewrite stateUpdater_steps, Hb2 in H2. cbn [mbind result_bind] in H2.
  split; [by eapply lock_event_result|]. split.
  - intros Hl2. rewrite settle_fall in H2 by done.
    pose proof (clearAndMoveRows_no_complete (grid s1) (score s1) (level s1)) as Hc.
    pose proof (clearAndMoveRows_eq (grid s1) (score s1) (level s1)) as He.
    destruct (clearAndMoveRows _ _ _) as [[g sc] lv].
    injection H2 as <- <-. injection He as -> -> ->. done.
  - intros Hl2. rewrite settle_lock in H2 by done.
    apply lock_event_result in H2 as (? & ? & ?). done.
Qed.

Lemma clear_latency_witness :
  movedBlock exGap (Move 0 1) = Ok (pieceO 0 18) ∧
  lockBlockChecker (pieceO 0 18) (grid exGap) = true ∧
  stateUpdater exGap (Move 0 1) 0 = Ok (exGapLocked, 1013904223%N) ∧
  movedBlock exGapLocked (Move 0 1) = Ok (pieceI 4 1) ∧
  stateUpdater exGapLocked (Move 0 1) 1013904223 = Ok (exGapCleared, 1013904223%N) ∧
  lockBlockChecker (pieceI 4 1) (grid exGapLocked) = false ∧
  length (completeRows (grid exGapLocked)) = 1%nat ∧
  score exGapLocked = score exGap ∧
  completeRows (grid exGapCleared) = [] ∧
  score exGapCleared = score exGapLocked + 100 * Z.of_nat (length (completeRows (grid exGapLocked))).
Proof.
  assert (H := clear_latency exGap (Move 0 1) 0 (pieceO 0 18) exGapLocked 1013904223
                 (Move 0 1) (pieceI 4 1) exGapCleared 1013904223).
  assert (Hb1 : movedBlock exGap (Move 0 1) = Ok (pieceO 0 18)) by (vm_compute; reflexivity).
  assert (Hl1 : lockBlockChecker (pieceO 0 18) (grid exGap) = true) by (vm_compute; reflexivity).
  assert (H1 : stateUpdater exGap (Move 0 1) 0 = Ok (exGapLocked, 1013904223%N))
    by (vm_compute; reflexivity).
  assert (Hb2 : movedBlock exGapLocked (Move 0 1) = Ok (pieceI 4 1)) by (vm_compute; reflexivity).
  assert (H2 : stateUpdater exGapLocked (Move 0 1) 1013904223 = Ok (exGapCleared, 1013904223%N))
    by (vm_compute; reflexivity).
  assert (Hl2 : lockBlockChecker (pieceI 4 1) (grid exGapLocked) = false)
    by (vm_compute; reflexivity).
  destruct (H Hb1 Hl1 H1 Hb2 H2) as ((Hs & _ & _) & Hfall & _).
  destruct (Hfall Hl2) as [Hc Hsc].
  split_and!; try done.
Defined.

(** C5, as the specification words it, fails: the event that follows the
    lock may lock as well.  The O piece completes the bottom row; the I
    piece drawn at that lock comes to rest on the tower at the next tick;
    after that tick the bottom row is still complete and the score still 0. *)
Lemma row_survives_following_lock :
  movedBlock exGapTower (Move 0 1) = Ok (pieceO 0 18) ∧
  lockBlockChecker (pieceO 0 18) (grid exGapTower) = true ∧
  completeRows (grid exGapTower) = [] ∧
  ∃ s1 seed1 s2 seed2,
    stateUpdater exGapTower (Move 0 1) 0 = Ok (s1, seed1) ∧
    gameEnd s1 = false ∧
    completeRows (grid s1) = [[1; 1; 1; 1; 1; 1; 1; 1; 1; 1]] ∧
    score s1 = 0 ∧
    stateUpdater s1 (Move 0 1) seed1 = Ok (s2, seed2) ∧
    gameEnd s2 = false ∧
    completeRows (grid s2) = [[1; 1; 1; 1; 1; 1; 1; 1; 1; 1]] ∧
    score s2 = 0.
Proof.
  split; [vm_compute; reflexivity|]. split; [vm_compute; reflexivity|].
  split; [vm_compute; reflexivity|].
  eexists _, _, _, _. split; [vm_compute; reflexivity|].
  split; [reflexivity|]. split; [vm_compute; reflexivity|]. split; [reflexivity|].
  split; [vm_compute; reflexivity|].
  split; [reflexivity|]. split; [vm_compute; reflexivity|]. reflexivity.
Qed.

(** ** The reducer on the states of the game (C3) *)

Lemma some_from_false {A} (p : A → Z → bool) (a : list A) (i : Z) :
  some_from p i a = false ↔
  ∀ (j : nat) v, a !! j = Some v → p v (i + Z.of_nat j) = false.
Proof.
  revert i. induction a as [|w a IH]; intros i; cbn [some_from].
  - split; [|done]. intros _ j v Hj. by rewrite lookup_nil in Hj.
  - rewrite orb_false_iff, IH. split.
    + intros [Hw Ha] [|j] v Hj; cbn in Hj.
      * injection Hj as <-. by rewrite Z.add_0_r.
      * replace (i + Z.of_nat (S j)) with (i + 1 + Z.of_nat j) by lia. by apply Ha.
    + intros H. split.
      * rewrite <- (Z.add_0_r i). by apply (H 0%nat).
      * intros j v Hj.
        replace (i + 1 + Z.of_nat j) with (i + Z.of_nat (S j)) by lia. by apply H.
Qed.

(** A [reduce] returns when its callback does on every element, given an
    invariant [P] of the accumulator and a fact [Q] about each element and
    its index. *)
Lemma reduce_from_total {A B} (P : B → Prop) (Q : A → Z → Prop)
    (f : B → A → Z → result B) :
  (∀ acc v k, P acc → Q v k → ∃ acc', f acc v k = Ok acc' ∧ P acc') →
  ∀ a i acc, P acc →
    (∀ (j : nat) v, a !! j = Some v → Q v (i + Z.of_nat j)) →
    ∃ r, reduce_from f i a acc = Ok r ∧ P r.
Proof.
  intros Hf. induction a as [|w a IH]; intros i acc Hacc HQ; cbn [reduce_from].
  - by exists acc.
  - destruct (Hf acc w i Hacc) as (acc' & -> & Hacc').
    { rewrite <- (Z.add_0_r i). by apply (HQ 0%nat). }
    cbn [mbind result_bind]. apply IH; [done|].
    intros j v Hj. replace (i + 1 + Z.of_nat j) with (i + Z.of_nat (S j)) by lia.
    by apply HQ.
Qed.

Lemma wfGrid_write g row gy gx v :
  wfGrid g → get g gy = Some row →
  wfGrid (<[Z.to_nat gy := <[Z.to_nat gx := v]> row]> g).
Proof.
  intros [Hlen Hrows] [_ Hrow]%get_Some. split.
  - by rewrite length_insert.
  - apply Forall_insert; [done|]. rewrite length_insert.
    by eapply (proj1 (Forall_lookup _ _) Hrows).
Qed.

Lemma wfGrid_get g gy :
  wfGrid g → 0 ≤ gy < GRID_HEIGHT →
  ∃ row, get g gy = Some row ∧ Z.of_nat (length row) = GRID_WIDTH.
Proof.
  intros [Hlen Hrows] Hgy.
  destruct (get_in_range g gy) as [row Hrow]; [unfold GRID_HEIGHT in *; lia|].
  exists row. split; [done|]. apply get_Some in Hrow as [_ Hrow].
  rewrite (proj1 (Forall_lookup _ _) Hrows _ _ Hrow). done.
Qed.

Lemma mergeCell_total block sy acc cell sx :
  wfGrid acc →
  (cell ≠ 0 → 0 ≤ y block + sy < GRID_HEIGHT ∧ 0 ≤ x block + sx < GRID_WIDTH) →
  ∃ acc', mergeCell block sy acc cell sx = Ok acc' ∧ wfGrid acc'.
Proof.
  intros Hwf Hin. unfold mergeCell.
  case_bool_decide as Hcell; [|by exists acc].
  destruct (Hin Hcell) as [Hy Hx].
  destruct (_ && _); [|by exists acc].
  destruct (wfGrid_get acc (y block + sy) Hwf Hy) as (row & Hrow & Hlen).
  rewrite Hrow.
  destruct (get row _) as [w|]; [|by exists acc].
  case_bool_decide; [|by exists acc].
  eexists. split; [done|]. by apply wfGrid_write.
Qed.

Lemma lockCell_total block sy acc cell sx :
  wfGrid acc →
  (cell ≠ 0 → 0 ≤ y block + sy < GRID_HEIGHT ∧ 0 ≤ x block + sx < GRID_WIDTH) →
  ∃ acc', lockCell block sy acc cell sx = Ok acc' ∧ wfGrid acc'.
Proof.
  intros Hwf Hin. unfold lockCell.
  case_bool_decide as Hcell; [|by exists acc].
  destruct (Hin Hcell) as [Hy Hx].
  destruct (wfGrid_get acc (y block + sy) Hwf Hy) as (row & Hrow & Hlen).
  rewrite Hrow. rewrite bool_decide_eq_true_2 by lia.
  eexists. split; [done|]. by apply wfGrid_write.
Qed.

(** A callback that returns on every occupied cell inside the board makes
    the double [reduce] over the shape return. *)
Lemma shape_reduce_total (cellf : Z → list (list Z) → Z → Z → result (list (list Z)))
    block g :
  (∀ sy acc cell sx, wfGrid acc →
     (cell ≠ 0 → 0 ≤ y block + sy < GRID_HEIGHT ∧ 0 ≤ x block + sx < GRID_WIDTH) →
     ∃ acc', cellf sy acc cell sx = Ok acc' ∧ wfGrid acc') →
  wfGrid g → inBoard block →
  ∃ g', reduce (λ outerAcc row sy, reduce (cellf sy) row outerAcc) (shape block) g = Ok g'
        ∧ wfGrid g'.
Proof.
  intros Hcell Hwf Hin. unfold reduce.
  apply (reduce_from_total wfGrid
           (λ row sy, ∃ j : nat, sy = Z.of_nat j ∧ shape block !! j = Some row));
    [|done|].
  - intros acc row sy Hacc (j & -> & Hrow).
    apply (reduce_from_total wfGrid
             (λ cell sx, ∃ i : nat, sx = Z.of_nat i ∧ row !! i = Some cell)); [|done|].
    + intros acc0 cell sx Hacc0 (i & -> & Hi). apply Hcell; [done|].
      intros Hne. by eapply Hin.
    + intros i cell Hi. exists i. split; [lia|done].
  - intros j row Hrow. exists j. split; [lia|done].
Qed.

Lemma mergeBlockWithBlock_total g block :
  wfGrid g → inBoard block →
  ∃ newGrid, mergeBlockWithBlock g block = Ok newGrid ∧ wfGrid newGrid.
Proof.
  intros Hwf Hin. unfold mergeBlockWithBlock.
  apply (shape_reduce_total (mergeCell block)); [|done..].
  intros sy acc cell sx. apply mergeCell_total.
Qed.

Lemma lockWrite_total g block :
  wfGrid g → inBoard block →
  ∃ lockedGrid, lockWrite g block = Ok lockedGrid ∧ wfGrid lockedGrid.
Proof.
  intros Hwf Hin. unfold lockWrite.
  apply (shape_reduce_total (lockCell block)); [|done..].
  intros sy acc cell sx. apply lockCell_total.
Qed.

Lemma clearAndMoveRows_wfGrid g sc lv :
  wfGrid g → wfGrid (clearAndMoveRows g sc lv).1.1.
Proof.
  intros [Hlen Hrows]. rewrite clearAndMoveRows_eq. cbn [fst]. split.
  - rewrite length_app, length_replicate.
    pose proof (filter_split_length complete g) as Hsplit.
    unfold completeRows. lia.
  - apply Forall_app. split; [by apply Forall_replicate|].
    apply List.Forall_forall. intros row [Hrow _]%List.filter_In.
    by apply (proj1 (List.Forall_forall _ _) Hrows).
Qed.

Lemma rectangular_width R C sh :
  rectangular R C sh → (1 ≤ R)%nat → shapeWidth sh = Z.of_nat C.
Proof.
  intros [Hlen Hrows] HR. destruct sh as [|row0 rest]; [cbn in Hlen; lia|].
  apply Forall_cons_1 in Hrows as [Hrow _]. cbn. by rewrite Hrow.
Qed.

Lemma wfShape_catalog t : t ∈ tetrominoes → wfShape (shape t).
Proof.
  intros Ht. unfold tetrominoes in Ht.
  repeat (apply elem_of_cons in Ht as [->|Ht]); [..|by apply elem_of_nil in Ht];
    cbn [shape];
    match goal with
    | |- wfShape (?row0 :: ?rest) =>
        exists (length (row0 :: rest)), (length row0)
    end;
    (split; [split; [done|]|cbn; lia]);
    repeat first [apply List.Forall_nil | apply List.Forall_cons]; reflexivity.
Qed.

Lemma wfShape_rotation sh :
  wfShape sh →
  tetrominoRotation sh = Ok (rotateClockwise_spec sh) ∧
  wfShape (rotateClockwise_spec sh).
Proof.
  intros (R & C & Hrect & HR & HC).
  destruct (tetrominoRotation_spec R C sh Hrect) as [Hrot Hrect']; [lia|].
  split; [done|]. exists C, R. done.
Qed.

(** What the absence of a collision says of each occupied cell. *)
Lemma collisionChecker_false g block ox oy :
  collisionChecker g block ox oy = false ↔
  ∀ (sy sx : nat) row cell,
    shape block !! sy = Some row → row !! sx = Some cell → cell ≠ 0 →
    0 ≤ x block + Z.of_nat sx + ox < GRID_WIDTH ∧
    y block + Z.of_nat sy + oy < GRID_HEIGHT ∧
    ∀ grow, get g (y block + Z.of_nat sy + oy) = Some grow →
            get grow (x block + Z.of_nat sx + ox) = Some 0.
Proof.
  unfold collisionChecker, some. split.
  - intros H sy sx row cell Hrow Hcell Hne.
    pose proof (proj1 (some_from_false _ _ _) H sy row Hrow) as H1. cbn beta in H1.
    pose proof (proj1 (some_from_false _ _ _) H1 sx cell Hcell) as H2. cbn beta in H2.
    rewrite !Z.add_0_l in H2. clear H H1.
    rewrite bool_decide_eq_true_2 in H2 by done.
    apply orb_false_iff in H2 as [H2 Hg].
    apply orb_false_iff in H2 as [H2 Hy].
    apply orb_false_iff in H2 as [Hx0 Hx1].
    apply bool_decide_eq_false_1 in Hy, Hx0, Hx1.
    split; [lia|]. split; [lia|]. intros grow Hgrow.
    rewrite Hgrow in Hg.
    destruct (get grow _) as [v|]; [|done].
    rewrite andb_true_r in Hg. apply bool_decide_eq_false_1 in Hg.
    f_equal. lia.
  - intros H. apply some_from_false. intros sy row Hrow.
    apply some_from_false. intros sx cell Hcell. rewrite !Z.add_0_l.
    case_bool_decide as Hne; [|done].
    destruct (H sy sx row cell Hrow Hcell Hne) as (Hx & Hy & Hg).
    rewrite !bool_decide_eq_false_2 by lia. cbn [orb].
    destruct (get g _) as [grow|]; [|done].
    rewrite (Hg grow) by done. done.
Qed.

Lemma get_emptyGrid ty grow tx :
  get emptyGrid ty = Some grow → 0 ≤ tx < GRID_WIDTH → get grow tx = Some 0.
Proof.
  intros [_ Hrow]%get_Some Htx. apply lookup_replicate in Hrow as [-> _].
  apply get_Some. split; [lia|].
  change emptyRow with (replicate 10 0). apply lookup_replicate_2.
  unfold GRID_WIDTH in Htx. lia.
Qed.

Lemma wfGrid_emptyGrid : wfGrid emptyGrid.
Proof. split; [done|]. by apply Forall_replicate. Qed.

(** The piece after the move or rotation and the clamp. *)
Lemma movedBlock_invariant state movement :
  invariant state → gameEvent movement →
  ∃ block,
    movedBlock state movement = Ok block ∧
    wfShape (shape block) ∧
    0 ≤ x block ∧ x block + shapeWidth (shape block) ≤ GRID_WIDTH ∧
    y (fallingBlock state) ≤ y block ≤ y (fallingBlock state) + 1 ∧
    (∀ (sy sx : nat) row cell,
       shape block !! sy = Some row → row !! sx = Some cell → cell ≠ 0 →
       y block + Z.of_nat sy < GRID_HEIGHT).
Proof.
  intros (Hwf & Hsh & Hfloor & Htop) Hev.
  assert (Hclamp : ∀ b, wfShape (shape b) →
            ∃ b', clampX b = Ok b' ∧ shape b' = shape b ∧ y b' = y b ∧
                  0 ≤ x b' ∧ x b' + shapeWidth (shape b') ≤ GRID_WIDTH).
  { intros b (R & C & Hrect & HR & HC).
    pose proof (rectangular_width R C (shape b) Hrect ltac:(lia)) as Hw.
    destruct (clampX b) as [b'|e] eqn:Hb.
    - apply clampX_Ok in Hb as (Hs & _ & Hy & _ & Hx & _).
      exists b'. rewrite Hs, Hw in *. unfold GRID_WIDTH in *.
      split_and!; [done..|lia|lia].
    - unfold clampX in Hb. destruct Hrect as [Hlen _].
      destruct (shape b); [cbn in Hlen; lia|done]. }
  assert (Hbelow : ∀ (sy : nat) (row : list Z),
            shape (fallingBlock state) !! sy = Some row →
            y (fallingBlock state) + Z.of_nat sy + 1 < GRID_HEIGHT).
  { intros sy row Hrow%lookup_lt_Some. unfold GRID_HEIGHT in *. lia. }
  unfold movedBlock. destruct movement as [dx dy|]; cbn [applyMovement gameEvent] in *.
  - cbn [mbind result_bind].
    destruct (Hclamp {| shape := shape (fallingBlock state);
                        color := color (fallingBlock state);
                        x := x (fallingBlock state) + dx;
                        y := y (fallingBlock state) + dy |})
      as (b' & Hb' & Hs & Hy & Hx0 & Hx1); [done|].
    cbn [shape y] in *. exists b'. rewrite Hs in Hx1 |- *. rewrite Hy.
    repeat split; try done; try lia.
    intros sy sx row cell Hrow _ _. specialize (Hbelow sy row Hrow). lia.
  - destruct (wfShape_rotation _ Hsh) as [-> Hsh'].
    cbn [mbind result_bind].
    destruct (collisionChecker _ _ 0 0) eqn:Hcol; cbn [negb].
    + destruct (Hclamp (fallingBlock state)) as (b' & Hb' & Hs & Hy & Hx0 & Hx1);
        [done|].
      cbn [mbind result_bind]. exists b'. rewrite Hs in Hx1 |- *. rewrite Hy.
      repeat split; try done; try lia.
      intros sy sx row cell Hrow _ _. specialize (Hbelow sy row Hrow). lia.
    + set (rotated := {| shape := rotateClockwise_spec (shape (fallingBlock state));
                         color := color (fallingBlock state);
                         x := x (fallingBlock state);
                         y := y (fallingBlock state) |}) in *.
      destruct (Hclamp rotated) as (b' & Hb' & Hs & Hy & Hx0 & Hx1); [done|].
      cbn [mbind result_bind]. exists b'. rewrite Hs in Hx1 |- *. rewrite Hy.
      cbn [shape y rotated] in *.
      repeat split; try done; try lia.
      intros sy sx row cell Hrow Hcell Hne.
      pose proof (proj1 (collisionChecker_false _ _ _ _) Hcol sy sx row cell
                    Hrow Hcell Hne) as (_ & Hlt & _).
      cbn [y rotated] in Hlt. lia.
Qed.

Lemma wfShape_cell sh (sy sx : nat) row (cell : Z) :
  wfShape sh → sh !! sy = Some row → row !! sx = Some cell →
  Z.of_nat sx < shapeWidth sh ∧ Z.of_nat sy < 4 ∧ (1 ≤ length sh ≤ 4)%nat.
Proof.
  intros (R & C & Hrect & HR & HC) Hrow Hcell.
  rewrite (rectangular_width R C sh Hrect) by lia.
  destruct Hrect as [Hlen Hrows].
  pose proof (Forall_lookup_1 _ _ _ _ Hrows Hrow) as Hw. cbn beta in Hw.
  apply lookup_lt_Some in Hrow, Hcell. lia.
Qed.

Lemma invariant_endGame state : invariant state → invariant (endGame state).
Proof. done. Qed.

(** One event from a state of the game: the reducer returns, the state it
    returns is again a state of the game, and a piece that locks lies
    inside the board. *)
Lemma invariant_step state movement seed :
  invariant state → gameEvent movement →
  ∃ s' seed',
    stateUpdater state movement seed = Ok (s', seed') ∧
    invariant s' ∧
    ∃ block, movedBlock state movement = Ok block ∧
             (lockBlockChecker block (grid state) = true → inBoard block).
Proof.
  intros Hinv Hev.
  destruct (movedBlock_invariant state movement Hinv Hev)
    as (b & Hb & Hshb & Hx0 & Hx1 & Hyb & Hbelow).
  pose proof Hinv as (Hwf & Hsh & Hfloor & Htop).
  rewrite stateUpdater_steps, Hb. cbn [mbind result_bind].
  destruct (lockBlockChecker b (grid state)) eqn:Hl.
  - assert (Hy0 : 0 ≤ y b).
    { destruct Htop as [?|[Hy Hg]]; [lia|].
      destruct (decide (0 ≤ y b)) as [|Hneg]; [done|]. exfalso.
      rewrite Hg in Hl. unfold lockBlockChecker in Hl.
      assert (Hcol : collisionChecker emptyGrid b 0 1 = false).
      { apply collisionChecker_false. intros sy sx row cell Hrow Hcell Hne.
        destruct (wfShape_cell _ _ _ _ _ Hshb Hrow Hcell) as (Hsx & Hsy & _).
        unfold GRID_WIDTH, GRID_HEIGHT in *.
        split; [lia|]. split; [lia|]. intros grow Hgrow.
        eapply get_emptyGrid; [done|]. unfold GRID_WIDTH. lia. }
      rewrite Hcol in Hl.
      destruct Hshb as (R & C & [Hlen _] & HR & _). unfold GRID_HEIGHT in *.
      rewrite !bool_decide_eq_false_2 in Hl by lia. done. }
    assert (Hin : inBoard b).
    { intros sy sx row cell Hrow Hcell Hne.
      destruct (wfShape_cell _ _ _ _ _ Hshb Hrow Hcell) as (Hsx & _ & _).
      specialize (Hbelow sy sx row cell Hrow Hcell Hne). lia. }
    rewrite settle_lock by done. unfold lockBlock.
    destruct (mergeBlockWithBlock_total (grid state) b Hwf Hin) as (newGrid & -> & Hwf').
    cbn [mbind result_bind].
    pose proof (getRandomTetromino_catalog seed) as (t & Ht & Hfresh).
    destruct (getRandomTetromino seed) as [nb sd]. cbn [fst] in Hfresh.
    destruct (wfGrid_get newGrid 0 Hwf') as (row0 & -> & _); [done|].
    destruct (some _ row0).
    + eexists _, _. split; [done|]. split; [exact Hinv|]. by exists b.
    + fold (lockWrite newGrid b).
      destruct (lockWrite_total newGrid b Hwf' Hin) as (lockedGrid & -> & Hwf'').
      cbn [mbind result_bind]. eexists _, _. split; [done|]. split; [|by exists b].
      subst nb. pose proof (wfShape_catalog t Ht) as Hsht.
      split_and!; cbn [grid fallingBlock shape y]; [done|done| |by left].
      destruct Hsht as (R & C & [Hlen _] & HR & _). unfold GRID_HEIGHT. lia.
  - rewrite settle_fall by done. eexists _, _. split; [done|].
    split; [|exists b; split; [done|congruence]]. split_and!; cbn [grid fallingBlock].
    + by apply clearAndMoveRows_wfGrid.
    + done.
    + unfold lockBlockChecker in Hl. case_bool_decide; [done|lia].
    + destruct Htop as [?|[Hy Hg]]; [left; lia|].
      destruct (decide (0 ≤ y b)); [by left|right]. split; [lia|].
      rewrite Hg, clearAndMoveRows_eq. reflexivity.
Qed.

Lemma invariant_initialState fb nb :
  fb ∈ tetrominoes → invariant (initialState fb nb).
Proof.
  intros Hfb. split_and!; cbn [initialState grid fallingBlock].
  - apply wfGrid_emptyGrid.
  - by apply wfShape_catalog.
  - unfold tetrominoes in Hfb.
    repeat (apply elem_of_cons in Hfb as [->|Hfb]); [..|by apply elem_of_nil in Hfb];
      cbn; unfold GRID_HEIGHT; lia.
  - right. split; [|done]. unfold tetrominoes in Hfb.
    repeat (apply elem_of_cons in Hfb as [->|Hfb]); [..|by apply elem_of_nil in Hfb];
      done.
Qed.

Lemma scan_invariant events state seed st :
  invariant state → Forall gameEvent events →
  scan state seed events = Ok st → invariant st.1.
Proof.
  revert state seed. induction events as [|e events IH]; intros state seed Hinv Hev H;
    cbn [scan] in H.
  - by injection H as <-.
  - apply Forall_cons_1 in Hev as [He Hev].
    destruct (invariant_step state e seed Hinv He) as (s' & seed' & Hs & Hinv' & _).
    rewrite Hs in H. cbn [mbind result_bind] in H. by eapply IH.
Qed.

Lemma scan_snoc events e state seed s1 seed1 st :
  scan state seed events = Ok (s1, seed1) →
  stateUpdater s1 e seed1 = Ok st →
  scan state seed (events ++ [e]) = Ok st.
Proof.
  revert state seed. induction events as [|e' events IH]; intros state seed H He;
    cbn [scan app] in *.
  - injection H as -> ->. rewrite He. by destruct st.
  - destruct (stateUpdater state e' seed) as [[s' seed']|err]; [|done].
    cbn [mbind result_bind] in *. by apply IH.
Qed.

(** C3, as the code has it.  From every state the scan reaches on the
    events of the game (Move with any integer [dx] and [dy] 0 or 1, and
    Rotate), every such event yields a state, which is again reachable;
    the board has 20 rows of 10 cells, and a piece that locks has every
    occupied cell inside the board, so that the merge and the lock-in
    write touch cells of the board only. *)
Theorem stateUpdater_total_on_reachable state seed movement :
  reachable (state, seed) → gameEvent movement →
  ∃ s' seed',
    stateUpdater state movement seed = Ok (s', seed') ∧
    reachable (s', seed') ∧
    wfGrid (grid state) ∧ wfGrid (grid s') ∧
    ∃ block, movedBlock state movement = Ok block ∧
             (lockBlockChecker block (grid state) = true → inBoard block).
Proof.
  intros (fb & nb & seed0 & events & Hfb & Hnb & Hev & Hscan) He.
  pose proof (scan_invariant events _ _ _ (invariant_initialState fb nb Hfb) Hev Hscan)
    as Hinv. cbn [fst] in Hinv.
  destruct (invariant_step state movement seed Hinv He)
    as (s' & seed' & Hs & Hinv' & Hblock).
  exists s', seed'. split; [done|]. split.
  - exists fb, nb, seed0, (events ++ [movement]). split_and!; [done..| |].
    + apply Forall_app. split; [done|]. by apply Forall_singleton.
    + by eapply scan_snoc.
  - split; [apply Hinv|]. split; [apply Hinv'|]. done.
Qed.

Lemma stateUpdater_total_on_reachable_witness :
  reachable (exAboveFloor, 0%N) ∧ gameEvent (Move 0 1) ∧
  ∃ s' seed',
    stateUpdater exAboveFloor (Move 0 1) 0 = Ok (s', seed') ∧
    reachable (s', seed') ∧
    wfGrid (grid exAboveFloor) ∧ wfGrid (grid s') ∧
    ∃ block, movedBlock exAboveFloor (Move 0 1) = Ok block ∧
             (lockBlockChecker block (grid exAboveFloor) = true → inBoard block).
Proof.
  assert (Hr : reachable (exAboveFloor, 0%N)).
  { exists (pieceO 4 (-1)), (pieceT 4 (-1)), 0%N, (replicate 18 (Move 0 1)).
    split_and!.
    - apply list_elem_of_here.
    - do 2 apply list_elem_of_further. apply list_elem_of_here.
    - apply Forall_replicate. cbn. lia.
    - vm_compute. reflexivity. }
  assert (He : gameEvent (Move 0 1)) by (cbn; lia).
  split; [done|]. split; [done|].
  exact (stateUpdater_total_on_reachable exAboveFloor 0 (Move 0 1) Hr He).
Defined.

(** C3, as the specification words it, fails for moves the game does not
    produce: on the initial state a move thirty rows down, or one row up,
    makes the piece lock outside the board, and the lock-in write, which
    does not check the row, throws. *)
Lemma stateUpdater_throws_outside_board :
  reachable (initialState (pieceO 4 (-1)) (pieceT 4 (-1)), 0%N) ∧
  stateUpdater (initialState (pieceO 4 (-1)) (pieceT 4 (-1))) (Move 0 30) 0
    = Err TypeError ∧
  stateUpdater (initialState (pieceO 4 (-1)) (pieceT 4 (-1))) (Move 0 (-1)) 0
    = Err TypeError.
Proof.
  split; [|split; vm_compute; reflexivity].
  exists (pieceO 4 (-1)), (pieceT 4 (-1)), 0%N, []. split_and!.
  - apply list_elem_of_here.
  - do 2 apply list_elem_of_further. apply list_elem_of_here.
  - constructor.
  - reflexivity.
Qed.

(** * Further properties of the code *)

(** ** The input streams *)

Lemma merged_cases o :
  merged o = [] ∨ merged o = [Move (-1) 0] ∨ merged o = [Move 1 0] ∨
  merged o = [Move 0 1] ∨ merged o = [Rotate].
Proof.
  destruct o as [[ty co rp]|n]; [|by do 3 right; left].
  unfold merged, left_, right_, down_, rotate_, tick_, keyObservable. cbn.
  destruct rp; cbn; repeat (case_bool_decide; simplify_eq); cbn; eauto 10.
Qed.

(** X1. One occurrence makes the merged stream emit at most one movement, and
    that movement is a step to the left, to the right or down, or a
    rotation.  A repeated key, a key other than A, D, S and W, the W key
    on keypress and the A, D and S keys on keydown emit nothing. *)
Theorem merged_emits o :
  (merged o = [] ∨ merged o = [Move (-1) 0] ∨ merged o = [Move 1 0] ∨
   merged o = [Move 0 1] ∨ merged o = [Rotate]) ∧
  (∀ ev, o = Keyboard ev →
     (repeat ev = true → merged o = []) ∧
     (code ev ∉ ["KeyA"; "KeyD"; "KeyS"; "KeyW"] → merged o = []) ∧
     (type ev = "keypress" → code ev = "KeyW" → merged o = []) ∧
     (type ev = "keydown" → code ev ≠ "KeyW" → merged o = [])).
Proof.
  split; [apply merged_cases|].
  intros [ty co rp] ->.
  unfold merged, left_, right_, down_, rotate_, tick_, keyObservable. cbn.
  split_and!.
  - intros ->. cbn. by repeat case_bool_decide.
  - intros Hco. destruct rp; cbn; repeat (case_bool_decide; simplify_eq); try done;
      exfalso; apply Hco; apply list_elem_of_In; cbn; tauto.
  - intros -> ->. by repeat (case_bool_decide; simplify_eq).
  - intros -> Hco. by repeat (case_bool_decide; simplify_eq).
Qed.

Lemma merged_gameEvent os : Forall gameEvent (os ≫= merged).
Proof.
  induction os as [|o os IH]; [constructor|].
  change ((o :: os) ≫= merged) with (merged o ++ (os ≫= merged)).
  apply Forall_app. split; [|done].
  destruct (merged_cases o) as [->|[->|[->|[->| ->]]]];
    repeat constructor; cbn; lia.
Qed.

Lemma scan_total events state seed :
  invariant state → Forall gameEvent events →
  ∃ st, scan state seed events = Ok st ∧ invariant st.1.
Proof.
  revert state seed. induction events as [|e events IH]; intros state seed Hinv Hev.
  - by exists (state, seed).
  - apply Forall_cons_1 in Hev as [He Hev].
    destruct (invariant_step state e seed Hinv He) as (s' & seed' & Hs & Hinv' & _).
    cbn [scan]. rewrite Hs. cbn [mbind result_bind]. by apply IH.
Qed.

(** X2. The stream of game states never fails: whatever happens on the
    keyboard and however often the interval fires, [gameState$] has a state
    to emit, and that state is a state of the game. *)
Theorem gameState_total fb nb seed0 os :
  fb ∈ tetrominoes → nb ∈ tetrominoes →
  ∃ st, gameState fb nb seed0 os = Ok st ∧ reachable st.
Proof.
  intros Hfb Hnb. unfold gameState.
  destruct (scan_total (os ≫= merged) (initialState fb nb) seed0) as (st & Hst & _).
  - by apply invariant_initialState.
  - apply merged_gameEvent.
  - exists st. split; [done|].
    exists fb, nb, seed0, (os ≫= merged). split_and!; [done..| |done].
    apply merged_gameEvent.
Qed.

Lemma gameState_total_witness :
  pieceO 4 (-1) ∈ tetrominoes ∧ pieceT 4 (-1) ∈ tetrominoes ∧
  ∃ st, gameState (pieceO 4 (-1)) (pieceT 4 (-1)) 0
          [Interval 0; Keyboard {| type := "keypress"; code := "KeyA"; repeat := false |};
           Keyboard {| type := "keydown"; code := "KeyW"; repeat := false |}] = Ok st ∧
        reachable st.
Proof.
  assert (H1 : pieceO 4 (-1) ∈ tetrominoes) by apply list_elem_of_here.
  assert (H2 : pieceT 4 (-1) ∈ tetrominoes)
    by (do 2 apply list_elem_of_further; apply list_elem_of_here).
  split; [done|]. split; [done|].
  exact (gameState_total (pieceO 4 (-1)) (pieceT 4 (-1)) 0 _ H1 H2).
Defined.

(** ** Invariants of the game *)

(** The two ways an event is processed. *)
Lemma stateUpdater_cases state movement seed s' seed' :
  stateUpdater state movement seed = Ok (s', seed') →
  ∃ block, movedBlock state movement = Ok block ∧
    ((lockBlockChecker block (grid state) = true ∧
      lockBlock state block seed = Ok (s', seed')) ∨
     (lockBlockChecker block (grid state) = false ∧ seed' = seed ∧
      s' = {| gameEnd := gameEnd state;
              grid := (clearAndMoveRows (grid state) (score state) (level state)).1.1;
              fallingBlock := block; nextBlock := nextBlock state;
              score := (clearAndMoveRows (grid state) (score state) (level state)).1.2;
              level := (clearAndMoveRows (grid state) (score state) (level state)).2 |})).
Proof.
  intros H. rewrite stateUpdater_steps in H. apply bind_Ok in H as (block & Hb & H).
  exists block. split; [done|].
  destruct (lockBlockChecker block (grid state)) eqn:Hl.
  - left. by rewrite settle_lock in H.
  - right. rewrite settle_fall in H by done. by injection H as <- <-.
Qed.

(** The piece after the move or rotation: its colour is kept, its shape is
    kept or turned once. *)
Lemma movedBlock_cases state movement block :
  movedBlock state movement = Ok block →
  color block = color (fallingBlock state) ∧
  (shape block = shape (fallingBlock state) ∨
   tetrominoRotation (shape (fallingBlock state)) = Ok (shape block)).
Proof.
  unfold movedBlock. intros (b & Hb & (Hs & Hc & _)%clampX_Ok)%bind_Ok.
  rewrite Hs, Hc. unfold applyMovement in Hb. destruct movement as [dx dy|].
  - injection Hb as <-. split; [done|by left].
  - apply bind_Ok in Hb as (rot & Hrot & Hb).
    destruct (negb _); injection Hb as <-; (split; [done|]); [by right|by left].
Qed.

Lemma scan_preserves (P : State → Prop) :
  (∀ s e seed s' seed',
     invariant s → P s → gameEvent e →
     stateUpdater s e seed = Ok (s', seed') → P s') →
  ∀ events s seed st,
    invariant s → P s → Forall gameEvent events →
    scan s seed events = Ok st → P st.1.
Proof.
  intros Hstep. induction events as [|e events IH]; intros s seed st Hinv HP Hev H;
    cbn [scan] in H.
  - by injection H as <-.
  - apply Forall_cons_1 in Hev as [He Hev].
    destruct (invariant_step s e seed Hinv He) as (s' & seed' & Hs & Hinv' & _).
    rewrite Hs in H. cbn [mbind result_bind] in H.
    apply (IH s' seed' st); [done| |done|done].
    exact (Hstep s e seed s' seed' Hinv HP He Hs).
Qed.

Lemma validCells_write g row gy gx v :
  validCells g → get g gy = Some row → 0 ≤ v ≤ 7 →
  validCells (<[Z.to_nat gy := <[Z.to_nat gx := v]> row]> g).
Proof.
  intros Hg [_ Hrow]%get_Some Hv. apply Forall_insert; [done|].
  apply Forall_insert; [|done]. by eapply (Forall_lookup_1 _ g).
Qed.

Lemma mergeCell_validCells block sy acc cell sx acc' :
  0 ≤ color block ≤ 7 → validCells acc →
  mergeCell block sy acc cell sx = Ok acc' → validCells acc'.
Proof.
  unfold mergeCell. intros Hc Hacc H.
  repeat (case_match; simplify_eq); try done. by apply validCells_write.
Qed.

Lemma lockCell_validCells block sy acc cell sx acc' :
  0 ≤ color block ≤ 7 → validCells acc →
  lockCell block sy acc cell sx = Ok acc' → validCells acc'.
Proof.
  unfold lockCell. intros Hc Hacc H.
  repeat (case_match; simplify_eq); try done. by apply validCells_write.
Qed.

Lemma mergeBlockWithBlock_validCells g block newGrid :
  0 ≤ color block ≤ 7 → validCells g →
  mergeBlockWithBlock g block = Ok newGrid → validCells newGrid.
Proof.
  intros Hc Hg. unfold mergeBlockWithBlock, reduce.
  apply (reduce_from_inv validCells); [|done].
  intros acc row sy acc' Hacc. apply (reduce_from_inv validCells); [|done].
  intros acc0 cell sx acc1 Hacc0. by apply mergeCell_validCells.
Qed.

Lemma lockWrite_validCells g block lockedGrid :
  0 ≤ color block ≤ 7 → validCells g →
  lockWrite g block = Ok lockedGrid → validCells lockedGrid.
Proof.
  intros Hc Hg. unfold lockWrite, reduce.
  apply (reduce_from_inv validCells); [|done].
  intros acc row sy acc' Hacc. apply (reduce_from_inv validCells); [|done].
  intros acc0 cell sx acc1 Hacc0. by apply lockCell_validCells.
Qed.

Lemma clearAndMoveRows_validCells g sc lv :
  validCells g → validCells (clearAndMoveRows g sc lv).1.1.
Proof.
  intros Hg. rewrite clearAndMoveRows_eq. cbn [fst]. apply Forall_app. split.
  - apply Forall_replicate. by repeat constructor.
  - apply List.Forall_forall. intros row [Hrow _]%List.filter_In.
    by apply (proj1 (List.Forall_forall _ _) Hg).
Qed.

Lemma catalog_color t : t ∈ tetrominoes → 1 ≤ color t ≤ 7.
Proof.
  intros Ht. unfold tetrominoes in Ht.
  repeat (apply elem_of_cons in Ht as [->|Ht]); [..|by apply elem_of_nil in Ht];
    cbn; lia.
Qed.

Lemma isTetromino_fresh seed : isTetromino (getRandomTetromino seed).1.
Proof.
  destruct (getRandomTetromino_catalog seed) as (t & Ht & ->).
  exists t. split; [done|]. split; [done|]. constructor.
Qed.

Lemma gameInvariant_step s e seed s' seed' :
  invariant s → gameInvariant s → gameEvent e →
  stateUpdater s e seed = Ok (s', seed') → gameInvariant s'.
Proof.
  intros Hinv Hgame He H. pose proof Hgame as (Hfb & Hnb & Hx & Hcells & Hsc & Hmod & Hlv).
  destruct (movedBlock_invariant s e Hinv He) as (b & Hb & Hshb & Hx0 & Hx1 & _).
  apply stateUpdater_cases in H as (b' & Hb' & H).
  rewrite Hb in Hb'. injection Hb' as <-.
  destruct (movedBlock_cases s e b Hb) as [Hcol Hshape].
  assert (Hbt : isTetromino b).
  { destruct Hfb as (t & Ht & Hc & Ho). exists t. split; [done|]. split; [congruence|].
    destruct Hshape as [->|Hrot]; [done|]. by eapply orientation_turn. }
  assert (Hbc : 0 ≤ color b ≤ 7).
  { destruct Hbt as (t & Ht & -> & _). pose proof (catalog_color t Ht). lia. }
  destruct H as [[Hl H]|(Hl & -> & ->)].
  - apply lockBlock_Ok in H
      as (newGrid & row0 & Hm & H0 & -> & [[_ ->]|[_ (lg & Hw & ->)]]); [done|].
    pose proof (getRandomTetromino_catalog seed) as (t & Ht & Hfresh).
    pose proof (isTetromino_fresh seed) as Hft.
    split_and!; cbn [fallingBlock nextBlock grid score level]; try done.
    + rewrite Hfresh. cbn [x shape]. pose proof (catalog_width t Ht).
      unfold GRID_WIDTH. lia.
    + eapply lockWrite_validCells; [done| |done].
      by eapply mergeBlockWithBlock_validCells.
  - rewrite clearAndMoveRows_eq. cbn [fst snd].
    split_and!; cbn [fallingBlock nextBlock grid score level]; try done.
    + unfold GRID_WIDTH in *. lia.
    + pose proof (clearAndMoveRows_validCells (grid s) (score s) (level s) Hcells) as Hv.
      by rewrite clearAndMoveRows_eq in Hv.
    + lia.
    + rewrite (Z.mul_comm 100), Z.mod_add by lia. done.
Qed.

Lemma gameInvariant_initialState fb nb :
  fb ∈ tetrominoes → nb ∈ tetrominoes → gameInvariant (initialState fb nb).
Proof.
  intros Hfb Hnb. split_and!; cbn [initialState fallingBlock nextBlock grid score level].
  - exists fb. split; [done|]. split; [done|]. constructor.
  - exists nb. split; [done|]. split; [done|]. constructor.
  - unfold tetrominoes in Hfb.
    repeat (apply elem_of_cons in Hfb as [->|Hfb]); [..|by apply elem_of_nil in Hfb];
      cbn; lia.
  - unfold tetrominoes in Hfb.
    repeat (apply elem_of_cons in Hfb as [->|Hfb]); [..|by apply elem_of_nil in Hfb];
      cbn; unfold GRID_WIDTH; lia.
  - apply Forall_replicate, Forall_replicate. lia.
  - done.
  - done.
  - done.
Qed.

Lemma reachable_invariants state seed :
  reachable (state, seed) → invariant state ∧ gameInvariant state.
Proof.
  intros (fb & nb & seed0 & events & Hfb & Hnb & Hev & Hscan).
  pose proof (invariant_initialState fb nb Hfb) as Hinit.
  split.
  - by apply (scan_invariant events _ _ _ Hinit Hev Hscan).
  - apply (scan_preserves gameInvariant gameInvariant_step events
             (initialState fb nb) seed0 (state, seed)); [done| |done..].
    by apply gameInvariant_initialState.
Qed.

(** A catalogue shape has four orientations, each of four cells. *)
Lemma orientation_four t sh :
  t ∈ tetrominoes → orientation (shape t) sh →
  sh ∈ [shape t; rotateClockwise_spec (shape t);
        rotateClockwise_spec (rotateClockwise_spec (shape t));
        rotateClockwise_spec (rotateClockwise_spec (rotateClockwise_spec (shape t)))].
Proof.
  intros Ht Ho. induction Ho as [|sh sh' Ho IH Hrot]; [apply list_elem_of_here|].
  unfold tetrominoes in Ht.
  repeat (apply elem_of_cons in Ht as [->|Ht]); [..|by apply elem_of_nil in Ht];
    cbn [shape] in *;
    repeat (apply elem_of_cons in IH as [->|IH]); try (by apply elem_of_nil in IH);
    vm_compute in Hrot; injection Hrot as <-;
    apply list_elem_of_In; vm_compute; tauto.
Qed.

Lemma orientation_occupiedCells t sh :
  t ∈ tetrominoes → orientation (shape t) sh → occupiedCells sh = 4%nat.
Proof.
  intros Ht Ho. pose proof (orientation_four t sh Ht Ho) as Hsh.
  unfold tetrominoes in Ht.
  repeat (apply elem_of_cons in Ht as [->|Ht]); [..|by apply elem_of_nil in Ht];
    cbn [shape] in *;
    repeat (apply elem_of_cons in Hsh as [->|Hsh]); try (by apply elem_of_nil in Hsh);
    vm_compute; reflexivity.
Qed.

Lemma exAboveFloor_reachable : reachable (exAboveFloor, 0%N).
Proof.
  exists (pieceO 4 (-1)), (pieceT 4 (-1)), 0%N, (replicate 18 (Move 0 1)).
  split_and!.
  - apply list_elem_of_here.
  - do 2 apply list_elem_of_further. apply list_elem_of_here.
  - apply Forall_replicate. cbn. lia.
  - vm_compute. reflexivity.
Qed.

(** X3. In every state of the game the falling piece is a piece of the
    catalogue in one of its orientations, with its catalogue colour and
    four occupied cells; its shape lies between the walls, not above row
    -1 and not below the last row but one.  The queued piece is a piece of
    the catalogue as well. *)
Theorem reachable_falling_piece state seed :
  reachable (state, seed) →
  isTetromino (fallingBlock state) ∧
  occupiedCells (shape (fallingBlock state)) = 4%nat ∧
  0 ≤ x (fallingBlock state) ∧
  x (fallingBlock state) + shapeWidth (shape (fallingBlock state)) ≤ GRID_WIDTH ∧
  -1 ≤ y (fallingBlock state) ∧
  y (fallingBlock state) + Z.of_nat (length (shape (fallingBlock state)))
    ≤ GRID_HEIGHT - 1 ∧
  isTetromino (nextBlock state).
Proof.
  intros [(_ & _ & Hfloor & Htop) (Hfb & Hnb & Hx & _)]%reachable_invariants.
  split; [done|]. split.
  - destruct Hfb as (t & Ht & _ & Ho). by eapply orientation_occupiedCells.
  - split_and!; [lia|lia|lia|done|done].
Qed.

Lemma reachable_falling_piece_witness :
  reachable (exAboveFloor, 0%N) ∧
  isTetromino (fallingBlock exAboveFloor) ∧
  occupiedCells (shape (fallingBlock exAboveFloor)) = 4%nat ∧
  0 ≤ x (fallingBlock exAboveFloor) ∧
  x (fallingBlock exAboveFloor) + shapeWidth (shape (fallingBlock exAboveFloor))
    ≤ GRID_WIDTH ∧
  -1 ≤ y (fallingBlock exAboveFloor) ∧
  y (fallingBlock exAboveFloor) + Z.of_nat (length (shape (fallingBlock exAboveFloor)))
    ≤ GRID_HEIGHT - 1 ∧
  isTetromino (nextBlock exAboveFloor).
Proof.
  split; [apply exAboveFloor_reachable|].
  apply (reachable_falling_piece exAboveFloor 0), exAboveFloor_reachable.
Defined.

(** X4. In every state of the game the board has 20 rows of 10 cells, and each
    cell is 0 or one of the colours 1 to 7. *)
Theorem reachable_board state seed :
  reachable (state, seed) →
  wfGrid (grid state) ∧ validCells (grid state) ∧
  ∀ r c, 0 ≤ r < GRID_HEIGHT → 0 ≤ c < GRID_WIDTH →
         ∃ cell, cellAt (grid state) r c = Some cell ∧ 0 ≤ cell ≤ 7.
Proof.
  intros [(Hwf & _) (_ & _ & _ & Hcells & _)]%reachable_invariants.
  split; [done|]. split; [done|]. intros r c Hr Hc.
  destruct (wfGrid_get (grid state) r Hwf Hr) as (row & Hrow & Hlen).
  destruct (get_in_range row c) as [cell Hcell]; [lia|].
  exists cell. unfold cellAt. rewrite Hrow. cbn [mbind option_bind]. split; [done|].
  apply get_Some in Hrow as [_ Hrow]. apply get_Some in Hcell as [_ Hcell].
  pose proof (Forall_lookup_1 _ _ _ _ Hcells Hrow) as Hr'. cbn beta in Hr'.
  by apply (Forall_lookup_1 _ _ _ _ Hr' Hcell).
Qed.

Lemma reachable_board_witness :
  reachable (exAboveFloor, 0%N) ∧
  wfGrid (grid exAboveFloor) ∧ validCells (grid exAboveFloor) ∧
  ∀ r c, 0 ≤ r < GRID_HEIGHT → 0 ≤ c < GRID_WIDTH →
         ∃ cell, cellAt (grid exAboveFloor) r c = Some cell ∧ 0 ≤ cell ≤ 7.
Proof.
  split; [apply exAboveFloor_reachable|].
  apply (reachable_board exAboveFloor 0), exAboveFloor_reachable.
Defined.

(** X5. In every state of the game the score is a multiple of 100 that is not
    negative, and the level is the one computed from the score,
    [score / 500 + 1] as long as the quotient fits 32 bits. *)
Theorem reachable_score_level state seed :
  reachable (state, seed) →
  0 ≤ score state ∧ score state `mod` 100 = 0 ∧
  level state = bitor0 (score state # 500) + 1 ∧
  (score state < 500 * 2 ^ 31 →
   level state = score state `div` 500 + 1 ∧ 1 ≤ level state).
Proof.
  intros [_ (_ & _ & _ & _ & Hsc & Hmod & Hlv)]%reachable_invariants.
  split; [done|]. split; [done|]. split; [done|]. intros Hb.
  rewrite Hlv, bitor0_div by lia. split; [done|].
  pose proof (Z.div_pos (score state) 500). lia.
Qed.

Lemma reachable_score_level_witness :
  reachable (exAboveFloor, 0%N) ∧
  0 ≤ score exAboveFloor ∧ score exAboveFloor `mod` 100 = 0 ∧
  level exAboveFloor = bitor0 (score exAboveFloor # 500) + 1 ∧
  (score exAboveFloor < 500 * 2 ^ 31 →
   level exAboveFloor = score exAboveFloor `div` 500 + 1 ∧ 1 ≤ level exAboveFloor).
Proof.
  split; [apply exAboveFloor_reachable|].
  apply (reachable_score_level exAboveFloor 0), exAboveFloor_reachable.
Defined.

(** ** Collisions *)

Lemma some_from_true {A} (p : A → Z → bool) (a : list A) (i : Z) :
  some_from p i a = true ↔
  ∃ (j : nat) v, a !! j = Some v ∧ p v (i + Z.of_nat j) = true.
Proof.
  revert i. induction a as [|w a IH]; intros i; cbn [some_from].
  - split; [done|]. intros (j & v & Hj & _). by rewrite lookup_nil in Hj.
  - rewrite orb_true_iff, IH. split.
    + intros [Hw|(j & v & Hj & Hp)].
      * exists 0%nat, w. by rewrite Z.add_0_r.
      * exists (S j), v. split; [done|].
        by replace (i + Z.of_nat (S j)) with (i + 1 + Z.of_nat j) by lia.
    + intros ([|j] & v & Hj & Hp); cbn in Hj.
      * injection Hj as <-. left. by rewrite Z.add_0_r in Hp.
      * right. exists j, v. split; [done|].
        by replace (i + 1 + Z.of_nat j) with (i + Z.of_nat (S j)) by lia.
Qed.

(** X6. [collisionChecker] answers true exactly when some occupied cell of the
    piece, moved by the offset, lies left of column 0, right of the last
    column, below the last row, or on a row of the board in a cell that is
    not 0 (a cell missing from that row counts as not 0). *)
Theorem collisionChecker_true g block ox oy :
  collisionChecker g block ox oy = true ↔
  ∃ (sy sx : nat) row cell,
    shape block !! sy = Some row ∧ row !! sx = Some cell ∧ cell ≠ 0 ∧
    (x block + Z.of_nat sx + ox < 0 ∨
     GRID_WIDTH ≤ x block + Z.of_nat sx + ox ∨
     GRID_HEIGHT ≤ y block + Z.of_nat sy + oy ∨
     ∃ grow, get g (y block + Z.of_nat sy + oy) = Some grow ∧
             get grow (x block + Z.of_nat sx + ox) ≠ Some 0).
Proof.
  unfold collisionChecker, some. rewrite some_from_true. split.
  - intros (sy & row & Hrow & H). apply some_from_true in H as (sx & cell & Hcell & H).
    rewrite !Z.add_0_l in H. exists sy, sx, row, cell.
    case_bool_decide as Hne; [|done]. split_and!; [done..|].
    apply orb_true_iff in H as [H|H]; [apply orb_true_iff in H as [H|H];
      [apply orb_true_iff in H as [H|H]|]|].
    + apply bool_decide_eq_true_1 in H. by left.
    + apply bool_decide_eq_true_1 in H. right; left. lia.
    + apply bool_decide_eq_true_1 in H. right; right; left. lia.
    + do 3 right. destruct (get g _) as [grow|]; [|done]. exists grow. split; [done|].
      destruct (get grow _) as [v|]; [|done].
      rewrite andb_true_r in H. apply bool_decide_eq_true_1 in H. congruence.
  - intros (sy & sx & row & cell & Hrow & Hcell & Hne & H).
    exists sy, row. split; [done|]. apply some_from_true. exists sx, cell. split; [done|].
    rewrite !Z.add_0_l, (bool_decide_eq_true_2 _ Hne).
    destruct H as [H|[H|[H|(grow & Hgrow & H)]]].
    + by rewrite (bool_decide_eq_true_2 (_ < 0)).
    + rewrite (bool_decide_eq_true_2 (_ >= GRID_WIDTH)) by lia. by rewrite orb_true_r.
    + rewrite (bool_decide_eq_true_2 (_ >= GRID_HEIGHT)) by lia. by rewrite !orb_true_r.
    + rewrite Hgrow. destruct (get grow _) as [v|]; [|by rewrite !orb_true_r].
      rewrite (bool_decide_eq_true_2 (v ≠ 0)) by congruence. by rewrite !orb_true_r.
Qed.

(** X7. Rows above the board never collide: a piece whose occupied cells lie
    between the walls and above row 0 collides with no board. *)
Theorem collisionChecker_above_board g block ox oy :
  (∀ (sy sx : nat) row cell,
     shape block !! sy = Some row → row !! sx = Some cell → cell ≠ 0 →
     0 ≤ x block + Z.of_nat sx + ox < GRID_WIDTH ∧
     y block + Z.of_nat sy + oy < 0) →
  collisionChecker g block ox oy = false.
Proof.
  intros H. apply collisionChecker_false. intros sy sx row cell Hrow Hcell Hne.
  destruct (H sy sx row cell Hrow Hcell Hne) as [Hx Hy].
  split; [done|]. split; [unfold GRID_HEIGHT; lia|].
  intros grow Hgrow. apply get_Some in Hgrow as [? _]. lia.
Qed.

Lemma collisionChecker_above_board_witness :
  (∀ (sy sx : nat) row cell,
     shape (pieceO 4 (-3)) !! sy = Some row → row !! sx = Some cell → cell ≠ 0 →
     0 ≤ x (pieceO 4 (-3)) + Z.of_nat sx + 0 < GRID_WIDTH ∧
     y (pieceO 4 (-3)) + Z.of_nat sy + 0 < 0) ∧
  collisionChecker towerGrid (pieceO 4 (-3)) 0 0 = false.
Proof.
  assert (H : ∀ (sy sx : nat) row cell,
     shape (pieceO 4 (-3)) !! sy = Some row → row !! sx = Some cell → cell ≠ 0 →
     0 ≤ x (pieceO 4 (-3)) + Z.of_nat sx + 0 < GRID_WIDTH ∧
     y (pieceO 4 (-3)) + Z.of_nat sy + 0 < 0).
  { intros sy sx row cell Hrow Hcell _. cbn [pieceO shape x y] in *.
    apply lookup_lt_Some in Hrow as Hsy. cbn in Hsy.
    assert (length row = 2%nat) as Hlen.
    { destruct sy as [|[|sy]]; cbn in Hrow; [by injection Hrow as <-..|lia]. }
    apply lookup_lt_Some in Hcell. unfold GRID_WIDTH. lia. }
  split; [exact H|].
  exact (collisionChecker_above_board towerGrid (pieceO 4 (-3)) 0 0 H).
Defined.

(** ** The end of the game *)

(** X8. The game ends in one way only.  When an event takes a running game to
    an ended one, the piece has locked and the board merged with it has a
    cell that is not 0 in its top row; the state returned is the state
    before the event with the flag set (the merged board is dropped), and
    one piece has been drawn from the generator.  The test [y < -1] that
    follows the lock test in [stateUpdater] never ends a game. *)
Theorem game_over_only_by_lock state movement seed s' seed' :
  stateUpdater state movement seed = Ok (s', seed') →
  gameEnd state = false → gameEnd s' = true →
  s' = endGame state ∧ seed' = (getRandomTetromino seed).2 ∧
  ∃ block newGrid row0 (c : nat) cell,
    movedBlock state movement = Ok block ∧
    lockBlockChecker block (grid state) = true ∧
    mergeBlockWithBlock (grid state) block = Ok newGrid ∧
    get newGrid 0 = Some row0 ∧ row0 !! c = Some cell ∧ cell ≠ 0.
Proof.
  intros H Hrun Hend.
  apply stateUpdater_cases in H as (block & Hb & [[Hl H]|(Hl & -> & ->)]);
    [|cbn in Hend; congruence].
  apply lockBlock_Ok in H
    as (newGrid & row0 & Hm & H0 & -> & [[Htop ->]|[_ (lg & Hw & ->)]]);
    [|cbn in Hend; congruence].
  split; [done|]. split; [done|].
  apply some_from_true in Htop as (c & cell & Hc & Hne).
  apply bool_decide_eq_true_1 in Hne. by exists block, newGrid, row0, c, cell.
Qed.

Lemma game_over_only_by_lock_witness :
  stateUpdater (setGameEnd false exEnded) (Move 1 0) 0 = Ok (exEnded, 1013904223%N) ∧
  gameEnd (setGameEnd false exEnded) = false ∧ gameEnd exEnded = true ∧
  exEnded = endGame (setGameEnd false exEnded) ∧
  1013904223%N = (getRandomTetromino 0).2 ∧
  ∃ block newGrid row0 (c : nat) cell,
    movedBlock (setGameEnd false exEnded) (Move 1 0) = Ok block ∧
    lockBlockChecker block (grid (setGameEnd false exEnded)) = true ∧
    mergeBlockWithBlock (grid (setGameEnd false exEnded)) block = Ok newGrid ∧
    get newGrid 0 = Some row0 ∧ row0 !! c = Some cell ∧ cell ≠ 0.
Proof.
  split; [vm_compute; reflexivity|]. split; [reflexivity|]. split; [reflexivity|].
  apply (game_over_only_by_lock (setGameEnd false exEnded) (Move 1 0) 0);
    [vm_compute; reflexivity | reflexivity | reflexivity].
Defined.

(** ** Row clearing, once more *)

Lemma filter_incomplete_all g :
  completeRows g = [] → List.filter (λ row, negb (complete row)) g = g.
Proof.
  unfold completeRows. induction g as [|row g IH]; [done|]. cbn.
  destruct (complete row); cbn; [done|]. intros H. by rewrite IH.
Qed.

(** X9. A pass of [clearAndMoveRows] leaves no complete row, and a second pass
    on its result changes nothing: board, score and level come back as
    they went in. *)
Theorem clearAndMoveRows_idempotent g sc lv :
  let '(g', sc', lv') := clearAndMoveRows g sc lv in
  completeRows g' = [] ∧
  clearAndMoveRows g' sc' lv' = (g', sc', lv').
Proof.
  pose proof (clearAndMoveRows_no_complete g sc lv) as Hno.
  pose proof (clearAndMoveRows_eq g sc lv) as He. cbv zeta in He.
  destruct (clearAndMoveRows g sc lv) as [[g' sc'] lv']. cbn [fst] in Hno.
  split; [done|]. injection He as _ Hsc Hlv.
  rewrite clearAndMoveRows_eq, Hno, filter_incomplete_all by done.
  cbn [length replicate app]. rewrite Z.mul_0_r, Z.add_0_r.
  by rewrite Hlv, <- Hsc.
Qed.

(** ** The queued piece *)

(** X10. The queued piece is never read: whatever piece is queued, an event
    yields the same outcome, error or state, with the same flag, board,
    falling piece, score, level and seed; only the queued piece of the
    state returned can differ. *)
Theorem stateUpdater_ignores_nextBlock state q q0 movement seed :
  (λ '(s', seed'), (setNextBlock q0 s', seed')) <$>
    stateUpdater (setNextBlock q state) movement seed =
  (λ '(s', seed'), (setNextBlock q0 s', seed')) <$>
    stateUpdater state movement seed.
Proof.
  rewrite !stateUpdater_steps.
  change (movedBlock (setNextBlock q state) movement)
    with (movedBlock state movement).
  destruct (movedBlock state movement) as [block|e]; [|done].
  cbn [mbind result_bind]. unfold settle. cbn [setNextBlock grid score level].
  destruct (lockBlockChecker block (grid state)).
  - unfold lockBlock. cbn [setNextBlock grid].
    destruct (mergeBlockWithBlock (grid state) block) as [newGrid|e]; [|done].
    cbn [mbind result_bind].
    destruct (getRandomTetromino seed) as [nb sd].
    destruct (get newGrid 0) as [row0|]; [|done].
    destruct (some _ row0); [done|].
    destruct (reduce _ (shape block) newGrid); done.
  - case_bool_decide; [done|].
    destruct (clearAndMoveRows _ _ _) as [[? ?] ?]. done.
Qed.

(** ** Four rotations *)

Lemma transpose_at (R C : nat) (m : list (list Z)) (i j : nat) :
  rectangular R C m → (i < R)%nat → (j < C)%nat →
  transpose C m !! j ≫= (.!! i) = m !! i ≫= (.!! j).
Proof.
  intros Hrect. revert R Hrect i. induction m as [|row m IH]; intros R [HR Hrows] i Hi Hj.
  - cbn in HR. lia.
  - apply Forall_cons_1 in Hrows as [Hrow Hrows]. cbn [transpose].
    pose proof (transpose_rectangular (length m) C m (conj eq_refl Hrows)) as [HlenT _].
    destruct (lookup_lt_is_Some_2 row j) as [v Hv]; [lia|].
    destruct (lookup_lt_is_Some_2 (transpose C m) j) as [col Hcol]; [lia|].
    rewrite lookup_zip_with, Hv, Hcol. cbn [mbind option_bind].
    destruct i as [|i].
    + change (Some v = row !! j). done.
    + change (col !! i = m !! i ≫= (.!! j)).
      rewrite <- (IH (length m) (conj eq_refl Hrows) i) by (cbn in HR; lia).
      by rewrite Hcol.
Qed.

(** The cell at row [c], column [j] of the rotated shape is the cell at
    row [R - 1 - j], column [c] of the shape. *)
Lemma rotateClockwise_at (R C : nat) (m : list (list Z)) (c j : nat) :
  rectangular R C m → (c < C)%nat → (j < R)%nat →
  rotateClockwise_spec m !! c ≫= (.!! j) = m !! (R - 1 - j)%nat ≫= (.!! c).
Proof.
  intros Hrect Hc Hj. unfold rotateClockwise_spec.
  rewrite (rectangular_width R C m Hrect) by lia. rewrite Nat2Z.id.
  pose proof (transpose_rectangular R C m Hrect) as [HlenT Hcols].
  destruct (lookup_lt_is_Some_2 (transpose C m) c) as [col Hcol]; [lia|].
  pose proof (Forall_lookup_1 _ _ _ _ Hcols Hcol) as Hlen. cbn beta in Hlen.
  rewrite list_lookup_fmap, Hcol. cbn [fmap option_fmap option_map mbind option_bind].
  rewrite reverse_lookup by lia.
  rewrite <- (transpose_at R C m (R - 1 - j) c Hrect) by lia.
  rewrite Hcol. cbn [mbind option_bind]. f_equal. lia.
Qed.

Lemma rectangular_ext (R C : nat) (a b : list (list Z)) :
  rectangular R C a → rectangular R C b →
  (∀ i j : nat, (i < R)%nat → (j < C)%nat →
     a !! i ≫= (.!! j) = b !! i ≫= (.!! j)) →
  a = b.
Proof.
  intros [Ha Hra] [Hb Hrb] H. apply list_eq. intros i.
  destruct (decide (i < R)%nat) as [Hi|Hi].
  - destruct (lookup_lt_is_Some_2 a i) as [ra Hia]; [lia|].
    destruct (lookup_lt_is_Some_2 b i) as [rb Hib]; [lia|].
    rewrite Hia, Hib. f_equal. apply list_eq. intros j.
    pose proof (Forall_lookup_1 _ _ _ _ Hra Hia) as Hla.
    pose proof (Forall_lookup_1 _ _ _ _ Hrb Hib) as Hlb. cbn beta in Hla, Hlb.
    destruct (decide (j < C)%nat) as [Hj|Hj].
    + specialize (H i j Hi Hj). by rewrite Hia, Hib in H.
    + rewrite !lookup_ge_None_2 by lia. done.
  - rewrite !lookup_ge_None_2 by lia. done.
Qed.

(** X11. Four clockwise rotations give the shape back: [tetrominoRotation]
    applied four times to a matrix of [R] rows and [C] columns, neither of
    them 0, returns that matrix. *)
Theorem tetrominoRotation_four_times (R C : nat) (sh : list (list Z)) :
  rectangular R C sh → (0 < R)%nat → (0 < C)%nat →
  (sh1 ← tetrominoRotation sh; sh2 ← tetrominoRotation sh1;
   sh3 ← tetrominoRotation sh2; tetrominoRotation sh3) = Ok sh.
Proof.
  intros H0 HR HC.
  destruct (tetrominoRotation_spec R C sh H0 HR) as [-> H1]. cbn [mbind result_bind].
  destruct (tetrominoRotation_spec C R _ H1 HC) as [-> H2]. cbn [mbind result_bind].
  destruct (tetrominoRotation_spec R C _ H2 HR) as [-> H3]. cbn [mbind result_bind].
  destruct (tetrominoRotation_spec C R _ H3 HC) as [-> H4].
  f_equal. apply (rectangular_ext R C); [done..|]. intros i j Hi Hj.
  rewrite (rotateClockwise_at C R _ i j H3) by lia.
  rewrite (rotateClockwise_at R C _ (C - 1 - j) i H2) by lia.
  rewrite (rotateClockwise_at C R _ (R - 1 - i) (C - 1 - j) H1) by lia.
  rewrite (rotateClockwise_at R C _ (C - 1 - (C - 1 - j)) (R - 1 - i) H0) by lia.
  do 2 f_equal; lia.
Qed.

Lemma tetrominoRotation_four_times_witness :
  rectangular 2 3 [[0; 1; 0]; [1; 1; 1]] ∧ (0 < 2)%nat ∧ (0 < 3)%nat ∧
  (sh1 ← tetrominoRotation [[0; 1; 0]; [1; 1; 1]]; sh2 ← tetrominoRotation sh1;
   sh3 ← tetrominoRotation sh2; tetrominoRotation sh3) = Ok [[0; 1; 0]; [1; 1; 1]].
Proof.
  assert (H : rectangular 2 3 [[0; 1; 0]; [1; 1; 1]])
    by (split; [reflexivity | repeat first [apply List.Forall_nil | apply List.Forall_cons];
        reflexivity]).
  split; [exact H|]. split; [lia|]. split; [lia|].
  apply (tetrominoRotation_four_times 2 3 _ H); lia.
Defined.

(** ** What a lock writes *)

Lemma reduce_from_inv_idx {A B} (P : B → Prop) (f : B → A → Z → result B) a :
  ∀ i,
  (∀ acc (j : nat) v acc',
     a !! j = Some v → P acc → f acc v (i + Z.of_nat j) = Ok acc' → P acc') →
  ∀ acc r, P acc → reduce_from f i a acc = Ok r → P r.
Proof.
  induction a as [|w a IH]; intros i Hf acc r Hacc H; cbn in H.
  - by simplify_eq.
  - apply bind_Ok in H as (acc' & Hw & H).
    apply (IH (i + 1)) with (acc := acc'); [| |done].
    + intros acc0 j v acc1 Hj. specialize (Hf acc0 (S j) v acc1 Hj).
      by replace (i + Z.of_nat (S j)) with (i + 1 + Z.of_nat j) in Hf by lia.
    + apply (Hf acc 0%nat w acc'); [done|done|]. by rewrite Z.add_0_r.
Qed.

Lemma reduce_from_establish {A B} (E : A → Z → B → Prop)
    (f : B → A → Z → result B) :
  (∀ acc v k acc', f acc v k = Ok acc' → E v k acc') →
  (∀ v k acc w k' acc', E v k acc → f acc w k' = Ok acc' → E v k acc') →
  ∀ a i acc r, reduce_from f i a acc = Ok r →
    ∀ (j : nat) v, a !! j = Some v → E v (i + Z.of_nat j) r.
Proof.
  intros Hest Hkeep. induction a as [|w a IH]; intros i acc r H j v Hj.
  - by rewrite lookup_nil in Hj.
  - cbn in H. apply bind_Ok in H as (acc' & Hw & H). destruct j as [|j]; cbn in Hj.
    + injection Hj as <-. rewrite Z.add_0_r.
      revert H. apply (reduce_from_inv (E w i)); [|by eapply Hest].
      intros acc0 v k acc1. apply Hkeep.
    + replace (i + Z.of_nat (S j)) with (i + 1 + Z.of_nat j) by lia. by eapply IH.
Qed.

Lemma mergeCell_frame block sy acc cell sx acc' r c :
  mergeCell block sy acc cell sx = Ok acc' →
  (cell ≠ 0 → (r, c) ≠ (y block + sy, x block + sx)) →
  cellAt acc' r c = cellAt acc r c.
Proof.
  unfold mergeCell. intros H Hne.
  case_bool_decide as Hcell; [|by simplify_eq].
  destruct (_ && _) eqn:Hin; [|by simplify_eq].
  repeat (apply andb_prop in Hin as [Hin ?]). repeat case_bool_decide; try done.
  destruct (get acc _) as [row|] eqn:Hrow; [|done].
  destruct (get row _) as [w|] eqn:Hw; [|by simplify_eq].
  case_bool_decide; [|by simplify_eq]. simplify_eq.
  apply cellAt_write_ne; [done|lia|by apply Hne].
Qed.

Lemma lockCell_frame block sy acc cell sx acc' r c :
  lockCell block sy acc cell sx = Ok acc' →
  (cell ≠ 0 → (r, c) ≠ (y block + sy, x block + sx)) →
  cellAt acc' r c = cellAt acc r c.
Proof.
  unfold lockCell. intros H Hne.
  case_bool_decide as Hcell; [|by simplify_eq].
  destruct (get acc _) as [row|] eqn:Hrow; [|done].
  case_bool_decide; [|done]. simplify_eq.
  apply cellAt_write_ne; [done|lia|by apply Hne].
Qed.

Lemma lockCell_sets block sy acc cell sx acc' :
  lockCell block sy acc cell sx = Ok acc' → cell ≠ 0 →
  cellAt acc' (y block + sy) (x block + sx) = Some (color block).
Proof.
  unfold lockCell. intros H Hcell. rewrite bool_decide_eq_true_2 in H by done.
  destruct (get acc _) as [row|] eqn:Hrow; [|done].
  case_bool_decide; [|done]. simplify_eq. by apply cellAt_write_eq.
Qed.

Lemma lockCell_keeps_color block sy acc cell sx acc' r c :
  lockCell block sy acc cell sx = Ok acc' →
  cellAt acc r c = Some (color block) → cellAt acc' r c = Some (color block).
Proof.
  intros H Hc. destruct (decide ((r, c) = (y block + sy, x block + sx))) as [[= -> ->]|Hne].
  - destruct (decide (cell = 0)) as [->|Hcell].
    + unfold lockCell in H. rewrite bool_decide_eq_false_2 in H by naive_solver.
      by simplify_eq.
    + by eapply lockCell_sets.
  - rewrite (lockCell_frame block sy acc cell sx acc' r c H); [done|]. by intros _.
Qed.

(** The double [reduce] over the shape leaves the cells the piece does not
    cover as they were, for a cell callback that does. *)
Lemma shape_reduce_frame (cellf : Z → list (list Z) → Z → Z → result (list (list Z)))
    block g g' r c :
  (∀ sy acc cell sx acc',
     cellf sy acc cell sx = Ok acc' →
     (cell ≠ 0 → (r, c) ≠ (y block + sy, x block + sx)) →
     cellAt acc' r c = cellAt acc r c) →
  ¬ covers block r c →
  reduce (λ outerAcc row sy, reduce (cellf sy) row outerAcc) (shape block) g = Ok g' →
  cellAt g' r c = cellAt g r c.
Proof.
  intros Hcell Hno. unfold reduce.
  apply (reduce_from_inv_idx (λ acc, cellAt acc r c = cellAt g r c)); [|done].
  intros acc sy row acc' Hrow Hacc.
  apply (reduce_from_inv_idx (λ acc, cellAt acc r c = cellAt g r c)); [|done].
  intros acc0 sx cell acc1 Hsx Hacc0 H. rewrite <- Hacc0.
  eapply Hcell; [done|]. rewrite !Z.add_0_l.
  intros Hne [= -> ->]. apply Hno. by exists sy, sx, row, cell.
Qed.

Lemma lockCell_row_keeps_color block sy row acc acc' r c :
  reduce_from (lockCell block sy) 0 row acc = Ok acc' →
  cellAt acc r c = Some (color block) → cellAt acc' r c = Some (color block).
Proof.
  intros H Hc. revert H.
  apply (reduce_from_inv (λ g, cellAt g r c = Some (color block))); [|done].
  intros acc0 v i acc1 Hacc0 Hv. by eapply lockCell_keeps_color.
Qed.

Lemma lockCell_row_sets block sy row acc acc' (sx : nat) cell :
  reduce_from (lockCell block sy) 0 row acc = Ok acc' →
  row !! sx = Some cell → cell ≠ 0 →
  cellAt acc' (y block + sy) (x block + Z.of_nat sx) = Some (color block).
Proof.
  intros H Hsx Hne.
  pose proof (reduce_from_establish
    (λ cell sx g, cell ≠ 0 →
       cellAt g (y block + sy) (x block + sx) = Some (color block))
    (lockCell block sy)) as Hin.
  cbn beta in Hin.
  assert (Hest : ∀ acc0 v k acc1, lockCell block sy acc0 v k = Ok acc1 → v ≠ 0 →
            cellAt acc1 (y block + sy) (x block + k) = Some (color block)).
  { intros acc0 v k acc1 Hv Hv0. by eapply lockCell_sets. }
  assert (Hkeep : ∀ v k acc0 w k' acc1,
            (v ≠ 0 → cellAt acc0 (y block + sy) (x block + k) = Some (color block)) →
            lockCell block sy acc0 w k' = Ok acc1 → v ≠ 0 →
            cellAt acc1 (y block + sy) (x block + k) = Some (color block)).
  { intros v k acc0 w k' acc1 Hv Hw Hv0.
    apply (lockCell_keeps_color block sy acc0 w k' acc1 _ _ Hw). by apply Hv. }
  pose proof (Hin Hest Hkeep row 0 acc acc' H sx cell Hsx Hne) as HE.
  by rewrite Z.add_0_l in HE.
Qed.

Lemma lockWrite_sets g block lockedGrid r c :
  lockWrite g block = Ok lockedGrid → covers block r c →
  cellAt lockedGrid r c = Some (color block).
Proof.
  intros H (sy & sx & row & cell & Hrow & Hcell & Hne & -> & ->).
  unfold lockWrite, reduce in H.
  pose proof (reduce_from_establish
    (λ row sy g, ∀ (sx : nat) cell, row !! sx = Some cell → cell ≠ 0 →
       cellAt g (y block + sy) (x block + Z.of_nat sx) = Some (color block))
    (λ gridAcc row sy, reduce_from (lockCell block sy) 0 row gridAcc)) as Hout.
  cbn beta in Hout.
  assert (Hest : ∀ acc (row' : list Z) k acc',
            reduce_from (lockCell block k) 0 row' acc = Ok acc' →
            ∀ (sx' : nat) (cell' : Z), row' !! sx' = Some cell' → cell' ≠ 0 →
              cellAt acc' (y block + k) (x block + Z.of_nat sx') = Some (color block)).
  { intros acc row' k acc' Hk sx' cell' Hsx' Hne'.
    exact (lockCell_row_sets block k row' acc acc' sx' cell' Hk Hsx' Hne'). }
  assert (Hkeep : ∀ (row' : list Z) k acc (w : list Z) k' acc',
            (∀ (sx' : nat) (cell' : Z), row' !! sx' = Some cell' → cell' ≠ 0 →
               cellAt acc (y block + k) (x block + Z.of_nat sx') = Some (color block)) →
            reduce_from (lockCell block k') 0 w acc = Ok acc' →
            ∀ (sx' : nat) (cell' : Z), row' !! sx' = Some cell' → cell' ≠ 0 →
              cellAt acc' (y block + k) (x block + Z.of_nat sx') = Some (color block)).
  { intros row' k acc w k' acc' Hk Hw sx' cell' Hsx' Hne'.
    apply (lockCell_row_keeps_color block k' w acc acc' _ _ Hw).
    exact (Hk sx' cell' Hsx' Hne'). }
  pose proof (Hout Hest Hkeep (shape block) 0 g lockedGrid H sy row Hrow
                sx cell Hcell Hne) as HE.
  by rewrite Z.add_0_l in HE.
Qed.

(** X12. After a lock that does not end the game, the board of the state
    returned differs from the board before in the cells the piece covers
    and in no other: each covered cell holds the colour of the piece, each
    other cell what it held. *)
Theorem lockBlock_board state block seed s' seed' :
  lockBlock state block seed = Ok (s', seed') →
  s' ≠ endGame state →
  ∀ r c,
    (covers block r c → cellAt (grid s') r c = Some (color block)) ∧
    (¬ covers block r c → cellAt (grid s') r c = cellAt (grid state) r c).
Proof.
  intros H Hrun.
  apply lockBlock_Ok in H
    as (newGrid & row0 & Hm & H0 & -> & [[_ ->]|[_ (lg & Hw & ->)]]); [done|].
  cbn [grid]. intros r c. split.
  - intros Hcov. by eapply lockWrite_sets.
  - intros Hno. transitivity (cellAt newGrid r c).
    + eapply (shape_reduce_frame (lockCell block)); [|done|exact Hw].
      intros sy acc cell sx acc'. apply lockCell_frame.
    + eapply (shape_reduce_frame (mergeCell block)); [|done|exact Hm].
      intros sy acc cell sx acc'. apply mergeCell_frame.
Qed.

Lemma lockBlock_board_witness :
  let s' := {| gameEnd := false;
               grid := replicate 15 emptyRow ++
                       replicate 2 [0; 0; 0; 0; 1; 1; 0; 0; 0; 0] ++
                       replicate 3 [0; 0; 0; 0; 2; 0; 0; 0; 0; 0];
               fallingBlock := pieceI 4 0; nextBlock := pieceI 4 0;
               score := 0; level := 1 |} in
  lockBlock exBeside (pieceO 4 15) 0 = Ok (s', 1013904223%N) ∧
  s' ≠ endGame exBeside ∧
  ∀ r c,
    (covers (pieceO 4 15) r c → cellAt (grid s') r c = Some (color (pieceO 4 15))) ∧
    (¬ covers (pieceO 4 15) r c → cellAt (grid s') r c = cellAt (grid exBeside) r c).
Proof.
  intros s'.
  assert (H : lockBlock exBeside (pieceO 4 15) 0 = Ok (s', 1013904223%N))
    by (vm_compute; reflexivity).
  assert (Hne : s' ≠ endGame exBeside) by discriminate.
  split; [exact H|]. split; [exact Hne|].
  exact (lockBlock_board exBeside (pieceO 4 15) 0 s' 1013904223%N H Hne).
Defined.

(** ** Where the merge and the lock-in write fail *)

(** A [reduce] whose callback fails on the elements a test marks, and on
    no other, fails when the test marks an element and returns otherwise. *)
Lemma reduce_from_marked {A B} (P : B → Prop) (bad : A → Z → bool) (e0 : error)
    (f : B → A → Z → result B) :
  (∀ acc v k, P acc →
     if bad v k then f acc v k = Err e0
     else ∃ acc', f acc v k = Ok acc' ∧ P acc') →
  ∀ a i acc, P acc →
    if some_from bad i a then reduce_from f i a acc = Err e0
    else ∃ r, reduce_from f i a acc = Ok r ∧ P r.
Proof.
  intros Hf. induction a as [|w a IH]; intros i acc Hacc; cbn [some_from reduce_from].
  - by exists acc.
  - specialize (Hf acc w i Hacc). destruct (bad w i); cbn [orb].
    + by rewrite Hf.
    + destruct Hf as (acc' & -> & Hacc'). cbn [mbind result_bind]. by apply IH.
Qed.

(** The occupied cells of the piece that the row test of the merge admits
    although the board has no such row. *)
Lemma mergeCell_marked block sy acc cell sx :
  wfGrid acc →
  if bool_decide (cell ≠ 0) && bool_decide (y block + sy = GRID_HEIGHT)
     && bool_decide (0 ≤ x block + sx < GRID_WIDTH)
  then mergeCell block sy acc cell sx = Err TypeError
  else ∃ acc', mergeCell block sy acc cell sx = Ok acc' ∧ wfGrid acc'.
Proof.
  intros Hwf. unfold mergeCell.
  case_bool_decide as Hcell; cbn [andb]; [|by exists acc].
  case_bool_decide as Hy; cbn [andb].
  - case_bool_decide as Hx.
    + rewrite Hy. unfold GRID_HEIGHT, GRID_WIDTH in *.
      rewrite !bool_decide_eq_true_2 by lia. cbn [andb].
      destruct (get acc 20) as [row|] eqn:Hrow; [|done].
      apply get_lt in Hrow. destruct Hwf as [Hlen _]. rewrite Hlen in Hrow.
      unfold GRID_HEIGHT in Hrow. lia.
    + destruct (_ && _) eqn:Hin; [|by exists acc]. exfalso.
      repeat (apply andb_prop in Hin as [Hin ?]). repeat case_bool_decide; try done.
      unfold GRID_WIDTH in *. lia.
  - destruct (_ && _) eqn:Hin; [|by exists acc].
    repeat (apply andb_prop in Hin as [Hin ?]). repeat case_bool_decide; try done.
    destruct (wfGrid_get acc (y block + sy) Hwf) as (row & Hrow & Hlen);
      [unfold GRID_HEIGHT in *; lia|].
    rewrite Hrow. destruct (get row _) as [w|]; [|by exists acc].
    case_bool_decide; [|by exists acc].
    eexists. split; [done|]. by apply wfGrid_write.
Qed.

(** X13. On a board of 20 rows of 10 cells [mergeBlockWithBlock] throws exactly
    when the piece has an occupied cell in row 20, one row below the
    board, between the walls; in every other case it returns a board of 20
    rows of 10 cells.  Cells further below, above the board or outside the
    walls are passed over. *)
Theorem mergeBlockWithBlock_throws g block :
  wfGrid g →
  (mergeBlockWithBlock g block = Err TypeError ↔
   ∃ c, covers block GRID_HEIGHT c ∧ 0 ≤ c < GRID_WIDTH) ∧
  ((¬ ∃ c, covers block GRID_HEIGHT c ∧ 0 ≤ c < GRID_WIDTH) →
   ∃ newGrid, mergeBlockWithBlock g block = Ok newGrid ∧ wfGrid newGrid).
Proof.
  intros Hwf.
  set (badCell := λ (sy cell sx : Z),
         bool_decide (cell ≠ 0) && bool_decide (y block + sy = GRID_HEIGHT)
         && bool_decide (0 ≤ x block + sx < GRID_WIDTH)).
  set (badRow := λ (row : list Z) (sy : Z), some_from (badCell sy) 0 row).
  assert (Hmarked :
    if some_from badRow 0 (shape block) then mergeBlockWithBlock g block = Err TypeError
    else ∃ newGrid, mergeBlockWithBlock g block = Ok newGrid ∧ wfGrid newGrid).
  { unfold mergeBlockWithBlock, reduce.
    apply (reduce_from_marked wfGrid badRow TypeError); [|done].
    intros acc row sy Hacc. unfold badRow.
    apply (reduce_from_marked wfGrid (badCell sy) TypeError); [|done].
    intros acc0 cell sx Hacc0. by apply mergeCell_marked. }
  assert (Hbad : some_from badRow 0 (shape block) = true ↔
                 ∃ c, covers block GRID_HEIGHT c ∧ 0 ≤ c < GRID_WIDTH).
  { rewrite some_from_true. split.
    - intros (sy & row & Hrow & H). unfold badRow in H.
      apply some_from_true in H as (sx & cell & Hcell & H). unfold badCell in H.
      rewrite !Z.add_0_l in H.
      apply andb_prop in H as [H Hx]. apply andb_prop in H as [Hne Hy].
      apply bool_decide_eq_true_1 in Hx, Hy, Hne.
      exists (x block + Z.of_nat sx). split; [|done].
      exists sy, sx, row, cell. by rewrite Hy.
    - intros (c & (sy & sx & row & cell & Hrow & Hcell & Hne & Hy & ->) & Hc).
      exists sy, row. split; [done|]. unfold badRow. apply some_from_true.
      exists sx, cell. split; [done|]. unfold badCell. rewrite !Z.add_0_l.
      by rewrite !bool_decide_eq_true_2. }
  destruct (some_from badRow 0 (shape block)).
  - split; [by rewrite Hmarked, <- Hbad|].
    intros Hno. exfalso. apply Hno. by apply Hbad.
  - split; [|done]. destruct Hmarked as (newGrid & -> & _). split; [done|].
    intros H%Hbad. done.
Qed.

Lemma mergeBlockWithBlock_throws_witness :
  wfGrid emptyGrid ∧
  (mergeBlockWithBlock emptyGrid (pieceO 4 19) = Err TypeError ↔
   ∃ c, covers (pieceO 4 19) GRID_HEIGHT c ∧ 0 ≤ c < GRID_WIDTH) ∧
  mergeBlockWithBlock emptyGrid (pieceO 4 19) = Err TypeError ∧
  ((¬ ∃ c, covers (pieceO 4 19) GRID_HEIGHT c ∧ 0 ≤ c < GRID_WIDTH) →
   ∃ newGrid, mergeBlockWithBlock emptyGrid (pieceO 4 19) = Ok newGrid ∧ wfGrid newGrid).
Proof.
  destruct (mergeBlockWithBlock_throws emptyGrid (pieceO 4 19) wfGrid_emptyGrid)
    as [Hiff Hok].
  split; [exact wfGrid_emptyGrid|]. split; [exact Hiff|].
  split; [vm_compute; reflexivity|exact Hok].
Defined.

Lemma lockWrite_wfGrid g block lockedGrid :
  wfGrid g → lockWrite g block = Ok lockedGrid → wfGrid lockedGrid.
Proof.
  intros Hwf. unfold lockWrite, reduce.
  apply (reduce_from_inv wfGrid); [|done].
  intros acc row sy acc' Hacc. apply (reduce_from_inv wfGrid); [|done].
  intros acc0 cell sx acc1 Hacc0. unfold lockCell.
  case_bool_decide; [|by intros [= <-]].
  destruct (get acc0 _) as [grow|] eqn:Hrow; [|done].
  case_bool_decide; [|done]. intros [= <-]. by apply wfGrid_write.
Qed.

Lemma reduce_from_marked_idx {A B} (P : B → Prop) (bad : A → Z → bool)
    (e0 : error) (f : B → A → Z → result B) a :
  ∀ i,
  (∀ acc (j : nat) v, a !! j = Some v → P acc →
     if bad v (i + Z.of_nat j) then f acc v (i + Z.of_nat j) = Err e0
     else ∃ acc', f acc v (i + Z.of_nat j) = Ok acc' ∧ P acc') →
  ∀ acc, P acc →
    if some_from bad i a then reduce_from f i a acc = Err e0
    else ∃ r, reduce_from f i a acc = Ok r ∧ P r.
Proof.
  induction a as [|w a IH]; intros i Hf acc Hacc; cbn [some_from reduce_from].
  - by exists acc.
  - pose proof (Hf acc 0%nat w eq_refl Hacc) as Hw. rewrite Z.add_0_r in Hw.
    destruct (bad w i); cbn [orb].
    + by rewrite Hw.
    + destruct Hw as (acc' & -> & Hacc'). cbn [mbind result_bind].
      apply IH; [|done]. intros acc0 j v Hj.
      replace (i + 1 + Z.of_nat j) with (i + Z.of_nat (S j)) by lia.
      by apply Hf.
Qed.

(** The lock-in write on a cell whose column is inside the row: it throws on
    an occupied cell whose row the board does not have, and on no other. *)
Lemma lockCell_marked block sy acc cell sx :
  wfGrid acc →
  (cell ≠ 0 → 0 ≤ x block + sx < GRID_WIDTH) →
  if bool_decide (cell ≠ 0) && negb (bool_decide (0 ≤ y block + sy < GRID_HEIGHT))
  then lockCell block sy acc cell sx = Err TypeError
  else ∃ acc', lockCell block sy acc cell sx = Ok acc' ∧ wfGrid acc'.
Proof.
  intros Hwf Hx. case_bool_decide as Hcell; cbn [andb].
  - case_bool_decide as Hy; cbn [negb].
    + apply lockCell_total; [done|]. intros _. split; [done|by apply Hx].
    + unfold lockCell. rewrite bool_decide_eq_true_2 by done.
      destruct (get acc _) as [row|] eqn:Hrow; [|done].
      apply get_lt in Hrow. destruct Hwf as [Hlen _]. rewrite Hlen in Hrow.
      unfold GRID_HEIGHT in *. lia.
  - apply lockCell_total; [done|]. by intros ?.
Qed.

(** X14. The lock-in write of [lockBlock] checks no row.  On a board of 20
    rows of 10 cells, for a piece whose occupied cells lie between the
    walls, it throws exactly when an occupied cell of the piece lies in a
    row the board does not have, above row 0 or below row 19, and it
    returns a board of 20 rows of 10 cells exactly when the piece lies
    inside the board. *)
Theorem lockWrite_throws g block :
  wfGrid g →
  (∀ r c, covers block r c → 0 ≤ c < GRID_WIDTH) →
  (lockWrite g block = Err TypeError ↔
   ∃ r c, covers block r c ∧ ¬ 0 ≤ r < GRID_HEIGHT) ∧
  ((∃ lockedGrid, lockWrite g block = Ok lockedGrid ∧ wfGrid lockedGrid) ↔
   inBoard block).
Proof.
  intros Hwf Hcols.
  set (badCell := λ (sy cell sx : Z),
         bool_decide (cell ≠ 0) && negb (bool_decide (0 ≤ y block + sy < GRID_HEIGHT))).
  set (badRow := λ (row : list Z) (sy : Z), some_from (badCell sy) 0 row).
  assert (Hmarked :
    if some_from badRow 0 (shape block) then lockWrite g block = Err TypeError
    else ∃ lockedGrid, lockWrite g block = Ok lockedGrid ∧ wfGrid lockedGrid).
  { unfold lockWrite, reduce.
    apply (reduce_from_marked_idx wfGrid badRow TypeError); [|done].
    intros acc sy row Hrow Hacc. unfold badRow.
    apply (reduce_from_marked_idx wfGrid (badCell (0 + Z.of_nat sy)) TypeError); [|done].
    intros acc0 sx cell Hcell Hacc0. apply lockCell_marked; [done|].
    intros Hne. rewrite !Z.add_0_l.
    apply (Hcols (y block + Z.of_nat sy)). by exists sy, sx, row, cell. }
  assert (Hbad : some_from badRow 0 (shape block) = true ↔
                 ∃ r c, covers block r c ∧ ¬ 0 ≤ r < GRID_HEIGHT).
  { rewrite some_from_true. split.
    - intros (sy & row & Hrow & H). unfold badRow in H.
      apply some_from_true in H as (sx & cell & Hcell & H). unfold badCell in H.
      rewrite !Z.add_0_l in H. apply andb_prop in H as [Hne Hy].
      apply bool_decide_eq_true_1 in Hne. apply negb_true_iff in Hy.
      apply bool_decide_eq_false_1 in Hy.
      exists (y block + Z.of_nat sy), (x block + Z.of_nat sx). split; [|done].
      by exists sy, sx, row, cell.
    - intros (r & c & (sy & sx & row & cell & Hrow & Hcell & Hne & -> & ->) & Hr).
      exists sy, row. split; [done|]. unfold badRow. apply some_from_true.
      exists sx, cell. split; [done|]. unfold badCell. rewrite !Z.add_0_l.
      rewrite bool_decide_eq_true_2, bool_decide_eq_false_2 by done. done. }
  assert (Hin : inBoard block ↔ ¬ ∃ r c, covers block r c ∧ ¬ 0 ≤ r < GRID_HEIGHT).
  { split.
    - intros Hin (r & c & (sy & sx & row & cell & Hrow & Hcell & Hne & -> & ->) & Hr).
      apply Hr. by apply (Hin sy sx row cell).
    - intros Hno sy sx row cell Hrow Hcell Hne.
      assert (Hcov : covers block (y block + Z.of_nat sy) (x block + Z.of_nat sx))
        by (by exists sy, sx, row, cell).
      split; [|by apply (Hcols _ _ Hcov)].
      destruct (decide (0 ≤ y block + Z.of_nat sy < GRID_HEIGHT)) as [|Hr]; [done|].
      exfalso. apply Hno. eauto. }
  destruct (some_from badRow 0 (shape block)).
  - split; [by rewrite Hmarked, <- Hbad|].
    rewrite Hmarked, Hin, <- Hbad. split; [by intros (? & ? & _)|]. by intros [].
  - destruct Hmarked as (lg & Heq & Hlg). rewrite Heq. split.
    + rewrite <- Hbad. split; done.
    + rewrite Hin, <- Hbad. split; [by intros _ ?|]. intros _. by exists lg.
Qed.

Lemma lockWrite_throws_witness :
  wfGrid emptyGrid ∧
  (∀ r c, covers (pieceO 4 (-1)) r c → 0 ≤ c < GRID_WIDTH) ∧
  lockWrite emptyGrid (pieceO 4 (-1)) = Err TypeError ∧
  (∃ r c, covers (pieceO 4 (-1)) r c ∧ ¬ 0 ≤ r < GRID_HEIGHT) ∧
  ((∃ lockedGrid, lockWrite emptyGrid (pieceO 4 (-1)) = Ok lockedGrid ∧ wfGrid lockedGrid)
   ↔ inBoard (pieceO 4 (-1))).
Proof.
  assert (Hcols : ∀ r c, covers (pieceO 4 (-1)) r c → 0 ≤ c < GRID_WIDTH).
  { intros r c (sy & sx & row & cell & Hrow & Hcell & _ & _ & ->).
    unfold GRID_WIDTH. cbn in *.
    destruct sy as [|[|sy]]; cbn in Hrow; simplify_eq;
      destruct sx as [|[|sx]]; cbn in Hcell; simplify_eq; lia. }
  destruct (lockWrite_throws emptyGrid (pieceO 4 (-1)) wfGrid_emptyGrid Hcols)
    as [Hthrow Hok].
  assert (Herr : lockWrite emptyGrid (pieceO 4 (-1)) = Err TypeError)
    by (vm_compute; reflexivity).
  split; [exact wfGrid_emptyGrid|]. split; [exact Hcols|]. split; [exact Herr|].
  split; [exact (proj1 Hthrow Herr)|exact Hok].
Defined.

(** ** The generator on doubles *)

Section double_arithmetic.
Local Open Scope N_scope.

Lemma pow2_pos k : 0 < 2 ^ k.
Proof. apply N.neq_0_lt_0, N.pow_nonzero. lia. Qed.

Lemma pow2_divide a b : a ≤ b → N.divide (2 ^ a) (2 ^ b).
Proof.
  intros H. exists (2 ^ (b - a)). rewrite <- N.pow_add_r. f_equal. lia.
Qed.

Lemma pow2_le a b : a ≤ b → 2 ^ a ≤ 2 ^ b.
Proof. intros H. apply N.pow_le_mono_r; lia. Qed.

Lemma isDouble_divide n :
  Double.isDouble n = true ↔ N.divide (2 ^ (N.log2 n - 52)) n.
Proof.
  unfold Double.isDouble. rewrite N.eqb_eq. apply N.Lcm0.mod_divide.
Qed.

(** A multiple of the step that is not above [n] is not above [n] cut down to
    the step; one above [n] is not below the next step. *)
Lemma multiple_le_floor g x n :
  g ≠ 0 → N.divide g x → x ≤ n → x ≤ n / g * g.
Proof.
  intros Hg [j ->] Hle. apply N.mul_le_mono_r.
  apply N.div_le_lower_bound; [done|]. lia.
Qed.

Lemma multiple_gt_ceil g x n :
  g ≠ 0 → N.divide g x → n < x → (n / g + 1) * g ≤ x.
Proof.
  intros Hg [j ->] Hlt. apply N.mul_le_mono_r.
  assert (n / g < j); [|lia].
  apply N.Div0.div_lt_upper_bound. lia.
Qed.

(** A number of at most 53 significant bits is a double. *)
Lemma isDouble_mantissa M e : M ≤ 2 ^ 53 → Double.isDouble (M * 2 ^ e) = true.
Proof.
  intros HM. apply isDouble_divide.
  destruct (N.eq_dec M 0) as [->|HM0].
  { rewrite N.mul_0_l. apply N.divide_0_r. }
  destruct (N.eq_dec M (2 ^ 53)) as [->|Hne].
  - rewrite <- N.pow_add_r, N.log2_pow2 by lia. apply pow2_divide. lia.
  - assert (Hlt : M * 2 ^ e < 2 ^ (53 + e)).
    { rewrite N.pow_add_r. apply N.mul_lt_mono_pos_r; [apply pow2_pos|lia]. }
    apply N.log2_lt_pow2 in Hlt; [|pose proof (pow2_pos e); nia].
    apply N.divide_mul_r. apply pow2_divide. lia.
Qed.

(** The two neighbours of [n] on its step, and the one [roundTo] takes. *)
Lemma roundTo_1_cases n :
  let g := 2 ^ (N.log2 n - 52) in
  let q := n / g in
  let r := n mod g in
  n = q * g + r ∧ r < g ∧ q < 2 ^ 53 ∧
  ((Double.roundTo n 1 = q * g ∧ 2 * r ≤ g) ∨
   (Double.roundTo n 1 = (q + 1) * g ∧ g ≤ 2 * r)).
Proof.
  intros g q r.
  assert (Hg : g ≠ 0) by (apply N.pow_nonzero; lia).
  assert (Hn : n = q * g + r).
  { subst q r. rewrite (N.mul_comm (n / g)). by apply N.div_mod. }
  assert (Hr : r < g) by (by apply N.mod_lt).
  assert (Hq : q < 2 ^ 53).
  { apply N.Div0.div_lt_upper_bound.
    destruct (N.eq_dec n 0) as [->|Hn0]; [pose proof (pow2_pos 53); nia|].
    destruct (N.log2_spec n) as [_ Hup]; [lia|].
    eapply N.lt_le_trans; [exact Hup|]. subst g. rewrite <- N.pow_add_r.
    apply pow2_le. lia. }
  split; [done|]. split; [done|]. split; [done|].
  unfold Double.roundTo. rewrite N.div_1_r, N.mul_1_l. fold g. fold q. fold r.
  destruct (N.ltb_spec (2 * r) g); [left; split; [done|lia]|].
  destruct (N.ltb_spec g (2 * r)); [right; split; [done|lia]|].
  destruct (N.even q); [left|right]; split; (done || lia).
Qed.

Lemma roundTo_isDouble n : Double.isDouble (Double.roundTo n 1) = true.
Proof.
  destruct (roundTo_1_cases n) as (_ & _ & Hq & [[-> _]|[-> _]]);
    apply isDouble_mantissa; lia.
Qed.

Lemma roundTo_double n : Double.isDouble n = true → Double.roundTo n 1 = n.
Proof.
  intros Hd. destruct (roundTo_1_cases n) as (Hn & Hr & _ & H).
  apply isDouble_divide, N.Lcm0.mod_divide in Hd.
  rewrite Hd, N.add_0_r in *. pose proof (pow2_pos (N.log2 n - 52)).
  destruct H as [[-> _]|[_ ?]]; [by symmetry|lia].
Qed.

(** Rounding moves less than half a step. *)
Lemma roundTo_near n :
  let g := 2 ^ (N.log2 n - 52) in
  2 * n ≤ 2 * Double.roundTo n 1 + g ∧ 2 * Double.roundTo n 1 ≤ 2 * n + g.
Proof.
  intros g. destruct (roundTo_1_cases n) as (Hn & Hr & _ & H). fold g in Hn, Hr, H.
  generalize dependent (n / g). generalize dependent (n mod g). clearbody g.
  intros r Hr q Hn [[-> ?]|[-> ?]]; lia.
Qed.

(** Rounding does not cross a double. *)
Lemma roundTo_ge b n :
  Double.isDouble b = true → b ≤ n → b ≤ Double.roundTo n 1.
Proof.
  intros Hb Hle.
  destruct (N.eq_dec b 0) as [->|Hb0]; [lia|].
  destruct (roundTo_1_cases n) as (Hn & Hr & _ & H).
  set (g := 2 ^ (N.log2 n - 52)) in *.
  assert (Hg : g ≠ 0) by (apply N.pow_nonzero; lia).
  assert (b ≤ n / g * g); [|destruct H as [[-> _]|[-> _]]; lia].
  pose proof (N.log2_le_mono b n Hle) as Hlog.
  destruct (N.eq_dec (N.log2 b) (N.log2 n)) as [Heq|Hne].
  - apply multiple_le_floor; [done| |done].
    apply isDouble_divide in Hb. by rewrite Heq in Hb.
  - destruct (N.log2_spec b) as [_ Hup]; [lia|].
    destruct (N.log2_spec n) as [Hlow _]; [lia|].
    assert (b ≤ 2 ^ N.log2 n).
    { apply N.lt_le_incl. eapply N.lt_le_trans; [exact Hup|]. apply pow2_le. lia. }
    etrans; [done|]. apply multiple_le_floor; [done| |done].
    apply pow2_divide. lia.
Qed.

Lemma roundTo_le b n :
  Double.isDouble b = true → n ≤ b → Double.roundTo n 1 ≤ b.
Proof.
  intros Hb Hle.
  destruct (roundTo_1_cases n) as (Hn & Hr & _ & H).
  set (g := 2 ^ (N.log2 n - 52)) in *.
  assert (Hg : g ≠ 0) by (apply N.pow_nonzero; lia).
  destruct (N.eq_dec (n mod g) 0) as [H0|Hne].
  { rewrite H0 in *. destruct H as [[-> _]|[_ ?]]; lia. }
  assert (Hdiv : N.divide g b).
  { apply isDouble_divide in Hb. etrans; [|exact Hb]. apply pow2_divide.
    pose proof (N.log2_le_mono n b Hle). lia. }
  assert (n ≠ b).
  { intros ->. by apply N.Lcm0.mod_divide in Hdiv. }
  assert ((n / g + 1) * g ≤ b) by (apply multiple_gt_ceil; [done|done|lia]).
  destruct H as [[-> _]|[-> _]]; lia.
Qed.

(** The quotient [num / den] is rounded whatever the scale of the two. *)
Lemma roundTo_scale p e d :
  e ≠ 0 → d ≠ 0 → Double.roundTo (p * d) (e * d) = Double.roundTo p e.
Proof.
  intros He Hd. unfold Double.roundTo.
  rewrite N.Div0.div_mul_cancel_r by done.
  set (k := N.log2 (p / e) - 52).
  assert (Hk : 2 ^ k ≠ 0) by (apply N.pow_nonzero; lia).
  replace (e * d * 2 ^ k) with (e * 2 ^ k * d) by lia.
  rewrite N.Div0.div_mul_cancel_r by lia.
  rewrite N.Div0.mul_mod_distr_r.
  set (r := p mod (e * 2 ^ k)). set (step := e * 2 ^ k).
  assert (H1 : (2 * (r * d) <? step * d) = (2 * r <? step)).
  { destruct (N.ltb_spec (2 * r) step), (N.ltb_spec (2 * (r * d)) (step * d)); try done; nia. }
  assert (H2 : (step * d <? 2 * (r * d)) = (step <? 2 * r)).
  { destruct (N.ltb_spec step (2 * r)), (N.ltb_spec (step * d) (2 * (r * d))); try done; nia. }
  by rewrite H1, H2.
Qed.

(** The remainder by a power of two, and the exact quotient by one, of a
    double are doubles. *)
Lemma isDouble_mod_pow2 n j :
  Double.isDouble n = true → Double.isDouble (n mod 2 ^ j) = true.
Proof.
  intros Hd. destruct (N.lt_ge_cases n (2 ^ j)) as [Hlt|Hge].
  { by rewrite N.mod_small. }
  assert (Hn0 : n ≠ 0) by (pose proof (pow2_pos j); lia).
  assert (Hj : j ≤ N.log2 n) by (apply N.log2_le_pow2; lia).
  apply isDouble_divide in Hd as [M HM].
  set (k := N.log2 n - 52) in *.
  destruct (N.le_gt_cases j k) as [Hjk|Hjk].
  - replace (n mod 2 ^ j) with 0; [done|]. symmetry. apply N.Lcm0.mod_divide.
    rewrite HM. apply N.divide_mul_r. by apply pow2_divide.
  - replace (2 ^ j) with (2 ^ (j - k) * 2 ^ k)
      by (rewrite <- N.pow_add_r; f_equal; lia).
    rewrite HM, N.Div0.mul_mod_distr_r. apply isDouble_mantissa.
    assert (M mod 2 ^ (j - k) < 2 ^ (j - k))
      by (apply N.mod_lt, N.pow_nonzero; lia).
    assert (2 ^ (j - k) ≤ 2 ^ 53) by (apply pow2_le; lia). lia.
Qed.

Lemma isDouble_div_pow2 w j :
  Double.isDouble (w * 2 ^ j) = true → Double.isDouble w = true.
Proof.
  intros Hd. apply isDouble_divide.
  destruct (N.eq_dec w 0) as [->|Hw]; [apply N.divide_0_r|].
  apply isDouble_divide in Hd.
  rewrite N.log2_mul_pow2 in Hd by lia.
  destruct (N.le_gt_cases (N.log2 w) 52) as [Hs|Hs].
  { replace (N.log2 w - 52) with 0 by lia. apply N.divide_1_l. }
  replace (j + N.log2 w - 52) with ((N.log2 w - 52) + j) in Hd by lia.
  rewrite N.pow_add_r in Hd.
  apply N.mul_divide_cancel_r in Hd; [done|]. apply N.pow_nonzero. lia.
Qed.

(** The largest double below a power of two. *)
Lemma isDouble_below_pow2 n j :
  Double.isDouble n = true → n < 2 ^ j → 53 ≤ j → n + 2 ^ (j - 53) ≤ 2 ^ j.
Proof.
  intros Hd Hlt Hj.
  assert (Hhalf : 2 ^ j = 2 * 2 ^ (j - 1)).
  { rewrite <- (N.pow_succ_r' 2). f_equal. lia. }
  assert (Hsmall : 2 ^ (j - 53) ≤ 2 ^ (j - 1)) by (apply pow2_le; lia).
  destruct (N.eq_dec n 0) as [->|Hn0]; [lia|].
  assert (HL : N.log2 n < j) by (apply N.log2_lt_pow2; lia).
  destruct (N.eq_dec (N.log2 n) (j - 1)) as [Heq|Hne].
  - apply isDouble_divide in Hd as [M HM].
    replace (N.log2 n - 52) with (j - 53) in HM by lia.
    assert (H53 : 2 ^ j = 2 ^ 53 * 2 ^ (j - 53))
      by (rewrite <- N.pow_add_r; f_equal; lia).
    pose proof (pow2_pos (j - 53)).
    assert (M < 2 ^ 53) by nia. nia.
  - destruct (N.log2_spec n) as [_ Hup]; [lia|].
    assert (2 ^ N.succ (N.log2 n) ≤ 2 ^ (j - 1)) by (apply pow2_le; lia). lia.
Qed.

Lemma isDouble_above_pow2 n e :
  Double.isDouble n = true → 2 ^ e ≤ n → N.divide (2 ^ (e - 52)) n.
Proof.
  intros Hd Hle. apply isDouble_divide in Hd.
  etrans; [|exact Hd]. apply pow2_divide.
  assert (e ≤ N.log2 n); [|lia].
  apply N.log2_le_pow2; [|done]. pose proof (pow2_pos e). lia.
Qed.

End double_arithmetic.

Section double_generator.
Local Open Scope N_scope.

Lemma one_units : Double.one = 9007199254740992 * 2 ^ 1021.
Proof. reflexivity. Qed.

Lemma fmul_ofInt_l k x : Double.fmul (Double.ofInt k) x = Double.roundTo (k * x) 1.
Proof.
  unfold Double.fmul, Double.ofInt.
  replace (k * Double.one * x) with (k * x * Double.one) by lia.
  rewrite <- (N.mul_1_l Double.one) at 2. by apply roundTo_scale.
Qed.

Lemma fmul_ofInt_r x k : Double.fmul x (Double.ofInt k) = Double.roundTo (x * k) 1.
Proof.
  unfold Double.fmul, Double.ofInt.
  replace (x * (k * Double.one)) with (x * k * Double.one) by lia.
  rewrite <- (N.mul_1_l Double.one) at 2. by apply roundTo_scale.
Qed.

(** The division by [m = 2^32] of a double that is a whole number of [2^32]
    units is exact. *)
Lemma fdiv_m w :
  Double.isDouble (w * 4294967296) = true →
  Double.fdiv (w * 4294967296) (Double.ofInt 4294967296) = w.
Proof.
  intros Hd. unfold Double.fdiv, Double.ofInt.
  rewrite roundTo_scale by done.
  rewrite <- (N.mul_1_l 4294967296) at 2. rewrite roundTo_scale by done.
  apply roundTo_double. by apply (isDouble_div_pow2 w 32).
Qed.

(** What a draw computes: the sum [a * seed + c] is a double [t] not below
    [c], the seed left is its remainder by [2^32], a whole number of
    [2^1051] units, and the value is that seed over [2^32], exactly. *)
Lemma rngStream_spec seed :
  ∃ t w,
    Double.fadd (Double.fmul (Double.ofInt 1664525) seed) (Double.ofInt 1013904223) = t ∧
    Double.isDouble t = true ∧ Double.ofInt 1013904223 ≤ t ∧
    Double.rngStream seed = (w, w * 4294967296) ∧
    w * 4294967296 = t mod Double.ofInt 4294967296 ∧
    Double.isDouble (w * 4294967296) = true ∧ Double.isDouble w = true ∧
    w < Double.one.
Proof.
  set (t := Double.fadd (Double.fmul (Double.ofInt 1664525) seed) (Double.ofInt 1013904223)).
  assert (Ht : Double.isDouble t = true) by apply roundTo_isDouble.
  assert (Hc : Double.isDouble (Double.ofInt 1013904223) = true).
  { apply isDouble_mantissa. done. }
  assert (Hct : Double.ofInt 1013904223 ≤ t).
  { apply roundTo_ge; [done|]. lia. }
  assert (Hdiv : N.divide (2 ^ 1051) t).
  { apply (isDouble_above_pow2 t 1103); [done|]. etrans; [|exact Hct].
    unfold Double.ofInt, Double.one. change 1103 with (29 + 1074).
    rewrite N.pow_add_r. apply N.mul_le_mono_r. done. }
  destruct Hdiv as [j Hj].
  assert (Hm : Double.ofInt 4294967296 = 2 ^ 55 * 2 ^ 1051) by reflexivity.
  assert (Hs : t mod Double.ofInt 4294967296 = (j mod 2 ^ 55) * 2 ^ 1019 * 4294967296).
  { rewrite Hm, Hj, N.Div0.mul_mod_distr_r.
    change (2 ^ 1051) with (2 ^ 1019 * 4294967296). lia. }
  set (w := (j mod 2 ^ 55) * 2 ^ 1019) in *.
  assert (Hsd : Double.isDouble (w * 4294967296) = true).
  { rewrite <- Hs. change (Double.ofInt 4294967296) with (2 ^ 1106).
    by apply isDouble_mod_pow2. }
  exists t, w. split; [done|]. split; [done|]. split; [done|].
  split.
  { unfold Double.rngStream, Double.fmod. fold t. rewrite Hs. by rewrite fdiv_m. }
  split; [done|]. split; [done|]. split; [by apply (isDouble_div_pow2 w 32)|].
  assert (w * 4294967296 < Double.ofInt 4294967296).
  { rewrite <- Hs. apply N.mod_lt. done. }
  unfold Double.ofInt in *. lia.
Qed.

(** Rounding at work: half-way between two doubles the even significand
    wins, also among the smallest doubles, and a product below 4 can be
    rounded to 4, where the index drawn is not the integer part of the exact
    product. *)
Lemma roundTo_ties :
  Double.fadd (Double.ofInt 9007199254740992) (Double.ofInt 1)
    = Double.ofInt 9007199254740992 ∧
  Double.fadd (Double.ofInt 9007199254740994) (Double.ofInt 1)
    = Double.ofInt 9007199254740996 ∧
  Double.fdiv 1 (Double.ofInt 2) = 0 ∧
  Double.fdiv 3 (Double.ofInt 2) = 2 ∧
  5146971002709138 * 2 ^ 1021 * 7 < Double.ofInt 4 ∧
  Double.fmul (5146971002709138 * 2 ^ 1021) (Double.ofInt 7) = Double.ofInt 4.
Proof. repeat split; vm_compute; reflexivity. Qed.

(** A value below 1 times 7 is rounded to a double below 7. *)
Lemma fmul_7_below w :
  Double.isDouble w = true → w < Double.one →
  Double.fmul w (Double.ofInt 7) < Double.ofInt 7.
Proof.
  intros Hd Hlt. rewrite fmul_ofInt_r.
  pose proof (isDouble_below_pow2 w 1074 Hd Hlt) as Hgap.
  change (1074 - 53) with 1021 in Hgap. change (2 ^ 1074) with Double.one in Hgap.
  specialize (Hgap ltac:(done)).
  unfold Double.ofInt. rewrite one_units in *.
  destruct (N.lt_ge_cases (w * 7) (2 ^ 1076)) as [Hsmall|Hbig].
  - assert (Double.roundTo (w * 7) 1 ≤ 2 ^ 1076).
    { apply roundTo_le; [|lia]. rewrite <- (N.mul_1_l (2 ^ 1076)).
      by apply isDouble_mantissa. }
    change (2 ^ 1076) with (36028797018963968 * 2 ^ 1021) in *.
    pose proof (pow2_pos 1021). lia.
  - assert (Hlog : N.log2 (w * 7) = 1076).
    { apply N.log2_unique; [lia|]. split; [done|].
      change (2 ^ N.succ 1076) with (72057594037927936 * 2 ^ 1021).
      pose proof (pow2_pos 1021). lia. }
    destruct (roundTo_near (w * 7)) as [_ Hnear]. rewrite Hlog in Hnear.
    change (2 ^ (1076 - 52)) with (8 * 2 ^ 1021) in Hnear.
    pose proof (pow2_pos 1021). lia.
Qed.

End double_generator.

(** The sum [a * seed + c] of a draw stays below [2^53] for a seed below
    [2^32]: no operation of the draw overflows. *)
Lemma rngStream_sum_below seed :
  (seed < Double.ofInt 4294967296)%N →
  (Double.fadd (Double.fmul (Double.ofInt 1664525) seed) (Double.ofInt 1013904223)
     < Double.ofInt 9007199254740992)%N.
Proof.
  intros Hseed. rewrite fmul_ofInt_l. unfold Double.fadd.
  assert (H1 : (Double.roundTo (1664525 * seed) 1 ≤ Double.ofInt 7149080438374400)%N).
  { apply roundTo_le; [by apply isDouble_mantissa|]. unfold Double.ofInt in *. lia. }
  assert (H2 : (Double.roundTo (Double.roundTo (1664525 * seed) 1 + Double.ofInt 1013904223) 1
                  ≤ Double.ofInt 7149081452278623)%N).
  { apply roundTo_le; [by apply isDouble_mantissa|]. unfold Double.ofInt in *. lia. }
  unfold Double.ofInt in *. pose proof (pow2_pos 1074).
  change (2 ^ 1074)%N with Double.one in *. lia.
Qed.

(** X15. A draw on doubles.  For every seed below [2^32], and so for the
    seed [Math.random()] of a run and every seed a draw leaves, no
    operation of [rngStream] overflows; the seed it leaves is a double
    below [2^32] again, the value returned is that seed over [2^32]
    exactly, a double below 1, and its product with 7, rounded, is below
    7.  So the index [getRandomTetromino] computes is one of 0 to 6 and the
    piece it returns is the catalogue piece at that index, at column 4,
    row 0. *)
Theorem getRandomTetromino_in_catalog seed :
  (seed < Double.ofInt 4294967296)%N →
  (Double.fadd (Double.fmul (Double.ofInt 1664525) seed) (Double.ofInt 1013904223)
     < Double.ofInt 9007199254740992)%N ∧
  Double.isDouble (Double.rngStream seed).2 = true ∧
  ((Double.rngStream seed).2 < Double.ofInt 4294967296)%N ∧
  Double.isDouble (Double.rngStream seed).1 = true ∧
  ((Double.rngStream seed).1 * 4294967296 = (Double.rngStream seed).2)%N ∧
  ((Double.rngStream seed).1 < Double.one)%N ∧
  ∃ (i : nat) t,
    Double.bitor0 (Double.fmul (Double.rngStream seed).1 (Double.ofInt 7)) = Z.of_nat i ∧
    (i < 7)%nat ∧ tetrominoes !! i = Some t ∧
    Double.getRandomTetromino seed =
      ({| shape := shape t; color := color t; x := 4; y := 0 |},
       (Double.rngStream seed).2).
Proof.
  intros Hseed. split; [by apply rngStream_sum_below|].
  destruct (rngStream_spec seed) as (t & w & _ & _ & _ & Hrng & Hmod & Hsd & Hwd & Hw).
  unfold Double.getRandomTetromino. rewrite Hrng. cbn [fst snd].
  split; [done|]. split; [unfold Double.ofInt; lia|]. split; [done|].
  split; [done|]. split; [done|].
  pose proof (fmul_7_below w Hwd Hw) as H7.
  set (v7 := Double.fmul w (Double.ofInt 7)) in *.
  assert (Hidx : (v7 / Double.one < 7)%N).
  { apply N.Div0.div_lt_upper_bound. unfold Double.ofInt in H7. lia. }
  unfold Double.bitor0. set (n := (v7 / Double.one)%N) in *. clearbody n.
  rewrite toInt32_small by lia.
  exists (N.to_nat n).
  destruct (lookup_lt_is_Some_2 tetrominoes (N.to_nat n)) as [p Hp];
    [cbn [length tetrominoes]; lia|].
  exists p. split; [lia|]. split; [lia|]. split; [done|].
  replace (Z.to_nat (Z.of_N n)) with (N.to_nat n) by lia.
  by rewrite (nth_lookup_Some _ _ _ _ Hp).
Qed.

Lemma getRandomTetromino_in_catalog_witness :
  let seed := (6369051672525773 * 2 ^ 1021)%N in
  (seed < Double.ofInt 4294967296)%N ∧
  Double.isDouble seed = true ∧
  Double.getRandomTetromino seed = (pieceI 4 0, (8515118442028347 * 2 ^ 1051)%N) ∧
  ∃ (i : nat) t,
    Double.bitor0 (Double.fmul (Double.rngStream seed).1 (Double.ofInt 7)) = Z.of_nat i ∧
    (i < 7)%nat ∧ tetrominoes !! i = Some t ∧
    Double.getRandomTetromino seed =
      ({| shape := shape t; color := color t; x := 4; y := 0 |},
       (Double.rngStream seed).2).
Proof.
  intros seed.
  assert (Hseed : (seed < Double.ofInt 4294967296)%N) by (vm_compute; reflexivity).
  split; [exact Hseed|]. split; [vm_compute; reflexivity|].
  split; [vm_compute; reflexivity|].
  exact (proj2 (proj2 (proj2 (proj2 (proj2 (proj2
           (getRandomTetromino_in_catalog seed Hseed))))))).
Defined.

Lemma roundTo_ofInt k : (k ≤ 2 ^ 53)%N → Double.roundTo (Double.ofInt k) 1 = Double.ofInt k.
Proof. intros Hk. apply roundTo_double. by apply isDouble_mantissa. Qed.

Lemma rngStream_integer_seed (seed : N) :
  (seed < 4294967296)%N →
  Double.rngStream (Double.ofInt seed) =
    (((rngStream seed).2 * 2 ^ 1042)%N, Double.ofInt (rngStream seed).2).
Proof.
  intros Hseed. unfold rngStream. cbn [snd].
  set (s := ((1664525 * seed + 1013904223) mod 4294967296)%N).
  assert (Hs : (s < 4294967296)%N) by (by apply N.mod_lt).
  assert (Hsum : Double.fadd (Double.fmul (Double.ofInt 1664525) (Double.ofInt seed))
                   (Double.ofInt 1013904223)
                 = Double.ofInt (1664525 * seed + 1013904223)).
  { rewrite fmul_ofInt_l. unfold Double.fadd.
    replace (1664525 * Double.ofInt seed)%N with (Double.ofInt (1664525 * seed))
      by (unfold Double.ofInt; lia).
    rewrite roundTo_ofInt by (change (2 ^ 53)%N with 9007199254740992%N; lia).
    replace (Double.ofInt (1664525 * seed) + Double.ofInt 1013904223)%N
      with (Double.ofInt (1664525 * seed + 1013904223)) by (unfold Double.ofInt; lia).
    apply roundTo_ofInt. change (2 ^ 53)%N with 9007199254740992%N. lia. }
  assert (Hmod : Double.fmod (Double.ofInt (1664525 * seed + 1013904223))
                   (Double.ofInt 4294967296) = Double.ofInt s).
  { unfold Double.fmod, Double.ofInt. by rewrite N.Div0.mul_mod_distr_r. }
  unfold Double.rngStream. rewrite Hsum, Hmod. f_equal.
  replace (Double.ofInt s) with ((s * 2 ^ 1042) * 4294967296)%N.
  - apply fdiv_m.
    replace ((s * 2 ^ 1042) * 4294967296)%N with (Double.ofInt s).
    + apply isDouble_mantissa. change (2 ^ 53)%N with 9007199254740992%N. lia.
    + unfold Double.ofInt, Double.one.
      change (2 ^ 1074)%N with (2 ^ 1042 * 4294967296)%N. lia.
  - unfold Double.ofInt, Double.one.
    change (2 ^ 1074)%N with (2 ^ 1042 * 4294967296)%N. lia.
Qed.

(** X22. On integer seeds the two generators agree.  For an integer seed
    below [2^32] no operation of the draw rounds: the draw on doubles
    leaves the seed [rngStream] leaves and returns that seed over [2^32]
    as its value, which is the value of [rngStream], and
    [getRandomTetromino] returns the same piece in both. *)
Theorem getRandomTetromino_integer_seed (seed : N) :
  (seed < 4294967296)%N →
  Double.rngStream (Double.ofInt seed) =
    (((rngStream seed).2 * 2 ^ 1042)%N, Double.ofInt (rngStream seed).2) ∧
  Double.getRandomTetromino (Double.ofInt seed) =
    ((getRandomTetromino seed).1, Double.ofInt (getRandomTetromino seed).2).
Proof.
  intros Hseed. pose proof (rngStream_integer_seed seed Hseed) as Hrng.
  split; [done|].
  unfold Double.getRandomTetromino, getRandomTetromino. rewrite Hrng.
  unfold rngStream. cbn [fst snd].
  set (s := ((1664525 * seed + 1013904223) mod 4294967296)%N).
  assert (Hs : (s < 4294967296)%N) by (by apply N.mod_lt).
  assert (Hidx : Double.bitor0 (Double.fmul (s * 2 ^ 1042)%N (Double.ofInt 7))
                 = bitor0 ((Z.of_N s # 4294967296) * 7)).
  { rewrite fmul_ofInt_r.
    rewrite roundTo_double.
    2:{ replace (s * 2 ^ 1042 * 7)%N with ((s * 7) * 2 ^ 1042)%N by lia.
        apply isDouble_mantissa. change (2 ^ 53)%N with 9007199254740992%N. lia. }
    unfold Double.bitor0, bitor0. f_equal. cbn [Qmult Qnum Qden].
    change (Z.pos (4294967296 * 1)) with 4294967296.
    rewrite Z.quot_div_nonneg by lia.
    replace (s * 2 ^ 1042 * 7)%N with ((s * 7) * 2 ^ 1042)%N by lia.
    change Double.one with (4294967296 * 2 ^ 1042)%N.
    rewrite N.Div0.div_mul_cancel_r by done.
    rewrite N2Z.inj_div, N2Z.inj_mul. done. }
  by rewrite Hidx.
Qed.

Lemma getRandomTetromino_integer_seed_witness :
  (0 < 4294967296)%N ∧
  Double.getRandomTetromino (Double.ofInt 0) = (pieceI 4 0, Double.ofInt 1013904223) ∧
  Double.getRandomTetromino (Double.ofInt 0) =
    ((getRandomTetromino 0).1, Double.ofInt (getRandomTetromino 0).2).
Proof.
  split; [reflexivity|]. split; [vm_compute; reflexivity|].
  exact (proj2 (getRandomTetromino_integer_seed 0 eq_refl)).
Defined.

(** ** Rendering *)

Lemma forEach_cells_spec (ns : option string) (Q : Element → Prop) (C : Z → Prop)
    (cube : Svg → Z → Z → Element) (row : list Z) :
  Forall C row →
  (∀ svg cell sx, namespaceURI svg = ns → C cell → cell ≠ 0 → Q (cube svg cell sx)) →
  ∀ i svg, namespaceURI svg = ns →
    ∃ new, forEach_from (cellStep cube) i row svg
             = {| namespaceURI := ns; children := children svg ++ new |} ∧
           length new = length (List.filter (λ cell, bool_decide (cell ≠ 0)) row) ∧
           Forall Q new.
Proof.
  intros HC Hcube. induction HC as [|cell row Hcell HC IH]; intros i svg Hns;
    cbn [forEach_from List.filter].
  - exists []. rewrite app_nil_r. destruct svg. cbn in *. by subst.
  - unfold cellStep at 2. case_bool_decide as Hne.
    + destruct (IH (i + 1) (appendChild svg (cube svg cell i))) as (new & -> & Hlen & HQ);
        [done|].
      exists (cube svg cell i :: new). cbn [appendChild children length].
      rewrite <- app_assoc. split; [done|]. split; [by rewrite Hlen|].
      constructor; [by apply Hcube|done].
    + by apply IH.
Qed.

Lemma forEach_rows_spec (ns : option string) (Q : Element → Prop) (C : Z → Prop)
    (cube : Z → Svg → Z → Z → Element) (rows : list (list Z)) :
  Forall (Forall C) rows →
  (∀ sy svg cell sx, namespaceURI svg = ns → C cell → cell ≠ 0 →
     Q (cube sy svg cell sx)) →
  ∀ i svg, namespaceURI svg = ns →
    ∃ new, forEach_from (λ svg row sy, forEach_from (cellStep (cube sy)) 0 row svg) i rows svg
             = {| namespaceURI := ns; children := children svg ++ new |} ∧
           length new = occupiedCells rows ∧
           Forall Q new.
Proof.
  intros HC Hcube. induction HC as [|row rows Hrow HC IH]; intros i svg Hns;
    cbn [forEach_from].
  - exists []. rewrite app_nil_r. destruct svg. cbn in *. by subst.
  - destruct (forEach_cells_spec ns Q C (cube i) row Hrow (Hcube i) 0 svg Hns)
      as (new1 & -> & Hlen1 & HQ1).
    destruct (IH (i + 1) {| namespaceURI := ns; children := children svg ++ new1 |})
      as (new2 & -> & Hlen2 & HQ2); [done|].
    exists (new1 ++ new2). cbn [children]. rewrite <- app_assoc. split; [done|].
    split; [|by apply Forall_app].
    unfold occupiedCells in *. cbn [concat].
    rewrite List.filter_app, !length_app. lia.
Qed.

Lemma Forall_any {A} (l : list A) : Forall (λ _, True) l.
Proof. by apply Forall_true. Qed.

(** What [render] makes of the canvas for a running game. *)
Lemma render_running (Cg : Z → Prop) (s : State) (page : Page) :
  namespaceURI (svg page) = Some "http://www.w3.org/2000/svg" →
  gameEnd s = false →
  Forall (Forall Cg) (grid s) →
  ∃ newG newB,
    render s page =
      {| svg := {| namespaceURI := namespaceURI (svg page);
                   children :=
                     List.filter (λ child, negb (isSVGRectElement child))
                       (children (svg page)) ++ newG ++ newB |};
         levelText := pretty (level s); scoreText := pretty (score s) |} ∧
    length newG = occupiedCells (grid s) ∧
    length newB = occupiedCells (shape (fallingBlock s)) ∧
    Forall (λ e, isSVGRectElement e = true ∧
                 ∃ cell, Cg cell ∧ cell ≠ 0 ∧
                   (("style", "fill: " +:+ blockColours cell) : string * string)
                     ∈ attributes e) newG ∧
    Forall (λ e, isSVGRectElement e = true ∧
                 (("style", "fill: " +:+ blockColours (color (fallingBlock s)))
                    : string * string) ∈ attributes e) newB.
Proof.
  intros Hns Hrun HCg. unfold render, clearCanvas, renderGrid, renderBlock, forEach.
  rewrite Hrun. cbn [negb]. rewrite Hns.
  set (ns := Some "http://www.w3.org/2000/svg").
  set (kept := List.filter (λ child, negb (isSVGRectElement child)) (children (svg page))).
  destruct (forEach_rows_spec ns
    (λ e, isSVGRectElement e = true ∧
          ∃ cell, Cg cell ∧ cell ≠ 0 ∧
            (("style", "fill: " +:+ blockColours cell) : string * string) ∈ attributes e)
    Cg
    (λ gy svg cell gx, createSvgElement (namespaceURI svg) "rect" [
        ("height", pretty Block.HEIGHT); ("width", pretty Block.WIDTH);
        ("x", pretty (Block.WIDTH * gx)); ("y", pretty (Block.HEIGHT * gy));
        ("style", "fill: " +:+ blockColours cell)])
    (grid s) HCg) with (i := 0) (svg := {| namespaceURI := ns; children := kept |})
    as (newG & HG & HlenG & HQG); [|done|].
  { intros gy svg0 cell gx Hns0 Hcell Hne. split.
    - unfold isSVGRectElement. cbn. rewrite Hns0. done.
    - exists cell. split; [done|]. split; [done|].
      cbn [attributes createSvgElement]. do 4 apply list_elem_of_further.
      apply list_elem_of_here. }
  destruct (forEach_rows_spec ns
    (λ e, isSVGRectElement e = true ∧
          (("style", "fill: " +:+ blockColours (color (fallingBlock s)))
             : string * string) ∈ attributes e)
    (λ _, True)
    (λ sy svg cell sx, createSvgElement (namespaceURI svg) "rect" [
        ("height", pretty Block.HEIGHT); ("width", pretty Block.WIDTH);
        ("x", pretty (Block.WIDTH * (x (fallingBlock s) + sx)));
        ("y", pretty (Block.HEIGHT * (y (fallingBlock s) + sy)));
        ("style", "fill: " +:+ blockColours (color (fallingBlock s)))])
    (shape (fallingBlock s))) with (i := 0)
      (svg := {| namespaceURI := ns; children := kept ++ newG |})
    as (newB & HB & HlenB & HQB); [| |done|].
  { apply Forall_forall. intros row _. apply Forall_any. }
  { intros sy svg0 cell sx Hns0 _ Hne. split.
    - unfold isSVGRectElement. cbn. rewrite Hns0. done.
    - cbn [attributes createSvgElement]. do 4 apply list_elem_of_further.
      apply list_elem_of_here. }
  exists newG, newB. split; [|done].
  unfold cellStep in HG, HB. cbn [children] in HG, HB.
  rewrite HG, HB. by rewrite <- app_assoc.
Qed.

Lemma filter_notRect_new (kept new : list Element) :
  Forall (λ e, isSVGRectElement e = true) new →
  List.filter (λ child, negb (isSVGRectElement child))
    (List.filter (λ child, negb (isSVGRectElement child)) kept ++ new)
  = List.filter (λ child, negb (isSVGRectElement child)) kept.
Proof.
  intros Hnew. rewrite List.filter_app.
  rewrite (filter_none _ new), app_nil_r.
  - induction kept as [|e kept IH]; [done|]. cbn.
    destruct (negb (isSVGRectElement e)) eqn:He; cbn; [|done]. by rewrite He, IH.
  - revert Hnew. apply Forall_impl. intros e ->. done.
Qed.

Lemma filter_rect_new (kept new : list Element) :
  Forall (λ e, isSVGRectElement e = true) new →
  List.filter isSVGRectElement
    (List.filter (λ child, negb (isSVGRectElement child)) kept ++ new) = new.
Proof.
  intros Hnew. rewrite List.filter_app.
  rewrite (filter_none _ (List.filter _ kept)), app_nil_l.
  - induction Hnew as [|e new He Hnew IH]; [done|]. cbn. by rewrite He, IH.
  - apply List.Forall_forall. intros e [_ He]%List.filter_In.
    by apply negb_true_iff in He.
Qed.

(** X16. Each frame replaces the one before: on a canvas in the SVG namespace,
    rendering a running state after any other state gives the page that
    rendering it at once gives. *)
Theorem render_replaces s1 s2 page :
  namespaceURI (svg page) = Some "http://www.w3.org/2000/svg" →
  gameEnd s2 = false →
  render s2 (render s1 page) = render s2 page.
Proof.
  intros Hns Hrun2.
  assert (Hclear : clearCanvas (svg (render s1 page)) s2 = clearCanvas (svg page) s2).
  { unfold clearCanvas. rewrite Hrun2. cbn [negb].
    destruct (gameEnd s1) eqn:Hrun1.
    - unfold render, clearCanvas, renderGrid, renderBlock. by rewrite Hrun1.
    - destruct (render_running (λ _, True) s1 page Hns Hrun1) as (newG & newB & -> & _ & _ & HG & HB).
      { apply Forall_forall. intros row _. apply Forall_any. }
      cbn [svg namespaceURI children]. f_equal.
      apply filter_notRect_new. apply Forall_app. split.
      + revert HG. apply Forall_impl. by intros e [? _].
      + revert HB. apply Forall_impl. by intros e [? _]. }
  unfold render at 1. rewrite Hclear. reflexivity.
Qed.

Lemma render_replaces_witness :
  namespaceURI (svg examplePage) = Some "http://www.w3.org/2000/svg" ∧
  gameEnd exBeside = false ∧
  render exBeside (render exGap examplePage) = render exBeside examplePage.
Proof.
  split; [reflexivity|]. split; [reflexivity|].
  apply (render_replaces exGap exBeside examplePage); reflexivity.
Defined.

(** X17. For a running game on a canvas in the SVG namespace [render] draws one
    square for each board cell that is not 0 and one for each occupied
    cell of the falling piece, and these are all the rectangles on the
    canvas afterwards; the children that are no rectangles stay as they
    were, in their order. *)
Theorem render_draws s page :
  namespaceURI (svg page) = Some "http://www.w3.org/2000/svg" →
  gameEnd s = false →
  length (rects (svg (render s page)))
    = (occupiedCells (grid s) + occupiedCells (shape (fallingBlock s)))%nat ∧
  List.filter (λ child, negb (isSVGRectElement child)) (children (svg (render s page)))
    = List.filter (λ child, negb (isSVGRectElement child)) (children (svg page)).
Proof.
  intros Hns Hrun.
  destruct (render_running (λ _, True) s page Hns Hrun)
    as (newG & newB & -> & HlenG & HlenB & HG & HB).
  { apply Forall_forall. intros row _. apply Forall_any. }
  assert (Hnew : Forall (λ e, isSVGRectElement e = true) (newG ++ newB)).
  { apply Forall_app. split.
    - revert HG. apply Forall_impl. by intros e [? _].
    - revert HB. apply Forall_impl. by intros e [? _]. }
  unfold rects. cbn [svg children]. split.
  - rewrite filter_rect_new by done. rewrite length_app. lia.
  - by apply filter_notRect_new.
Qed.

Lemma render_draws_witness :
  namespaceURI (svg examplePage) = Some "http://www.w3.org/2000/svg" ∧
  gameEnd exBeside = false ∧
  length (rects (svg (render exBeside examplePage))) = 8%nat ∧
  length (rects (svg (render exBeside examplePage)))
    = (occupiedCells (grid exBeside) + occupiedCells (shape (fallingBlock exBeside)))%nat ∧
  List.filter (λ child, negb (isSVGRectElement child))
      (children (svg (render exBeside examplePage)))
    = List.filter (λ child, negb (isSVGRectElement child)) (children (svg examplePage)).
Proof.
  split; [reflexivity|]. split; [reflexivity|]. split; [vm_compute; reflexivity|].
  apply (render_draws exBeside examplePage); reflexivity.
Defined.

(** X18. The frame of the end of the game is the frame before it: when an event
    ends a running game, rendering the state returned changes nothing on a
    page that shows the state before the event.  The piece that locked is
    not drawn where it locked. *)
Theorem render_game_over_frame state movement seed s' seed' page :
  stateUpdater state movement seed = Ok (s', seed') →
  gameEnd state = false → gameEnd s' = true →
  render s' (render state page) = render state page.
Proof.
  intros H Hrun Hend.
  assert (s' = endGame state) as ->.
  { apply stateUpdater_cases in H as (block & Hb & [[Hl H]|(Hl & -> & ->)]);
      [|cbn in Hend; congruence].
    apply lockBlock_Ok in H
      as (newGrid & row0 & Hm & H0 & -> & [[Htop ->]|[_ (lg & Hw & ->)]]);
      [done|cbn in Hend; congruence]. }
  unfold render at 1. unfold clearCanvas, renderGrid, renderBlock.
  cbn [endGame gameEnd negb level score]. by unfold render.
Qed.

Lemma render_game_over_frame_witness :
  stateUpdater (setGameEnd false exEnded) (Move 1 0) 0 = Ok (exEnded, 1013904223%N) ∧
  gameEnd (setGameEnd false exEnded) = false ∧ gameEnd exEnded = true ∧
  render exEnded (render (setGameEnd false exEnded) examplePage)
    = render (setGameEnd false exEnded) examplePage.
Proof.
  split; [vm_compute; reflexivity|]. split; [reflexivity|]. split; [reflexivity|].
  apply (render_game_over_frame (setGameEnd false exEnded) (Move 1 0) 0 exEnded
           1013904223%N examplePage); [vm_compute; reflexivity | reflexivity | reflexivity].
Defined.

Lemma blockColours_catalog id :
  1 ≤ id ≤ 7 →
  blockColours id ∈ ["yellow"; "cyan"; "purple"; "orange"; "blue"; "red"; "green"].
Proof.
  intros Hid.
  assert (id = 1 ∨ id = 2 ∨ id = 3 ∨ id = 4 ∨ id = 5 ∨ id = 6 ∨ id = 7)
    as [->|[->|[->|[->|[->|[->| ->]]]]]] by lia;
    apply list_elem_of_In; vm_compute; tauto.
Qed.

(** X19. In a running state of the game every rectangle [render] leaves on the
    canvas is filled with one of the seven colours of the catalogue; the
    fallback colour black is never drawn. *)
Theorem render_colours state seed page e :
  reachable (state, seed) →
  namespaceURI (svg page) = Some "http://www.w3.org/2000/svg" →
  gameEnd state = false →
  e ∈ rects (svg (render state page)) →
  ∃ colour,
    colour ∈ ["yellow"; "cyan"; "purple"; "orange"; "blue"; "red"; "green"] ∧
    (("style", "fill: " +:+ colour) : string * string) ∈ attributes e.
Proof.
  intros [_ (Hfb & _ & _ & Hcells & _)]%reachable_invariants Hns Hrun He.
  destruct (render_running (λ cell, 0 ≤ cell ≤ 7) state page Hns Hrun Hcells)
    as (newG & newB & Hr & _ & _ & HG & HB).
  rewrite Hr in He. unfold rects in He. cbn [svg children] in He.
  rewrite filter_rect_new in He.
  - apply elem_of_app in He as [He|He].
    + apply list_elem_of_In in He.
      pose proof (proj1 (List.Forall_forall _ _) HG e He) as (_ & cell & Hc & Hne & Hattr).
      exists (blockColours cell). split; [|done]. apply blockColours_catalog. lia.
    + apply list_elem_of_In in He.
      pose proof (proj1 (List.Forall_forall _ _) HB e He) as (_ & Hattr).
      exists (blockColours (color (fallingBlock state))). split; [|done].
      apply blockColours_catalog.
      destruct Hfb as (t & Ht & -> & _). by apply catalog_color.
  - apply Forall_app. split.
    + revert HG. apply Forall_impl. by intros ? [? _].
    + revert HB. apply Forall_impl. by intros ? [? _].
Qed.

Lemma render_colours_witness :
  let e := createSvgElement (Some "http://www.w3.org/2000/svg") "rect"
             [("height", "20"); ("width", "20"); ("x", "80"); ("y", "340");
              ("style", "fill: yellow")] in
  reachable (exAboveFloor, 0%N) ∧
  namespaceURI (svg examplePage) = Some "http://www.w3.org/2000/svg" ∧
  gameEnd exAboveFloor = false ∧
  e ∈ rects (svg (render exAboveFloor examplePage)) ∧
  ∃ colour,
    colour ∈ ["yellow"; "cyan"; "purple"; "orange"; "blue"; "red"; "green"] ∧
    (("style", "fill: " +:+ colour) : string * string) ∈ attributes e.
Proof.
  intros e.
  assert (He : e ∈ rects (svg (render exAboveFloor examplePage))).
  { apply list_elem_of_In. vm_compute. left. reflexivity. }
  split; [apply exAboveFloor_reachable|]. split; [reflexivity|]. split; [reflexivity|].
  split; [exact He|].
  exact (render_colours exAboveFloor 0 examplePage e exAboveFloor_reachable
           eq_refl eq_refl He).
Defined.

(** ** The seed and the fall of a piece *)

(** X20. One draw for each lock: an event that locks the piece advances the
    seed by one step of the generator, whether the game ends there or not,
    and an event that does not lock leaves the seed as it was. *)
Theorem stateUpdater_seed state movement seed block s' seed' :
  movedBlock state movement = Ok block →
  stateUpdater state movement seed = Ok (s', seed') →
  seed' = if lockBlockChecker block (grid state) then (rngStream seed).2 else seed.
Proof.
  intros Hb H. apply stateUpdater_cases in H as (b & Hb' & H).
  rewrite Hb in Hb'. injection Hb' as <-.
  destruct H as [[-> H]|(-> & -> & _)]; [|done].
  apply lockBlock_Ok in H as (? & ? & _ & _ & -> & _).
  apply getRandomTetromino_seed.
Qed.

Lemma stateUpdater_seed_witness :
  movedBlock exAboveFloor (Move 0 1) = Ok (pieceO 4 18) ∧
  (∃ s', stateUpdater exAboveFloor (Move 0 1) 0 = Ok (s', 1013904223%N)) ∧
  1013904223%N =
    if lockBlockChecker (pieceO 4 18) (grid exAboveFloor) then (rngStream 0).2 else 0%N.
Proof.
  assert (Hb : movedBlock exAboveFloor (Move 0 1) = Ok (pieceO 4 18))
    by (vm_compute; reflexivity).
  split; [exact Hb|]. split; [eexists; vm_compute; reflexivity|].
  eapply (stateUpdater_seed exAboveFloor (Move 0 1) 0 (pieceO 4 18)); [exact Hb|].
  vm_compute. reflexivity.
Defined.

Lemma movedBlock_tick state block :
  movedBlock state (Move 0 1) = Ok block →
  shape block = shape (fallingBlock state) ∧ y block = y (fallingBlock state) + 1.
Proof.
  unfold movedBlock, applyMovement. cbn [mbind result_bind].
  intros (Hs & _ & Hy & _)%clampX_Ok. done.
Qed.

Lemma fall_ends n : ∀ state seed,
  invariant state →
  GRID_HEIGHT - 1
    - (y (fallingBlock state) + Z.of_nat (length (shape (fallingBlock state))))
    ≤ Z.of_nat n →
  ∃ (k : nat) sk block,
    (k ≤ n)%nat ∧
    scan state seed (replicate k (Move 0 1)) = Ok (sk, seed) ∧
    shape (fallingBlock sk) = shape (fallingBlock state) ∧
    y (fallingBlock sk) = y (fallingBlock state) + Z.of_nat k ∧
    movedBlock sk (Move 0 1) = Ok block ∧
    lockBlockChecker block (grid sk) = true.
Proof.
  induction n as [|n IH]; intros state seed Hinv Hm.
  - destruct (invariant_step state (Move 0 1) seed Hinv) as (s' & seed' & Hs & _ & b & Hb & _);
      [cbn; lia|].
    exists 0%nat, state, b. split; [lia|]. split; [done|].
    split; [done|]. split; [cbn; lia|]. split; [done|].
    destruct (movedBlock_tick state b Hb) as [Hsh Hy].
    unfold lockBlockChecker. rewrite Hsh, Hy.
    rewrite bool_decide_eq_true_2; [done|lia].
  - destruct (invariant_step state (Move 0 1) seed Hinv)
      as (s' & seed' & Hs & Hinv' & b & Hb & _); [cbn; lia|].
    destruct (lockBlockChecker b (grid state)) eqn:Hl.
    + exists 0%nat, state, b. split; [lia|]. split; [done|].
      split; [done|]. split; [cbn; lia|]. done.
    + destruct (movedBlock_tick state b Hb) as [Hsh Hy].
      pose proof Hs as Hs'. rewrite stateUpdater_steps, Hb in Hs'.
      cbn [mbind result_bind] in Hs'. rewrite settle_fall in Hs' by done.
      injection Hs' as Hs' Hseed. subst seed'.
      assert (Hfb : fallingBlock s' = b) by (by rewrite <- Hs').
      destruct (IH s' seed Hinv') as (k & sk & bk & Hk & Hscan & Hshk & Hyk & Hbk & Hlk).
      { rewrite Hfb, Hsh, Hy. lia. }
      exists (S k), sk, bk. split; [lia|]. split.
      { cbn [replicate scan]. rewrite Hs. cbn [mbind result_bind]. done. }
      split; [by rewrite Hshk, Hfb|]. split; [rewrite Hyk, Hfb, Hy; lia|]. done.
Qed.

(** X21. No piece falls for ever: from every state of the game the falling
    piece locks within twenty gravity ticks.  Some [k ≤ 19] ticks return
    without a lock, so that the seed is the one before and the piece
    is the same shape [k] rows further down, and the tick after them is
    one that locks. *)
Theorem gravity_locks state seed :
  reachable (state, seed) →
  ∃ (k : nat) sk block,
    (k ≤ 19)%nat ∧
    scan state seed (replicate k (Move 0 1)) = Ok (sk, seed) ∧
    shape (fallingBlock sk) = shape (fallingBlock state) ∧
    y (fallingBlock sk) = y (fallingBlock state) + Z.of_nat k ∧
    movedBlock sk (Move 0 1) = Ok block ∧
    lockBlockChecker block (grid sk) = true.
Proof.
  intros [Hinv _]%reachable_invariants.
  apply fall_ends; [done|].
  destruct Hinv as (_ & (R & C & [HR _] & ? & _) & _ & Htop).
  unfold GRID_HEIGHT. lia.
Qed.

Lemma gravity_locks_witness :
  reachable (initialState (pieceO 4 (-1)) (pieceT 4 (-1)), 0%N) ∧
  ∃ (k : nat) sk block,
    (k ≤ 19)%nat ∧
    scan (initialState (pieceO 4 (-1)) (pieceT 4 (-1))) 0 (replicate k (Move 0 1))
      = Ok (sk, 0%N) ∧
    shape (fallingBlock sk) = shape (pieceO 4 (-1)) ∧
    y (fallingBlock sk) = -1 + Z.of_nat k ∧
    movedBlock sk (Move 0 1) = Ok block ∧
    lockBlockChecker block (grid sk) = true.
Proof.
  assert (Hr : reachable (initialState (pieceO 4 (-1)) (pieceT 4 (-1)), 0%N)).
  { exists (pieceO 4 (-1)), (pieceT 4 (-1)), 0%N, []. split_and!.
    - apply list_elem_of_here.
    - do 2 apply list_elem_of_further. apply list_elem_of_here.
    - constructor.
    - reflexivity. }
  split; [exact Hr|].
  exact (gravity_locks (initialState (pieceO 4 (-1)) (pieceT 4 (-1))) 0 Hr).
Defined.
